(** * AdBlock Manager: the UI shell and the core it drives

    A shallow embedding of the Vue components of the repository
    (BlockedList.vue, DomainItem.vue, History.vue, Settings.vue, App.vue,
    composables/useTheme.ts, state.ts) together with the parts of the
    hosts-file core that the components call through [invoke].

    Handlers are written in a small free monad over the interactions a
    handler has with its environment ([invoke], [confirm], [toast],
    [console.error]); component state is passed explicitly.  JS strings
    that are scanned character by character are lists of UTF-16 code
    units; strings that are only compared or displayed are [string]. *)

From Stdlib Require Import ZArith NArith Ascii String.
From stdpp Require Import gmap strings list pretty.

Open Scope N_scope.

(** ** JS strings as code-unit sequences *)

Definition jsstring := list N.

Definition js (s : string) : jsstring :=
  (fun a => N_of_ascii a) <$> list_ascii_of_string s.

(** ECMAScript WhiteSpace and LineTerminator code units, the ones
    [String.prototype.trim] strips. *)
Definition is_js_space (c : N) : bool :=
  (c =? 9) || (c =? 10) || (c =? 11) || (c =? 12) || (c =? 13) || (c =? 32)
  || (c =? 160) || (c =? 5760) || ((8192 <=? c) && (c <=? 8202))
  || (c =? 8232) || (c =? 8233) || (c =? 8239) || (c =? 8287)
  || (c =? 12288) || (c =? 65279).

Fixpoint trim_start (s : jsstring) : jsstring :=
  match s with
  | c :: s' => if is_js_space c then trim_start s' else s
  | [] => []
  end.

Definition trim_end (s : jsstring) : jsstring := rev (trim_start (rev s)).

(** [s.trim()] *)
Definition trim (s : jsstring) : jsstring := trim_end (trim_start s).

(** [s.split(sep)] for a one-character separator. *)
Fixpoint split_on (sep : N) (s : jsstring) : list jsstring :=
  match s with
  | [] => [[]]
  | c :: s' =>
      if c =? sep then [] :: split_on sep s'
      else match split_on sep s' with
           | l :: ls => (c :: l) :: ls
           | [] => [[c]]
           end
  end.

(** ** Regular expressions

    The fragment of JS regular expressions that BlockedList.vue uses:
    character classes, concatenation, [( )?], [( )*] and the bounded
    repetition [{0,n}].  [RegExp.prototype.test] on a pattern anchored by
    [^] and [$] (no flags) answers whether the whole string is in the
    language. *)

Module Regex.

Inductive regex : Type :=
| Empty
| Eps
| Class (ranges : list (N * N))
| Cat (r1 r2 : regex)
| Alt (r1 r2 : regex)
| Star (r : regex)
| Repeat (n : nat) (r : regex).

(** [(r)?] *)
Definition Opt (r : regex) : regex := Alt r Eps.

Definition in_class (c : N) (ranges : list (N * N)) : bool :=
  existsb (fun rg => (fst rg <=? c) && (c <=? snd rg)) ranges.

Fixpoint nullable (r : regex) : bool :=
  match r with
  | Empty => false
  | Eps => true
  | Class _ => false
  | Cat r1 r2 => nullable r1 && nullable r2
  | Alt r1 r2 => nullable r1 || nullable r2
  | Star _ => true
  | Repeat _ _ => true
  end.

Fixpoint derive (c : N) (r : regex) : regex :=
  match r with
  | Empty => Empty
  | Eps => Empty
  | Class rs => if in_class c rs then Eps else Empty
  | Cat r1 r2 =>
      if nullable r1 then Alt (Cat (derive c r1) r2) (derive c r2)
      else Cat (derive c r1) r2
  | Alt r1 r2 => Alt (derive c r1) (derive c r2)
  | Star r1 => Cat (derive c r1) (Star r1)
  | Repeat n r1 =>
      match n with
      | O => Empty
      | S n' => Cat (derive c r1) (Repeat n' r1)
      end
  end.

Fixpoint derive_all (s : jsstring) (r : regex) : regex :=
  match s with
  | [] => r
  | c :: s' => derive_all s' (derive c r)
  end.

(** [/^r$/.test(s)] *)
Definition test (r : regex) (s : jsstring) : bool := nullable (derive_all s r).

(** The language of a pattern. *)
Inductive matches : regex -> jsstring -> Prop :=
| m_eps : matches Eps []
| m_class c rs : in_class c rs = true -> matches (Class rs) [c]
| m_cat r1 r2 s1 s2 :
    matches r1 s1 -> matches r2 s2 -> matches (Cat r1 r2) (s1 ++ s2)
| m_alt_l r1 r2 s : matches r1 s -> matches (Alt r1 r2) s
| m_alt_r r1 r2 s : matches r2 s -> matches (Alt r1 r2) s
| m_star_nil r : matches (Star r) []
| m_star_app r s1 s2 :
    matches r s1 -> matches (Star r) s2 -> matches (Star r) (s1 ++ s2)
| m_rep_nil n r : matches (Repeat n r) []
| m_rep_app n r s1 s2 :
    matches r s1 -> matches (Repeat n r) s2 ->
    matches (Repeat (S n) r) (s1 ++ s2).

End Regex.

(** ** Domain-name validation (BlockedList.vue, [addDomain]) *)

Module DomainName.
Import Regex.

(** [[a-zA-Z0-9]] *)
Definition alnum : list (N * N) := [(97, 122); (65, 90); (48, 57)].
(** [[a-zA-Z0-9-]] *)
Definition alnum_hyphen : list (N * N) := [(97, 122); (65, 90); (48, 57); (45, 45)].
(** [\.] *)
Definition dot : N := 46.
Definition hyphen : N := 45.

(** [[a-zA-Z0-9]([a-zA-Z0-9-]{0,61}[a-zA-Z0-9])?] *)
Definition label_re : regex :=
  Cat (Class alnum) (Opt (Cat (Repeat 61 (Class alnum_hyphen)) (Class alnum))).

(** [/^[a-zA-Z0-9]([a-zA-Z0-9-]{0,61}[a-zA-Z0-9])?(\.[a-zA-Z0-9]([a-zA-Z0-9-]{0,61}[a-zA-Z0-9])?)*$/] *)
Definition domain_re : regex :=
  Cat label_re (Star (Cat (Class [(dot, dot)]) label_re)).

(** [\.[a-zA-Z0-9]([a-zA-Z0-9-]{0,61}[a-zA-Z0-9])?], the group under the star. *)
Definition dot_label : regex := Cat (Class [(dot, dot)]) label_re.

(** The description of a well-formed name in words: dot-separated labels
    of 1 to 63 alphanumeric-or-hyphen characters that neither start nor
    end with a hyphen. *)

Definition is_alnum (c : N) : bool :=
  ((97 <=? c) && (c <=? 122)) || ((65 <=? c) && (c <=? 90))
  || ((48 <=? c) && (c <=? 57)).

Definition is_alnum_hyphen (c : N) : bool := is_alnum c || (c =? hyphen).

Definition label_ok (l : jsstring) : Prop :=
  (1 <= length l <= 63)%nat
  /\ Forall (fun c => is_alnum_hyphen c = true) l
  /\ head l <> Some hyphen
  /\ last l <> Some hyphen.

Definition well_formed (s : jsstring) : Prop :=
  Forall label_ok (split_on dot s).

End DomainName.

(** ** Interactions of a handler with its environment *)

Module Effects.

(** The error taxonomy of the core. *)
Inductive CoreError : Type :=
| IoError (context : string)
| ParseError (line : nat) (text : jsstring)
| NotFoundError
| ValidationError
| AtomicRenameError
| PrivilegeError.

Inductive DeleteOutcome : Type :=
| Deleted
| DeleteFailed (e : CoreError).

(** [interface HistoryEntry] (History.vue) *)
Record HistoryEntry : Type := {
  filename : string;
  path : string;
  entry_count : Z;
  file_size : Z;
  timestamp : Z
}.

Record Statistics : Type := { total_blocked : Z; unique_ips : Z }.

(** [type Theme = "dark" | "light"] (useTheme.ts) *)
Inductive Theme : Type := dark | light.

(** The record [get_config] answers with (Settings.vue, [loadSettings]). *)
Record Configuration : Type := {
  host_file_path : option string;
  history_dir : option string;
  max_history_entries : Z;
  theme : Theme
}.

(** The [configJson] argument of [update_config]: every key may be left
    out; a path key that is present holds a string or [null]. *)
Record ConfigJson : Type := {
  cj_host_file_path : option (option string);
  cj_history_dir : option (option string);
  cj_max_history_entries : option Z;
  cj_theme : option Theme
}.

(** The named remote operations, indexed by what they resolve with. *)
Inductive command : Type -> Type :=
| get_blocked_domains : command (list (jsstring * jsstring))
| get_statistics : command Statistics
| add_domain (ip hostname : jsstring) : command unit
| remove_domain (ip hostname : jsstring) : command unit
| save_changes : command unit
| get_history_list : command (list HistoryEntry)
| rollback_to (filename : string) : command unit
| delete_history_files (filenames : list string)
  : command (list (string * DeleteOutcome))
| get_config : command Configuration
| update_config (configJson : ConfigJson) : command unit
| get_host_file_path : command string
| check_admin_privileges : command bool.

(** The first argument of [invoke]. *)
Definition command_name {R} (c : command R) : string :=
  match c with
  | get_blocked_domains => "get_blocked_domains"
  | get_statistics => "get_statistics"
  | add_domain _ _ => "add_domain"
  | remove_domain _ _ => "remove_domain"
  | save_changes => "save_changes"
  | get_history_list => "get_history_list"
  | rollback_to _ => "rollback_to"
  | delete_history_files _ => "delete_history_files"
  | get_config => "get_config"
  | update_config _ => "update_config"
  | get_host_file_path => "get_host_file_path"
  | check_admin_privileges => "check_admin_privileges"
  end.

(** [await invoke(c)] resolves with a result or rejects with an error
    (kept as the text [String(error)] shows). *)
Inductive event : Type -> Type :=
| Invoke {R : Type} (c : command R) : event (R + string)
| Confirm (message : string) : event bool
| ToastError (message : string) (description : option string) : event unit
| ToastSuccess (message : string) (description : option string) : event unit
| ConsoleError (message : string) (error : string) : event unit
| SetAttribute (name value : string) : event unit.

Inductive prog (A : Type) : Type :=
| Ret (a : A)
| Vis {X : Type} (e : event X) (k : X -> prog A).
Arguments Ret {A} a.
Arguments Vis {A X} e k.

Fixpoint bind {A B : Type} (p : prog A) (f : A -> prog B) : prog B :=
  match p with
  | Ret a => f a
  | Vis e k => Vis e (fun x => bind (k x) f)
  end.

Definition trigger {X : Type} (e : event X) : prog X := Vis e Ret.

#[global] Instance prog_ret : MRet prog := @Ret.
#[global] Instance prog_bind : MBind prog := fun A B f p => bind p f.

(** One observed interaction: the event and the environment's answer. *)
Inductive obs : Type :=
| Obs {X : Type} (e : event X) (x : X).

(** An environment answers each event, knowing what happened before
    (most recent first). *)
Definition env : Type := forall X : Type, list obs -> event X -> X.

Fixpoint run {A : Type} (w : env) (h : list obs) (p : prog A) : list obs * A :=
  match p with
  | Ret a => ([], a)
  | Vis e k =>
      let x := w _ h e in
      let r := run w (Obs e x :: h) (k x) in
      (Obs e x :: fst r, snd r)
  end.

(** Projections of a trace. *)

Definition invoked (o : obs) : option string :=
  match o with
  | Obs e _ =>
      match e with
      | Invoke c => Some (command_name c)
      | _ => None
      end
  end.

(** The names of the remote operations a trace invokes, in order. *)
Definition invocations (t : list obs) : list string := omap invoked t.

Definition add_domain_call (o : obs) : option (jsstring * jsstring) :=
  match o with
  | Obs e _ =>
      match e with
      | Invoke c =>
          match c with
          | add_domain ip hostname => Some (ip, hostname)
          | _ => None
          end
      | _ => None
      end
  end.

Definition add_domain_calls (t : list obs) : list (jsstring * jsstring) :=
  omap add_domain_call t.

Definition rollback_call (o : obs) : option string :=
  match o with
  | Obs e _ =>
      match e with
      | Invoke c =>
          match c with
          | rollback_to f => Some f
          | _ => None
          end
      | _ => None
      end
  end.

Definition delete_call (o : obs) : option (list string) :=
  match o with
  | Obs e _ =>
      match e with
      | Invoke c =>
          match c with
          | delete_history_files fs => Some fs
          | _ => None
          end
      | _ => None
      end
  end.

Definition toast_error (o : obs) : option string :=
  match o with
  | Obs e _ =>
      match e with
      | ToastError m _ => Some m
      | _ => None
      end
  end.

Definition toast_success (o : obs) : option string :=
  match o with
  | Obs e _ =>
      match e with
      | ToastSuccess m _ => Some m
      | _ => None
      end
  end.

(** The answer a trace records for [delete_history_files]. *)
Definition delete_answer (o : obs)
  : option (list (string * DeleteOutcome) + string) :=
  match o with
  | Obs e x =>
      match e in event X
            return X -> option (list (string * DeleteOutcome) + string) with
      | Invoke c =>
          match c in command R
                return R + string
                       -> option (list (string * DeleteOutcome) + string) with
          | delete_history_files _ => fun r => Some r
          | _ => fun _ => None
          end
      | _ => fun _ => None
      end x
  end.

(** The update a trace records as applied: an [update_config] that
    resolved. *)
Definition update_applied (o : obs) : option ConfigJson :=
  match o with
  | Obs e x =>
      match e in event X return X -> option ConfigJson with
      | Invoke c =>
          match c in command R return R + string -> option ConfigJson with
          | update_config patch =>
              fun r => match r with inl _ => Some patch | inr _ => None end
          | _ => fun _ => None
          end
      | _ => fun _ => None
      end x
  end.

(** What the user gets to see of a trace: the toasts. *)
Definition toasts_error (t : list obs) : list string := omap toast_error t.
Definition toasts_success (t : list obs) : list string := omap toast_success t.

(** Environments to run a handler in.  A backend answers each remote
    operation; the user answers [confirm]. *)

Definition backend : Type := forall R : Type, command R -> R + string.

Definition default_result {R : Type} (c : command R) : R :=
  match c in command R return R with
  | get_blocked_domains => []
  | get_statistics => {| total_blocked := 0; unique_ips := 0 |}
  | add_domain _ _ => tt
  | remove_domain _ _ => tt
  | save_changes => tt
  | get_history_list => []
  | rollback_to _ => tt
  | delete_history_files fs => (fun f => (f, Deleted)) <$> fs
  | get_config =>
      {| host_file_path := None; history_dir := None;
         max_history_entries := 50; theme := dark |}
  | update_config _ => tt
  | get_host_file_path => ""
  | check_admin_privileges => true
  end.

(** Every operation succeeds. *)
Definition resolving : backend := fun R c => inl (default_result c).

(** Every operation fails with [error]. *)
Definition rejecting (error : string) : backend := fun R c => inr error.

Definition env_of (b : backend) (confirm : bool) : env :=
  fun X h e =>
    match e in event X return X with
    | Invoke c => b _ c
    | Confirm _ => confirm
    | ToastError _ _ => tt
    | ToastSuccess _ _ => tt
    | ConsoleError _ _ => tt
    | SetAttribute _ _ => tt
    end.

End Effects.

(** ** DomainItem.vue *)

Module DomainItem.

Record props : Type := {
  ip : jsstring;
  hostname : jsstring;
  disabled : bool
}.

(** [handleRemove]: what the component emits as [remove], if anything. *)
Definition handleRemove (p : props) : option (jsstring * jsstring) :=
  if negb (disabled p) then Some (ip p, hostname p) else None.

End DomainItem.

(** ** BlockedList.vue *)

Module BlockedList.
Import Effects.

Record BlockedDomain : Type := { ip : jsstring; hostname : jsstring }.

Record state : Type := {
  blockedDomains : list BlockedDomain;
  statistics : Statistics;
  isLoading : bool;
  isSaving : bool;
  showAddInput : bool;
  newDomain : jsstring;
  isAdding : bool
}.

Definition init : state :=
  {| blockedDomains := [];
     statistics := {| total_blocked := 0; unique_ips := 0 |};
     isLoading := false; isSaving := false; showAddInput := false;
     newDomain := []; isAdding := false |}.

Definition set_blockedDomains (v : list BlockedDomain) (st : state) : state :=
  {| blockedDomains := v; statistics := statistics st;
     isLoading := isLoading st; isSaving := isSaving st;
     showAddInput := showAddInput st; newDomain := newDomain st;
     isAdding := isAdding st |}.

Definition set_statistics (v : Statistics) (st : state) : state :=
  {| blockedDomains := blockedDomains st; statistics := v;
     isLoading := isLoading st; isSaving := isSaving st;
     showAddInput := showAddInput st; newDomain := newDomain st;
     isAdding := isAdding st |}.

Definition set_isLoading (v : bool) (st : state) : state :=
  {| blockedDomains := blockedDomains st; statistics := statistics st;
     isLoading := v; isSaving := isSaving st;
     showAddInput := showAddInput st; newDomain := newDomain st;
     isAdding := isAdding st |}.

Definition set_isSaving (v : bool) (st : state) : state :=
  {| blockedDomains := blockedDomains st; statistics := statistics st;
     isLoading := isLoading st; isSaving := v;
     showAddInput := showAddInput st; newDomain := newDomain st;
     isAdding := isAdding st |}.

Definition set_showAddInput (v : bool) (st : state) : state :=
  {| blockedDomains := blockedDomains st; statistics := statistics st;
     isLoading := isLoading st; isSaving := isSaving st;
     showAddInput := v; newDomain := newDomain st;
     isAdding := isAdding st |}.

Definition set_newDomain (v : jsstring) (st : state) : state :=
  {| blockedDomains := blockedDomains st; statistics := statistics st;
     isLoading := isLoading st; isSaving := isSaving st;
     showAddInput := showAddInput st; newDomain := v;
     isAdding := isAdding st |}.

Definition set_isAdding (v : bool) (st : state) : state :=
  {| blockedDomains := blockedDomains st; statistics := statistics st;
     isLoading := isLoading st; isSaving := isSaving st;
     showAddInput := showAddInput st; newDomain := newDomain st;
     isAdding := v |}.

Definition loadBlockedDomains (st : state) : prog state :=
  let st := set_isLoading true st in
  r ← trigger (Invoke get_blocked_domains);
  match r with
  | inl domains =>
      let st :=
        set_blockedDomains
          ((fun d => {| ip := fst d; hostname := snd d |}) <$> domains) st in
      r' ← trigger (Invoke get_statistics);
      match r' with
      | inl stats => mret (set_isLoading false (set_statistics stats st))
      | inr error =>
          trigger (ConsoleError "Failed to load blocked domains:" error);;
          mret (set_isLoading false st)
      end
  | inr error =>
      trigger (ConsoleError "Failed to load blocked domains:" error);;
      mret (set_isLoading false st)
  end.

(** The IP every added domain is mapped to. *)
Definition block_ip : jsstring := js "127.0.0.1".

(** The two guards of [addDomain]: the trimmed name is not empty and the
    pattern accepts it. *)
Definition accepted (domain : jsstring) : bool :=
  negb (bool_decide (domain = [])) && Regex.test DomainName.domain_re domain.

Definition addDomain (st : state) : prog state :=
  let domain := trim (newDomain st) in
  if bool_decide (domain = []) then
    trigger (ToastError "Please enter a domain name" None);; mret st
  else if negb (Regex.test DomainName.domain_re domain) then
    trigger (ToastError "Please enter a valid domain name" None);; mret st
  else
    let st := set_isAdding true st in
    r ← trigger (Invoke (add_domain block_ip domain));
    match r with
    | inl _ =>
        st ← loadBlockedDomains st;
        let st := set_showAddInput false (set_newDomain [] st) in
        trigger (ToastSuccess "Domain added successfully" None);;
        mret (set_isAdding false st)
    | inr error =>
        trigger (ConsoleError "Failed to add domain:" error);;
        trigger (ToastError "Failed to add domain" (Some error));;
        mret (set_isAdding false st)
    end.

Definition removeDomain (ip hostname : jsstring) (st : state) : prog state :=
  r ← trigger (Invoke (remove_domain ip hostname));
  match r with
  | inl _ =>
      st ← loadBlockedDomains st;
      trigger (ToastSuccess "Domain removed successfully" None);;
      mret st
  | inr error =>
      trigger (ConsoleError "Failed to remove domain:" error);;
      trigger (ToastError "Failed to remove domain" (Some error));;
      mret st
  end.

Definition saveChanges (st : state) : prog state :=
  let st := set_isSaving true st in
  r ← trigger (Invoke save_changes);
  match r with
  | inl _ =>
      st ← loadBlockedDomains st;
      trigger (ToastSuccess "Changes saved successfully!" None);;
      mret (set_isSaving false st)
  | inr error =>
      trigger (ConsoleError "Failed to save changes:" error);;
      trigger (ToastError "Failed to save changes" (Some error));;
      mret (set_isSaving false st)
  end.

Definition handleAddKeydown (key : string) (st : state) : prog state :=
  if String.eqb key "Enter" then addDomain st
  else if String.eqb key "Escape" then
    mret (set_newDomain [] (set_showAddInput false st))
  else mret st.

(** [onMounted(loadBlockedDomains)] *)
Definition mounted : prog state := loadBlockedDomains init.

(** The template: what the user can do, and which handler each control
    runs.  A control that is not rendered ([v-if]) or carries the
    [disabled] attribute dispatches nothing. *)
Inductive action : Type :=
| ClickAddDomain
| ClickSaveChanges
| InputNewDomain (text : jsstring)
| KeydownNewDomain (key : string)
| ClickAdd
| ClickCancel
| ClickRemove (index : nat).

Definition dispatch (disabled : bool) (a : action) (st : state) : prog state :=
  match a with
  | ClickAddDomain =>
      if negb (showAddInput st) && negb disabled
      then mret (set_showAddInput true st) else mret st
  | ClickSaveChanges =>
      if negb (isSaving st || disabled) then saveChanges st else mret st
  | InputNewDomain text =>
      if showAddInput st && negb (isAdding st)
      then mret (set_newDomain text st) else mret st
  | KeydownNewDomain key =>
      if showAddInput st && negb (isAdding st)
      then handleAddKeydown key st else mret st
  | ClickAdd =>
      if showAddInput st
         && negb (isAdding st || bool_decide (trim (newDomain st) = []) || disabled)
      then addDomain st else mret st
  | ClickCancel =>
      if showAddInput st
      then mret (set_newDomain [] (set_showAddInput false st)) else mret st
  | ClickRemove index =>
      if isLoading st then mret st
      else match blockedDomains st !! index with
           | None => mret st
           | Some d =>
               if disabled then mret st
               else
                 match DomainItem.handleRemove
                         {| DomainItem.ip := ip d;
                            DomainItem.hostname := hostname d;
                            DomainItem.disabled := disabled |} with
                 | Some (i, h) => removeDomain i h st
                 | None => mret st
                 end
           end
  end.

Fixpoint session (disabled : bool) (actions : list action) (st : state)
  : prog state :=
  match actions with
  | [] => mret st
  | a :: rest => st ← dispatch disabled a st; session disabled rest st
  end.

End BlockedList.

(** ** composables/useTheme.ts *)

Module UseTheme.
Import Effects.

Definition theme_name (t : Theme) : string :=
  match t with dark => "dark" | light => "light" end.

Definition setTheme (theme : Theme) (currentTheme : Theme) : prog Theme :=
  r ← trigger (Invoke (update_config
         {| cj_host_file_path := None; cj_history_dir := None;
            cj_max_history_entries := None; cj_theme := Some theme |}));
  match r with
  | inl _ =>
      trigger (SetAttribute "data-theme" (theme_name theme));;
      mret theme
  | inr error =>
      trigger (ConsoleError "Failed to update theme:" error);;
      mret currentTheme
  end.

Definition loadTheme (currentTheme : Theme) : prog Theme :=
  r ← trigger (Invoke get_config);
  match r with
  | inl config =>
      trigger (SetAttribute "data-theme" (theme_name (theme config)));;
      mret (theme config)
  | inr error =>
      trigger (ConsoleError "Failed to load theme:" error);;
      trigger (SetAttribute "data-theme" "dark");;
      mret currentTheme
  end.

End UseTheme.

(** ** App.vue and state.ts *)

Module App.
Import Effects.

(** [hasAdminPrivileges = ref<boolean | null>(null)] *)
Definition hasAdminPrivileges_init : option bool := None.

(** The [onMounted] hook, after [loadTheme()]. *)
Definition checkPrivileges : prog (option bool) :=
  r ← trigger (Invoke check_admin_privileges);
  match r with
  | inl b => mret (Some b)
  | inr error =>
      trigger (ConsoleError "Failed to check admin privileges:" error);;
      mret (Some false)
  end.

(** [:disabled="hasAdminPrivileges === false"] on [<BlockedList>]. *)
Definition blockedListDisabled (hasAdminPrivileges : option bool) : bool :=
  bool_decide (hasAdminPrivileges = Some false).

(** [v-if="hasAdminPrivileges === false && showAdminWarning"] on the alert. *)
Definition warningShown (hasAdminPrivileges : option bool)
    (showAdminWarning : bool) : bool :=
  bool_decide (hasAdminPrivileges = Some false) && showAdminWarning.

End App.

(** ** Settings.vue *)

Module Settings.
Import Effects.

Record state : Type := {
  hostFilePath : string;
  historyDir : string;
  maxHistoryEntries : Z;
  isLoading : bool;
  isSaving : bool
}.

Definition init : state :=
  {| hostFilePath := ""; historyDir := ""; maxHistoryEntries := 50;
     isLoading := false; isSaving := false |}.

(** [s || null] *)
Definition or_null (s : string) : option string :=
  if String.eqb s "" then None else Some s.

(** The [configJson] that [saveSettings] submits. *)
Definition settingsJson (theme : Theme) (st : state) : ConfigJson :=
  {| cj_host_file_path := Some (or_null (hostFilePath st));
     cj_history_dir := Some (or_null (historyDir st));
     cj_max_history_entries := Some (maxHistoryEntries st);
     cj_theme := Some theme |}.

Definition set_isSaving (v : bool) (st : state) : state :=
  {| hostFilePath := hostFilePath st; historyDir := historyDir st;
     maxHistoryEntries := maxHistoryEntries st; isLoading := isLoading st;
     isSaving := v |}.

Definition saveSettings (theme : Theme) (st : state) : prog state :=
  let st := set_isSaving true st in
  r ← trigger (Invoke (update_config (settingsJson theme st)));
  match r with
  | inl _ =>
      trigger (ToastSuccess "Settings saved successfully!" None);;
      mret (set_isSaving false st)
  | inr error =>
      trigger (ConsoleError "Failed to save settings:" error);;
      trigger (ToastError "Failed to save settings" (Some error));;
      mret (set_isSaving false st)
  end.

Definition loadSettings (st : state) : prog state :=
  r ← trigger (Invoke get_config);
  match r with
  | inl config =>
      mret {| hostFilePath := default "" (host_file_path config);
              historyDir := default "" (history_dir config);
              maxHistoryEntries :=
                (if (max_history_entries config =? 0)%Z then 5
                 else max_history_entries config)%Z;
              isLoading := false; isSaving := isSaving st |}
  | inr error =>
      trigger (ConsoleError "Failed to load settings:" error);;
      trigger (ToastError "Failed to load settings" (Some error));;
      mret {| hostFilePath := hostFilePath st; historyDir := historyDir st;
              maxHistoryEntries := maxHistoryEntries st;
              isLoading := false; isSaving := isSaving st |}
  end.

End Settings.

(** ** The core behind the remote operations

    The Rust sources of the core (src-tauri/src) are not part of the
    sources at hand; what the claims need of it is modelled from its
    specification. *)

Module Core.
Import Effects.

(** Modelled from the spec: the History Manager's store (src-tauri/src/history.rs
    is missing): the index of entries and the snapshot files present in
    the history directory. *)
Record HistoryStore : Type := {
  index : list HistoryEntry;
  snapshots : gset string
}.

(** Modelled from the spec: deleting one snapshot (src-tauri/src/history.rs is
    missing).  It removes the index entry and the backing file, and fails
    with NotFoundError when the file is absent. *)
Definition delete_one (f : string) (s : HistoryStore)
  : DeleteOutcome * HistoryStore :=
  if bool_decide (f ∈ snapshots s) then
    (Deleted,
     {| index := filter (fun e => filename e <> f) (index s);
        snapshots := snapshots s ∖ {[f]} |})
  else (DeleteFailed NotFoundError, s).

(** Modelled from the spec: [delete(filenames)] of section 4.4
    (src-tauri/src/history.rs is missing): "removes index entries and backing
    files for a batch; fails per-entry but reports which succeeded/failed
    rather than aborting the whole batch". *)
Fixpoint delete_history_files (fs : list string) (s : HistoryStore)
  : list (string * DeleteOutcome) * HistoryStore :=
  match fs with
  | [] => ([], s)
  | f :: rest =>
      let r1 := delete_one f s in
      let r2 := delete_history_files rest (snd r1) in
      ((f, fst r1) :: fst r2, snd r2)
  end.

(** Modelled from the spec: the unit of the timestamp a History Entry
    carries (src-tauri/src/history.rs is missing): "timestamp (unix
    seconds)" of section 3, the whole seconds since the unix epoch.  The
    instant is given in milliseconds since the epoch, the unit of a JS
    time value. *)
Definition unix_seconds (now : Z) : Z := (now / 1000)%Z.

(** Modelled from the spec: the entry the snapshot step of a save records
    (src-tauri/src/history.rs is missing), step 2 of section 4.4: "record
    {filename, path, entry_count (derived by re-parsing the snapshot),
    file_size, timestamp = now}", for a save at the instant [now]. *)
Definition snapshot_entry (name file : string) (entries size now : Z)
  : HistoryEntry :=
  {| filename := name; path := file; entry_count := entries;
     file_size := size; timestamp := unix_seconds now |}.

(** Modelled from the spec: the clamp of section 3 (src-tauri/src/config.rs is
    missing): "max_history_entries is clamped to [1, 1000]". *)
Definition clamp_history (n : Z) : Z := Z.max 1 (Z.min 1000 n).

(** Modelled from the spec: the Config Store's [update(partial fields)] of
    section 4.6 (src-tauri/src/config.rs is missing): it "merges into the
    existing configuration and persists immediately", and what it
    persists has [max_history_entries] clamped. *)
Definition update_config (patch : ConfigJson) (cfg : Configuration)
  : Configuration :=
  {| host_file_path := default (host_file_path cfg) (cj_host_file_path patch);
     history_dir := default (history_dir cfg) (cj_history_dir patch);
     max_history_entries :=
       clamp_history
         (default (max_history_entries cfg) (cj_max_history_entries patch));
     theme := default (theme cfg) (cj_theme patch) |}.

(** Modelled from the spec: the configuration on disk after the updates of
    a trace, each update being persisted as it is applied
    (src-tauri/src/config.rs is missing). *)
Definition persisted (cfg : Configuration) (t : list obs) : Configuration :=
  foldl (fun cfg o =>
           match update_applied o with
           | Some patch => update_config patch cfg
           | None => cfg
           end) cfg t.

(** Modelled from the spec: the Grammar Parser of section 4.1
    (src-tauri/src/parser.rs and grammar/hosts.pest are missing).  A hosts
    file is a sequence of lines separated by line feeds; each line is
    blank, a comment, or a mapping of one IP token to one or more
    whitespace-separated hostname tokens with an optional trailing
    comment.  The whitespace around the tokens is kept in the record, so
    that the line can be written back as it was read. *)
Inductive LineRecord : Type :=
| BlankLine (ws : list N)
| CommentLine (indent : list N) (comment : list N)
| MappingLine (indent : list N) (ip : list N)
    (hosts : list (list N * list N)) (trailing : list N)
    (comment : option (list N)).

(** Modelled from the spec: the line separator and the comment mark of the
    hosts format (src-tauri/grammar/hosts.pest is missing). *)
Definition newline : N := 10.
Definition hash : N := 35.

(** Modelled from the spec: the whitespace between tokens (space, tab,
    carriage return; src-tauri/grammar/hosts.pest is missing). *)
Definition is_blank (c : N) : bool := (c =? 32) || (c =? 9) || (c =? 13).

(** Modelled from the spec: the "IP token" of a mapping line, a non-empty
    run of the characters of an IPv4 or IPv6 address
    (src-tauri/grammar/hosts.pest is missing). *)
Definition is_ip_char (c : N) : bool :=
  ((48 <=? c) && (c <=? 57)) || ((97 <=? c) && (c <=? 102))
  || ((65 <=? c) && (c <=? 70)) || (c =? 46) || (c =? 58).

Definition is_ip (tok : list N) : bool :=
  negb (bool_decide (tok = [])) && forallb is_ip_char tok.

(** Modelled from the spec: the text of a line before its [#] and the
    comment after it (src-tauri/grammar/hosts.pest is missing). *)
Fixpoint cut_comment (l : list N) : list N * option (list N) :=
  match l with
  | [] => ([], None)
  | c :: l' =>
      if c =? hash then ([], Some l')
      else let r := cut_comment l' in (c :: fst r, snd r)
  end.

(** Modelled from the spec: the whitespace-separated tokens of a line,
    each with the whitespace in front of it; whitespace at the end of the
    line is a last field with an empty token (src-tauri/grammar/hosts.pest
    is missing). *)
Fixpoint fields (l : list N) : list (list N * list N) :=
  match l with
  | [] => []
  | c :: l' =>
      if is_blank c then
        match fields l' with
        | (ws, tok) :: fs => (c :: ws, tok) :: fs
        | [] => [([c], [])]
        end
      else
        match fields l' with
        | ([], tok) :: fs => ([], c :: tok) :: fs
        | fs => ([], [c]) :: fs
        end
  end.

(** Modelled from the spec: the hostname fields and the whitespace that
    trails them (src-tauri/grammar/hosts.pest is missing). *)
Fixpoint split_trailing (fs : list (list N * list N))
  : list (list N * list N) * list N :=
  match fs with
  | [] => ([], [])
  | f :: fs' =>
      match fs', snd f with
      | [], [] => ([], fst f)
      | _, _ => let r := split_trailing fs' in (f :: fst r, snd r)
      end
  end.

(** Modelled from the spec: [parse] on one line; it "fails with ParseError
    when a line matches none of {blank, comment, mapping}", the error
    carrying "a line number and offending text"
    (src-tauri/src/parser.rs is missing). *)
Definition parse_line (n : nat) (l : list N) : LineRecord + CoreError :=
  let body := fst (cut_comment l) in
  let comment := snd (cut_comment l) in
  match fields body with
  | [] =>
      inl (match comment with
           | None => BlankLine []
           | Some c => CommentLine [] c
           end)
  | [(ws, [])] =>
      inl (match comment with
           | None => BlankLine ws
           | Some c => CommentLine ws c
           end)
  | (indent, ip) :: rest =>
      let hosts := fst (split_trailing rest) in
      let trailing := snd (split_trailing rest) in
      if is_ip ip && negb (bool_decide (hosts = []))
      then inl (MappingLine indent ip hosts trailing comment)
      else inr (ParseError n l)
  end.

(** Modelled from the spec: the lines of a file parsed in order, the first
    malformed line failing the whole parse with its line number
    (src-tauri/src/parser.rs is missing). *)
Fixpoint parse_lines (n : nat) (ls : list (list N))
  : list LineRecord + CoreError :=
  match ls with
  | [] => inl []
  | l :: ls' =>
      match parse_line n l with
      | inr e => inr e
      | inl r =>
          match parse_lines (S n) ls' with
          | inr e => inr e
          | inl rs => inl (r :: rs)
          end
      end
  end.

(** Modelled from the spec: [parse(text) -> ordered sequence of Line
    Record] (src-tauri/src/parser.rs is missing). *)
Definition parse (t : list N) : list LineRecord + CoreError :=
  parse_lines 1 (split_on newline t).

(** Modelled from the spec: fields written back, each after its
    whitespace (src-tauri/src/parser.rs is missing). *)
Definition flat (fs : list (list N * list N)) : list N :=
  concat ((fun f => fst f ++ snd f) <$> fs).

(** Modelled from the spec: a Line Record written back "with its original
    formatting reconstructed" (src-tauri/src/parser.rs is missing). *)
Definition serialize_line (r : LineRecord) : list N :=
  match r with
  | BlankLine ws => ws
  | CommentLine indent c => indent ++ hash :: c
  | MappingLine indent ip hosts trailing comment =>
      indent ++ ip ++ flat hosts ++ trailing
      ++ match comment with Some c => hash :: c | None => [] end
  end.

(** Modelled from the spec: lines put together with the separator between
    them (src-tauri/src/parser.rs is missing). *)
Fixpoint join (sep : N) (ls : list (list N)) : list N :=
  match ls with
  | [] => []
  | [l] => l
  | l :: ls' => l ++ sep :: join sep ls'
  end.

(** Modelled from the spec: [serialize(sequence of Line Record) -> text]
    (src-tauri/src/parser.rs is missing). *)
Definition serialize (rs : list LineRecord) : list N :=
  join newline (serialize_line <$> rs).

(** Modelled from the spec: the Blocked Domain view of section 3, the
    (ip, hostname) pairs of the mapping records
    (src-tauri/src/state.rs is missing). *)
Definition mappings (r : LineRecord) : list (list N * list N) :=
  match r with
  | MappingLine _ ip hosts _ _ => (fun h => (ip, snd h)) <$> hosts
  | _ => []
  end.

End Core.

(** ** History.vue *)

Module History.
Import Effects.

(** *** Reactive state and the watcher queue

    The three [watch] calls of the component are jobs of Vue's scheduler:
    a write that changes a watched source queues its job (once), and the
    queue is flushed after the running handler, first in first out. *)

Inductive job : Type :=
| JobSelectAll   (* watch(selectAllChecked, ...) *)
| JobStates      (* watch(entryCheckedStates, ..., { deep: true }) *)
| JobHistory.    (* watch(historyEntries, ..., { immediate: true }) *)

#[global] Instance job_eq_dec : EqDecision job.
Proof. solve_decision. Defined.

Record state : Type := {
  historyEntries : list HistoryEntry;
  isLoading : bool;
  isRollingBack : bool;
  isDeleting : bool;
  selectedEntries : gset string;
  selectAllChecked : bool;
  entryCheckedStates : gmap string bool;
  (** the old value that [watch(selectAllChecked)] compares with *)
  seenSelectAll : bool;
  (** the queued watcher jobs *)
  pending : list job
}.

Definition init : state :=
  {| historyEntries := []; isLoading := false; isRollingBack := false;
     isDeleting := false; selectedEntries := ∅; selectAllChecked := false;
     entryCheckedStates := ∅; seenSelectAll := false; pending := [] |}.

Definition set_historyEntries (v : list HistoryEntry) (st : state) : state :=
  {| historyEntries := v; isLoading := isLoading st;
     isRollingBack := isRollingBack st; isDeleting := isDeleting st;
     selectedEntries := selectedEntries st;
     selectAllChecked := selectAllChecked st;
     entryCheckedStates := entryCheckedStates st;
     seenSelectAll := seenSelectAll st; pending := pending st |}.

Definition set_isLoading (v : bool) (st : state) : state :=
  {| historyEntries := historyEntries st; isLoading := v;
     isRollingBack := isRollingBack st; isDeleting := isDeleting st;
     selectedEntries := selectedEntries st;
     selectAllChecked := selectAllChecked st;
     entryCheckedStates := entryCheckedStates st;
     seenSelectAll := seenSelectAll st; pending := pending st |}.

Definition set_isRollingBack (v : bool) (st : state) : state :=
  {| historyEntries := historyEntries st; isLoading := isLoading st;
     isRollingBack := v; isDeleting := isDeleting st;
     selectedEntries := selectedEntries st;
     selectAllChecked := selectAllChecked st;
     entryCheckedStates := entryCheckedStates st;
     seenSelectAll := seenSelectAll st; pending := pending st |}.

Definition set_isDeleting (v : bool) (st : state) : state :=
  {| historyEntries := historyEntries st; isLoading := isLoading st;
     isRollingBack := isRollingBack st; isDeleting := v;
     selectedEntries := selectedEntries st;
     selectAllChecked := selectAllChecked st;
     entryCheckedStates := entryCheckedStates st;
     seenSelectAll := seenSelectAll st; pending := pending st |}.

Definition set_selectedEntries (v : gset string) (st : state) : state :=
  {| historyEntries := historyEntries st; isLoading := isLoading st;
     isRollingBack := isRollingBack st; isDeleting := isDeleting st;
     selectedEntries := v;
     selectAllChecked := selectAllChecked st;
     entryCheckedStates := entryCheckedStates st;
     seenSelectAll := seenSelectAll st; pending := pending st |}.

Definition set_selectAllChecked (v : bool) (st : state) : state :=
  {| historyEntries := historyEntries st; isLoading := isLoading st;
     isRollingBack := isRollingBack st; isDeleting := isDeleting st;
     selectedEntries := selectedEntries st;
     selectAllChecked := v;
     entryCheckedStates := entryCheckedStates st;
     seenSelectAll := seenSelectAll st; pending := pending st |}.

Definition set_entryCheckedStates (v : gmap string bool) (st : state) : state :=
  {| historyEntries := historyEntries st; isLoading := isLoading st;
     isRollingBack := isRollingBack st; isDeleting := isDeleting st;
     selectedEntries := selectedEntries st;
     selectAllChecked := selectAllChecked st;
     entryCheckedStates := v;
     seenSelectAll := seenSelectAll st; pending := pending st |}.

Definition set_seenSelectAll (v : bool) (st : state) : state :=
  {| historyEntries := historyEntries st; isLoading := isLoading st;
     isRollingBack := isRollingBack st; isDeleting := isDeleting st;
     selectedEntries := selectedEntries st;
     selectAllChecked := selectAllChecked st;
     entryCheckedStates := entryCheckedStates st;
     seenSelectAll := v; pending := pending st |}.

Definition set_pending (v : list job) (st : state) : state :=
  {| historyEntries := historyEntries st; isLoading := isLoading st;
     isRollingBack := isRollingBack st; isDeleting := isDeleting st;
     selectedEntries := selectedEntries st;
     selectAllChecked := selectAllChecked st;
     entryCheckedStates := entryCheckedStates st;
     seenSelectAll := seenSelectAll st; pending := v |}.

(** [queueJob]: a job already in the queue is not added again. *)
Definition enqueue (j : job) (q : list job) : list job :=
  if bool_decide (j ∈ q) then q else q ++ [j].

(** [selectAllChecked.value = v] *)
Definition write_selectAllChecked (v : bool) (st : state) : state :=
  if bool_decide (selectAllChecked st = v) then st
  else set_pending (enqueue JobSelectAll (pending st))
         (set_selectAllChecked v st).

(** The names a plain object inherits from [Object.prototype]: the [in]
    operator answers [true] for them on every object. *)
Definition object_prototype_keys : list string :=
  ["constructor"; "__defineGetter__"; "__defineSetter__"; "hasOwnProperty";
   "__lookupGetter__"; "__lookupSetter__"; "isPrototypeOf";
   "propertyIsEnumerable"; "toString"; "valueOf"; "__proto__";
   "toLocaleString"].

(** [k in obj] *)
Definition js_in (k : string) (obj : gmap string bool) : bool :=
  bool_decide (is_Some (obj !! k)) || bool_decide (k ∈ object_prototype_keys).

(** [entryCheckedStates.value[k] = v]; assigning to [__proto__] creates
    no own property. *)
Definition write_checked (k : string) (v : bool) (st : state) : state :=
  if String.eqb k "__proto__" then
    set_pending (enqueue JobStates (pending st)) st
  else if bool_decide (entryCheckedStates st !! k = Some v) then st
  else set_pending (enqueue JobStates (pending st))
         (set_entryCheckedStates (<[k:=v]> (entryCheckedStates st)) st).

(** [delete entryCheckedStates.value[k]] *)
Definition delete_checked (k : string) (st : state) : state :=
  if bool_decide (is_Some (entryCheckedStates st !! k)) then
    set_pending (enqueue JobStates (pending st))
      (set_entryCheckedStates (delete k (entryCheckedStates st)) st)
  else st.

(** [historyEntries.value = entries]: a new array each time. *)
Definition write_historyEntries (entries : list HistoryEntry) (st : state)
  : state :=
  set_pending (enqueue JobHistory (pending st)) (set_historyEntries entries st).

(** [Object.keys(obj)] *)
Definition object_keys (obj : gmap string bool) : list string :=
  (map_to_list obj).*1.

(** The keys whose value is [true]:
    [Object.entries(obj).filter(([, checked]) => checked).map(([f]) => f)]
    as a set. *)
Definition checked_keys (obj : gmap string bool) : gset string :=
  dom (filter (fun kv => kv.2 = true) obj).

Definition updateSelectedEntries (st : state) : state :=
  let st := set_selectedEntries (checked_keys (entryCheckedStates st)) st in
  write_selectAllChecked
    ((0 <? length (historyEntries st))%nat
     && (size (selectedEntries st) =? length (historyEntries st))%nat)
    st.

(** [watch(selectAllChecked, (checked) => ...)] *)
Definition watch_selectAllChecked (checked : bool) (st : state) : state :=
  updateSelectedEntries
    (foldl (fun st entry => write_checked (filename entry) checked st)
           st (historyEntries st)).

(** [watch(entryCheckedStates, () => ..., { deep: true })] *)
Definition watch_entryCheckedStates (st : state) : state :=
  updateSelectedEntries st.

(** [watch(historyEntries, (entries) => ..., { immediate: true })] *)
Definition watch_historyEntries (entries : list HistoryEntry) (st : state)
  : state :=
  let st :=
    foldl (fun st entry =>
             if negb (js_in (filename entry) (entryCheckedStates st))
             then write_checked (filename entry) false st else st)
          st entries in
  let st :=
    foldl (fun st k =>
             if negb (existsb (fun e => String.eqb (filename e) k) entries)
             then delete_checked k st else st)
          st (object_keys (entryCheckedStates st)) in
  updateSelectedEntries st.

(** What a checkbox emits as its new value. *)
Inductive CheckedState : Type :=
| Checked (b : bool)
| Indeterminate
| Undefined.

(** [checked === true] *)
Definition is_true (c : CheckedState) : bool :=
  match c with Checked true => true | _ => false end.

Definition setEntryChecked (f : string) (checked : CheckedState) (st : state)
  : state :=
  updateSelectedEntries (write_checked f (is_true checked) st).

(** One queued job.  The job of [watch(selectAllChecked)] calls back only
    when the value differs from the one it saw last, and records the new
    value after the callback. *)
Definition run_job (j : job) (st : state) : state :=
  match j with
  | JobSelectAll =>
      let v := selectAllChecked st in
      if bool_decide (v = seenSelectAll st) then st
      else set_seenSelectAll v (watch_selectAllChecked v st)
  | JobStates => watch_entryCheckedStates st
  | JobHistory => watch_historyEntries (historyEntries st) st
  end.

Fixpoint flush (fuel : nat) (st : state) : state :=
  match fuel with
  | O => st
  | S fuel' =>
      match pending st with
      | [] => st
      | j :: q => flush fuel' (run_job j (set_pending q st))
      end
  end.

(** The scheduler gives up on a job that keeps queueing itself. *)
Definition RECURSION_LIMIT : nat := 100.

Definition settle (st : state) : state := flush RECURSION_LIMIT st.

(** The state after [setup]: the [immediate] watcher has run once. *)
Definition setup : state := settle (watch_historyEntries [] init).

(** *** Handlers *)

Definition loadHistory (st : state) : prog state :=
  let st := set_isLoading true st in
  r ← trigger (Invoke get_history_list);
  match r with
  | inl entries =>
      let st := write_historyEntries entries st in
      let st := set_selectedEntries ∅ st in
      mret (settle (set_isLoading false st))
  | inr error =>
      trigger (ConsoleError "Failed to load history:" error);;
      trigger (ToastError "Failed to load history" (Some error));;
      mret (set_isLoading false st)
  end.

(** The time value, in milliseconds since the epoch, of [new Date(ms)];
    [None] is an invalid date ([TimeClip]). *)
Definition Date (ms : Z) : option Z :=
  if (Z.abs ms <=? 8640000000000000)%Z then Some ms else None.

(** [formatDate].  [toLocaleString] is the host's rendering of a date
    (given by its time value) in the user's locale and time zone; it is
    defined by the implementation, and is taken as a parameter. *)
Definition formatDate (toLocaleString : option Z -> string) (timestamp : Z)
  : string :=
  let date := Date (timestamp * 1000) in
  toLocaleString date.

(** The fields of a time value (ECMAScript [Day], [HourFromTime],
    [MinFromTime], [SecFromTime], [msFromTime]), in UTC. *)
Definition Day (t : Z) : Z := (t / 86400000)%Z.
Definition HourFromTime (t : Z) : Z := ((t / 3600000) mod 24)%Z.
Definition MinFromTime (t : Z) : Z := ((t / 60000) mod 60)%Z.
Definition SecFromTime (t : Z) : Z := ((t / 1000) mod 60)%Z.
Definition msFromTime (t : Z) : Z := (t mod 1000)%Z.

Definition delete_message (count : nat) : string :=
  if (count =? 1)%nat then "Are you sure you want to delete this history entry?"
  else "Are you sure you want to delete " +:+ pretty count +:+ " history entries?".

Definition deleted_message (count : nat) : string :=
  "Successfully deleted " +:+ pretty count +:+ " "
  +:+ (if (count =? 1)%nat then "entry" else "entries").

Definition deleteSelected (st : state) : prog state :=
  if (size (selectedEntries st) =? 0)%nat then
    trigger (ToastError "No entries selected" None);; mret st
  else
    let count := size (selectedEntries st) in
    ok ← trigger (Confirm (delete_message count));
    if negb ok then mret st
    else
      let st := set_isDeleting true st in
      let filenames := elements (selectedEntries st) in
      r ← trigger (Invoke (delete_history_files filenames));
      match r with
      | inl _ =>
          trigger (ToastSuccess (deleted_message count) None);;
          st ← loadHistory st;
          mret (set_isDeleting false st)
      | inr error =>
          trigger (ConsoleError "Failed to delete history files:" error);;
          trigger (ToastError "Failed to delete history files" (Some error));;
          mret (set_isDeleting false st)
      end.

Definition rollback_message (f : string) : string :=
  "Are you sure you want to rollback to " +:+ f
  +:+ "? This will replace your current hosts file.".

Definition rollbackTo (f : string) (st : state) : prog state :=
  ok ← trigger (Confirm (rollback_message f));
  if negb ok then mret st
  else
    let st := set_isRollingBack true st in
    r ← trigger (Invoke (rollback_to f));
    match r with
    | inl _ =>
        trigger (ToastSuccess "Rollback successful!"
                   (Some "The hosts file has been restored."));;
        st ← loadHistory st;
        mret (set_isRollingBack false st)
    | inr error =>
        trigger (ConsoleError "Failed to rollback:" error);;
        trigger (ToastError "Failed to rollback" (Some error));;
        mret (set_isRollingBack false st)
    end.

(** [onMounted(loadHistory)] *)
Definition mounted : prog state := loadHistory setup.

(** *** The template *)

Inductive action : Type :=
| ClickRefresh
| ClickDelete
| ToggleSelectAll
| CheckEntry (index : nat) (checked : CheckedState)
| ClickRestore (index : nat).

(** The list (with its select-all row) is rendered when the component is
    not loading and has entries. *)
Definition list_rendered (st : state) : bool :=
  negb (isLoading st) && negb (bool_decide (historyEntries st = [])).

Definition dispatch (a : action) (st : state) : prog state :=
  match a with
  | ClickRefresh => if isLoading st then mret st else loadHistory st
  | ClickDelete =>
      if (0 <? size (selectedEntries st))%nat && negb (isDeleting st)
      then deleteSelected st else mret st
  | ToggleSelectAll =>
      if list_rendered st
      then mret (settle (write_selectAllChecked (negb (selectAllChecked st)) st))
      else mret st
  | CheckEntry index checked =>
      if list_rendered st then
        match historyEntries st !! index with
        | Some entry => mret (settle (setEntryChecked (filename entry) checked st))
        | None => mret st
        end
      else mret st
  | ClickRestore index =>
      if list_rendered st && negb (isRollingBack st) then
        match historyEntries st !! index with
        | Some entry => rollbackTo (filename entry) st
        | None => mret st
        end
      else mret st
  end.

Fixpoint session (actions : list action) (st : state) : prog state :=
  match actions with
  | [] => mret st
  | a :: rest => st ← dispatch a st; session rest st
  end.

End History.

(** ** Invariants of the history view *)

Module HistoryInvariant.
Import Effects History.

Definition filenames (es : list HistoryEntry) : list string := filename <$> es.

(** A list of entries as the data model has it: filenames are unique.
    None of them is a name inherited from [Object.prototype]. *)
Definition wf_entries (es : list HistoryEntry) : Prop :=
  NoDup (filenames es)
  /\ Forall (fun f => f ∉ object_prototype_keys) (filenames es).

(** The value [updateSelectedEntries] computes for [selectAllChecked]. *)
Definition all_flag (st : state) : bool :=
  (0 <? length (historyEntries st))%nat
  && (size (checked_keys (entryCheckedStates st)) =? length (historyEntries st))%nat.

(** Fields that the writes to the checked-state object leave alone. *)
Definition frame (st st' : state) : Prop :=
  historyEntries st' = historyEntries st
  /\ selectedEntries st' = selectedEntries st
  /\ selectAllChecked st' = selectAllChecked st
  /\ seenSelectAll st' = seenSelectAll st.

(** A step that queued job [j] or nothing. *)
Definition queued (j : job) (st st' : state) : Prop :=
  pending st' = pending st \/ pending st' = enqueue j (pending st).

(** The keys of the checked-state object are the listed filenames. *)
Definition keys_match (st : state) : Prop :=
  wf_entries (historyEntries st)
  /\ dom (entryCheckedStates st) = list_to_set (filenames (historyEntries st)).

(** The selection and the select-all flag are the ones derived from the
    checked states. *)
Definition derived (st : state) : Prop :=
  selectedEntries st = checked_keys (entryCheckedStates st)
  /\ selectAllChecked st = all_flag st.

(** [watch(selectAllChecked)] has seen the current value, or is queued. *)
Definition watcher_armed (st : state) : Prop :=
  seenSelectAll st = selectAllChecked st \/ JobSelectAll ∈ pending st.

(** A step that queued at most [n] jobs, none of them the history job. *)
Definition grows (n : nat) (st st' : state) : Prop :=
  (length (pending st') <= length (pending st) + n)%nat
  /\ (forall j, j ∈ pending st -> j ∈ pending st')
  /\ (JobHistory ∈ pending st' -> JobHistory ∈ pending st).

(** What holds after each callback while the queue is being flushed. *)
Definition flushable (st : state) : Prop :=
  keys_match st /\ derived st /\ watcher_armed st /\ JobHistory ∉ pending st.

(** How many more times the select-all callback will fire. *)
Definition fires (st : state) : nat :=
  if bool_decide (seenSelectAll st = selectAllChecked st) then 0
  else if selectAllChecked st && bool_decide (historyEntries st = []) then 2
  else 1.

(** A bound on the jobs still to run. *)
Definition measure (st : state) : nat := 3 * fires st + length (pending st).

(** The state between two user actions: the watchers have run. *)
Definition settled (st : state) : Prop :=
  keys_match st /\ derived st /\ seenSelectAll st = selectAllChecked st /\ pending st = [].

(** The backend lists snapshots under distinct names, none of which is a
    property name of [Object.prototype]. *)
Definition lists_distinct_names (w : env) : Prop :=
  forall h es, w _ h (Invoke get_history_list) = inl es -> wf_entries es.

(** A destructive invocation is confirmed when the interaction right
    before it is the confirmation dialog for it, answered [true]. *)
Definition confirmed_by (prev : option obs) (o : obs) : Prop :=
  match rollback_call o, delete_call o with
  | Some f, _ => prev = Some (Obs (Confirm (rollback_message f)) true)
  | None, Some fs =>
      fs <> [] /\ prev = Some (Obs (Confirm (delete_message (length fs))) true)
  | None, None => True
  end.

Fixpoint guarded (prev : option obs) (t : list obs) : Prop :=
  match t with
  | [] => True
  | o :: t' => confirmed_by prev o /\ guarded (Some o) t'
  end.

End HistoryInvariant.

(** ** Traces of the blocked-domain view *)

Module BlockedListTrace.
Import Effects BlockedList.

Definition remove_domain_call (o : obs) : option (jsstring * jsstring) :=
  match o with
  | Obs e _ =>
      match e with
      | Invoke c =>
          match c with
          | remove_domain ip hostname => Some (ip, hostname)
          | _ => None
          end
      | _ => None
      end
  end.

(** What a resolved [get_blocked_domains] answered. *)
Definition domains_answer (o : obs) : option (list (jsstring * jsstring)) :=
  match o with
  | Obs e x =>
      match e in event X return X -> option (list (jsstring * jsstring)) with
      | Invoke c =>
          match c in command R
                return R + string -> option (list (jsstring * jsstring)) with
          | get_blocked_domains =>
              fun r => match r with inl ds => Some ds | inr _ => None end
          | _ => fun _ => None
          end
      | _ => fun _ => None
      end x
  end.

(** [domains.map(([ip, hostname]) => ({ ip, hostname }))] *)
Definition as_domains (ds : list (jsstring * jsstring)) : list BlockedDomain :=
  (fun d => {| ip := fst d; hostname := snd d |}) <$> ds.

(** The list on display after a trace: the last answer of the backend, or
    the list as it was. *)
Definition listed_after (d : list BlockedDomain) (t : list obs)
  : list BlockedDomain :=
  foldl (fun d o =>
           match domains_answer o with
           | Some ds => as_domains ds
           | None => d
           end) d t.

(** Every [remove_domain] of a trace names a domain on display at that
    moment. *)
Fixpoint removes_listed (d : list BlockedDomain) (t : list obs) : Prop :=
  match t with
  | [] => True
  | o :: t' =>
      match remove_domain_call o with
      | Some c => {| ip := fst c; hostname := snd c |} ∈ d
      | None => True
      end
      /\ removes_listed (listed_after d [o]) t'
  end.

(** No request of the component is in flight. *)
Definition idle (st : state) : Prop :=
  isLoading st = false /\ isSaving st = false /\ isAdding st = false.

Definition is_save (a : action) : bool :=
  match a with ClickSaveChanges => true | _ => false end.

Definition save_call (o : obs) : option unit :=
  match o with
  | Obs e _ =>
      match e with
      | Invoke c =>
          match c with
          | save_changes => Some tt
          | _ => None
          end
      | _ => None
      end
  end.

(** How many times a trace invokes [save_changes]. *)
Definition saves (t : list obs) : nat := length (omap save_call t).

(** The characters a validated hostname is made of. *)
Definition is_host_char (c : N) : bool :=
  DomainName.is_alnum_hyphen c || (c =? DomainName.dot).

(** A handler shows what the backend answered and removes what is shown. *)
Definition faithful (st : state) (r : list obs * state) : Prop :=
  blockedDomains (snd r) = listed_after (blockedDomains st) (fst r)
  /\ removes_listed (blockedDomains st) (fst r).

(** A validated name, as [add_domain] receives it. *)
Definition clean (host : jsstring) : Prop :=
  Forall (fun c => is_host_char c = true) host
  /\ (exists a, head host = Some a /\ DomainName.is_alnum a = true)
  /\ (exists z, last host = Some z /\ DomainName.is_alnum z = true)
  /\ trim host = host.

End BlockedListTrace.

(** ** Traces of the history view *)

Module HistoryTrace.
Import Effects History HistoryInvariant.

(** The list a trace records as the answer of [get_history_list], when
    the call resolved. *)
Definition history_answer (o : obs) : option (list HistoryEntry) :=
  match o with
  | Obs e x =>
      match e in event X return X -> option (list HistoryEntry) with
      | Invoke c =>
          match c in command R return R + string -> option (list HistoryEntry) with
          | get_history_list =>
              fun r => match r with inl es => Some es | inr _ => None end
          | _ => fun _ => None
          end
      | _ => fun _ => None
      end x
  end.

(** The list the backend answered with last. *)
Definition entries_after (es : list HistoryEntry) (t : list obs)
  : list HistoryEntry :=
  foldl (fun es o => default es (history_answer o)) es t.

(** A destructive invocation names listed snapshots only. *)
Definition targets_in (es : list HistoryEntry) (o : obs) : Prop :=
  match rollback_call o, delete_call o with
  | Some f, _ => f ∈ filenames es
  | None, Some fs => NoDup fs /\ Forall (fun f => f ∈ filenames es) fs
  | None, None => True
  end.

(** Every destructive invocation of a trace names snapshots of the list
    as the backend last answered it before the invocation. *)
Fixpoint targets_listed (es : list HistoryEntry) (t : list obs) : Prop :=
  match t with
  | [] => True
  | o :: t' =>
      targets_in es o /\ targets_listed (default es (history_answer o)) t'
  end.

(** The selection a reload leaves, given the one before it. *)
Definition selection_after_reload (st : state) (es : list HistoryEntry)
  : gset string :=
  if selectAllChecked st
     && negb (bool_decide (filenames es ⊆ filenames (historyEntries st)))
  then ∅
  else selectedEntries st ∩ list_to_set (filenames es).

(** A handler keeps the view in step with the backend: the state stays
    settled, the list shown is the last answer, and what it destroys was
    listed. *)
Definition in_step (st : state) (r : list obs * state) : Prop :=
  settled r.2
  /\ historyEntries r.2 = entries_after (historyEntries st) r.1
  /\ targets_listed (historyEntries st) r.1.

End HistoryTrace.

(** ** File sizes in the history view (History.vue, [formatFileSize]) *)

Module FileSize.

(** The integer [n] for which [n / 10 - x] is as close to zero as
    possible, the larger one when there are two, for [x = num / den]. *)
Definition tenths (num den : Z) : Z := ((20 * num + den) / (2 * den))%Z.

(** [x.toFixed(1)] for a number [x = num / den] that is not negative.
    Below 10^21 it is the decimal with one fraction digit nearest to [x],
    the larger one when two are as near; from 10^21 on it is
    [ToString(x)], the text of the number in exponent notation, which is
    the host's and is taken as a parameter. *)
Definition toFixed1 (ToString : Z -> Z -> string) (num den : Z) : string :=
  if (num <? 10 ^ 21 * den)%Z then
    let n := tenths num den in
    pretty (n / 10)%Z +:+ "." +:+ pretty (n mod 10)%Z
  else ToString num den.

(** [formatFileSize]; a file size is an integral number, and its
    quotients by 1024 and 1024 * 1024 are exact in doubles. *)
Definition formatFileSize (ToString : Z -> Z -> string) (bytes : Z) : string :=
  if (bytes <? 1024)%Z then pretty bytes +:+ " B"
  else if (bytes <? 1024 * 1024)%Z then toFixed1 ToString bytes 1024 +:+ " KB"
  else toFixed1 ToString bytes (1024 * 1024) +:+ " MB".

(** The unit [formatFileSize] picks, and its size in bytes. *)
Definition unit_of (bytes : Z) : Z * string :=
  if (bytes <? 1024)%Z then (1, " B")%Z
  else if (bytes <? 1024 * 1024)%Z then (1024, " KB")%Z
  else (1024 * 1024, " MB")%Z.

End FileSize.

(** ** Sessions of the theme composable (useTheme.ts) *)

Module ThemeSession.
Import Effects UseTheme.

Definition toggleTheme (currentTheme : Theme) : prog Theme :=
  let newTheme := match currentTheme with dark => light | light => dark end in
  setTheme newTheme currentTheme.

(** What the composable returns for its users to call. *)
Inductive call : Type :=
| CallSetTheme (theme : Theme)
| CallToggleTheme
| CallLoadTheme.

Definition perform (c : call) (currentTheme : Theme) : prog Theme :=
  match c with
  | CallSetTheme theme => setTheme theme currentTheme
  | CallToggleTheme => toggleTheme currentTheme
  | CallLoadTheme => loadTheme currentTheme
  end.

Fixpoint session (calls : list call) (currentTheme : Theme) : prog Theme :=
  match calls with
  | [] => mret currentTheme
  | c :: rest => theme ← perform c currentTheme; session rest theme
  end.

(** The value an interaction writes to the [data-theme] attribute. *)
Definition attribute_written (o : obs) : option string :=
  match o with
  | Obs e _ =>
      match e with
      | SetAttribute name value =>
          if String.eqb name "data-theme" then Some value else None
      | _ => None
      end
  end.

(** The [data-theme] attribute of the document after a trace. *)
Definition data_theme (attribute : option string) (t : list obs)
  : option string :=
  foldl (fun a o => match attribute_written o with Some v => Some v | None => a end)
        attribute t.

(** The theme the backend confirms in an interaction: the one a resolved
    [update_config] carried, or the one a resolved [get_config] reported. *)
Definition confirmed (o : obs) : option Theme :=
  match o with
  | Obs e x =>
      match e in event X return X -> option Theme with
      | Invoke c =>
          match c in command R return R + string -> option Theme with
          | update_config patch =>
              fun r => match r with inl _ => cj_theme patch | inr _ => None end
          | get_config =>
              fun r => match r with inl config => Some (theme config) | inr _ => None end
          | _ => fun _ => None
          end
      | _ => fun _ => None
      end x
  end.

(** The theme the backend confirmed last. *)
Definition theme_after (currentTheme : Theme) (t : list obs) : Theme :=
  foldl (fun c o => default c (confirmed o)) currentTheme t.

(** A [get_config] that was rejected. *)
Definition load_failed (o : obs) : bool :=
  match o with
  | Obs e x =>
      match e in event X return X -> bool with
      | Invoke c =>
          match c in command R return R + string -> bool with
          | get_config => fun r => match r with inl _ => false | inr _ => true end
          | _ => fun _ => false
          end
      | _ => fun _ => false
      end x
  end.

End ThemeSession.

(** ** Mounting the settings view (Settings.vue) *)

Module SettingsView.
Import Effects UseTheme Settings.

Definition getDefaultHostPath : prog string :=
  r ← trigger (Invoke get_host_file_path);
  match r with
  | inl path => mret path
  | inr error =>
      trigger (ConsoleError "Failed to get default host path:" error);;
      mret ""
  end.

Definition set_hostFilePath (v : string) (st : state) : state :=
  {| hostFilePath := v; historyDir := historyDir st;
     maxHistoryEntries := maxHistoryEntries st; isLoading := isLoading st;
     isSaving := isSaving st |}.

(** The [onMounted] hook of the component. *)
Definition onMounted (st : state) : prog state :=
  st ← loadSettings st;
  if String.eqb (hostFilePath st) "" then
    path ← getDefaultHostPath;
    mret (set_hostFilePath path st)
  else mret st.

(** The component and the theme it shares with the composable. *)
Record view : Type := { fields : state; currentTheme : Theme }.

(** Mounting runs the hook that [useTheme()] registered, [loadTheme], and
    the component's own; they write to different refs, and are run here
    one after the other. *)
Definition mounted (theme : Theme) : prog view :=
  theme ← loadTheme theme;
  st ← onMounted init;
  mret {| fields := st; currentTheme := theme |}.

(** A click on Save Settings. *)
Definition clickSave (v : view) : prog view :=
  if isSaving (fields v) then mret v
  else
    st ← saveSettings (currentTheme v) (fields v);
    mret {| fields := st; currentTheme := currentTheme v |}.

(** The [configJson] an interaction submits. *)
Definition update_sent (o : obs) : option ConfigJson :=
  match o with
  | Obs e _ =>
      match e with
      | Invoke c =>
          match c with
          | update_config patch => Some patch
          | _ => None
          end
      | _ => None
      end
  end.

Definition updates_sent (t : list obs) : list ConfigJson := omap update_sent t.

(** The path [getDefaultHostPath] gets from a backend. *)
Definition default_path (b : backend) : string :=
  match b _ get_host_file_path with inl path => path | inr _ => "" end.

End SettingsView.

(** ** The blocked-domain view around the privilege check (App.vue) *)

Module AppSession.
Import Effects App BlockedList.

(** An [add_domain] that resolved. *)
Definition add_resolved (o : obs) : option (jsstring * jsstring) :=
  match o with
  | Obs e x =>
      match e in event X return X -> option (jsstring * jsstring) with
      | Invoke c =>
          match c in command R
                return R + string -> option (jsstring * jsstring) with
          | add_domain ip hostname =>
              fun r => match r with inl _ => Some (ip, hostname) | inr _ => None end
          | _ => fun _ => None
          end
      | _ => fun _ => None
      end x
  end.

Definition adds_resolved (t : list obs) : list (jsstring * jsstring) :=
  omap add_resolved t.

(** The state of the view when the privilege check answers: it was
    mounted, and used, while [hasAdminPrivileges] was still null. *)
Definition before_check (actions : list action) : prog state :=
  mounted ≫= session (blockedListDisabled hasAdminPrivileges_init) actions.

(** The remote operations within reach once the view is disabled. *)
Definition within_reach (name : string) : Prop :=
  name = "add_domain" \/ name = "get_blocked_domains" \/ name = "get_statistics".

End AppSession.

(** ** Errors in a trace *)

Module ErrorTrace.
Import Effects.

(** The error a remote operation was rejected with. *)
Definition rejection (o : obs) : option string :=
  match o with
  | Obs e x =>
      match e in event X return X -> option string with
      | Invoke _ => fun r => match r with inl _ => None | inr error => Some error end
      | _ => fun _ => None
      end x
  end.

(** The same, but for the two reads of [loadBlockedDomains]. *)
Definition write_rejection (o : obs) : option string :=
  match o with
  | Obs e x =>
      match e in event X return X -> option string with
      | Invoke c =>
          match c with
          | get_blocked_domains | get_statistics => fun _ => None
          | _ => fun r => match r with inl _ => None | inr error => Some error end
          end
      | _ => fun _ => None
      end x
  end.

(** The description of an error toast that has one. *)
Definition error_described (o : obs) : option string :=
  match o with
  | Obs e _ =>
      match e with
      | ToastError _ (Some description) => Some description
      | _ => None
      end
  end.

(** The error [console.error] logs. *)
Definition error_logged (o : obs) : option string :=
  match o with
  | Obs e _ =>
      match e with
      | ConsoleError _ error => Some error
      | _ => None
      end
  end.

(** Every rejection of a trace is logged and shown, in order, with the
    text of its error, and no other error is shown. *)
Definition all_shown (t : list obs) : Prop :=
  omap error_logged t = omap rejection t
  /\ omap error_described t = omap rejection t
  /\ length (toasts_error t) = length (omap rejection t).

(** Every rejection of a trace is logged, and every one but those of the
    two reads is shown, with the text of its error. *)
Definition writes_shown (t : list obs) : Prop :=
  omap error_logged t = omap rejection t
  /\ omap error_described t = omap write_rejection t.

End ErrorTrace.

(** * Properties *)

Module RegexFacts.
Import Regex.

Lemma nullable_matches r : nullable r = true -> matches r [].
Proof.
  induction r; simpl; intros H; try discriminate.
  - constructor.
  - apply andb_prop in H as [H1 H2].
    change (@nil N) with (@nil N ++ []). constructor; auto.
  - apply orb_prop in H as [H|H]; [apply m_alt_l | apply m_alt_r]; auto.
  - constructor.
  - constructor.
Qed.

Lemma matches_nullable r : matches r [] -> nullable r = true.
Proof.
  intros H. remember [] as s eqn:Hs.
  induction H; simpl; try reflexivity; try discriminate.
  - apply app_eq_nil in Hs as [-> ->]. rewrite IHmatches1, IHmatches2; auto.
  - rewrite IHmatches; auto.
  - rewrite IHmatches; auto. apply orb_true_r.
Qed.

Lemma derive_sound c r s : matches (derive c r) s -> matches r (c :: s).
Proof.
  revert s. induction r; simpl; intros s H.
  - inversion H.
  - inversion H.
  - destruct (in_class c ranges) eqn:E; inversion H; subst. by constructor.
  - destruct (nullable r1) eqn:E.
    + inversion H; subst.
      * inversion H3; subst.
        change (c :: s1 ++ s2) with ((c :: s1) ++ s2). constructor; auto.
      * change (c :: s) with ([] ++ c :: s). constructor; auto.
        by apply nullable_matches.
    + inversion H; subst.
      change (c :: s1 ++ s2) with ((c :: s1) ++ s2). constructor; auto.
  - inversion H; subst; [apply m_alt_l | apply m_alt_r]; auto.
  - inversion H; subst.
    change (c :: s1 ++ s2) with ((c :: s1) ++ s2). constructor; auto.
  - destruct n; inversion H; subst.
    change (c :: s1 ++ s2) with ((c :: s1) ++ s2). constructor; auto.
Qed.

Lemma star_cons_inv r c s :
  matches (Star r) (c :: s) ->
  exists s1 s2, s = s1 ++ s2 /\ matches r (c :: s1) /\ matches (Star r) s2.
Proof.
  intros H. remember (Star r) as r' eqn:Hr. remember (c :: s) as t eqn:Ht.
  revert s Ht.
  induction H; intros s' Ht; try discriminate.
  injection Hr as ->.
  destruct s1 as [|c1 s1]; simpl in Ht.
  - apply IHmatches2; auto.
  - injection Ht as -> <-. eauto.
Qed.

Lemma repeat_cons_inv n r c s :
  matches (Repeat n r) (c :: s) ->
  exists n' s1 s2, n = S n' /\ s = s1 ++ s2 /\ matches r (c :: s1)
                   /\ matches (Repeat n' r) s2.
Proof.
  intros H. remember (Repeat n r) as r' eqn:Hr. remember (c :: s) as t eqn:Ht.
  revert n s Hr Ht.
  induction H; intros m s' Hr Ht; try discriminate.
  injection Hr as <- ->.
  destruct s1 as [|c1 s1]; simpl in Ht.
  - destruct (IHmatches2 n s' eq_refl Ht) as (n' & t1 & t2 & -> & -> & H1 & H2).
    exists (S n'), t1, t2. repeat split; auto.
    change t2 with ([] ++ t2). constructor; auto.
  - injection Ht as -> <-. exists n, s1, s2. auto.
Qed.

Lemma cat_cons_inv r1 r2 c s :
  matches (Cat r1 r2) (c :: s) ->
  (matches r1 [] /\ matches r2 (c :: s))
  \/ exists s1 s2, s = s1 ++ s2 /\ matches r1 (c :: s1) /\ matches r2 s2.
Proof.
  intros H. inversion H as [| |q1 q2 s1 s2 H1 H2 Hq Hs| | | | | |]; subst.
  destruct s1 as [|c1 s1]; simpl in Hs.
  - left. subst s2. auto.
  - right. injection Hs as -> <-. eauto.
Qed.

Lemma derive_complete c r s : matches r (c :: s) -> matches (derive c r) s.
Proof.
  revert s. induction r; simpl; intros s H.
  - inversion H.
  - inversion H.
  - inversion H as [|c' rs' Hin| | | | | | |]; subst. rewrite Hin. constructor.
  - apply cat_cons_inv in H as [[H1 H2]|(s1 & s2 & -> & H1 & H2)].
    + rewrite (matches_nullable _ H1). apply m_alt_r. auto.
    + destruct (nullable r1); [apply m_alt_l|]; constructor; auto.
  - inversion H; subst; [apply m_alt_l | apply m_alt_r]; auto.
  - apply star_cons_inv in H as (s1 & s2 & -> & H1 & H2). constructor; auto.
  - apply repeat_cons_inv in H as (n' & s1 & s2 & -> & -> & H1 & H2).
    constructor; auto.
Qed.

Lemma test_matches r s : test r s = true <-> matches r s.
Proof.
  unfold test. revert r. induction s as [|c s IH]; intros r; simpl.
  - split; [apply nullable_matches | apply matches_nullable].
  - rewrite IH. split; [apply derive_sound | apply derive_complete].
Qed.

End RegexFacts.

Module DomainNameFacts.
Import Regex RegexFacts DomainName.

Lemma in_class_alnum c : in_class c alnum = is_alnum c.
Proof. unfold in_class, alnum, is_alnum. simpl. by rewrite orb_false_r, !orb_assoc. Qed.

Lemma in_class_alnum_hyphen c : in_class c alnum_hyphen = is_alnum_hyphen c.
Proof.
  unfold in_class, alnum_hyphen, is_alnum_hyphen, is_alnum, hyphen. simpl.
  rewrite orb_false_r, !orb_assoc. f_equal.
  destruct (N.eqb_spec c 45) as [->|Hne]; [reflexivity|].
  apply andb_false_iff. rewrite !N.leb_gt. lia.
Qed.

Lemma in_class_dot c : in_class c [(dot, dot)] = true <-> c = dot.
Proof.
  unfold in_class, dot. simpl. rewrite orb_false_r, andb_true_iff, !N.leb_le. lia.
Qed.

Lemma is_alnum_hyphen_or c :
  is_alnum_hyphen c = true -> c <> hyphen -> is_alnum c = true.
Proof.
  unfold is_alnum_hyphen. intros H Hne. apply orb_prop in H as [H|H]; [done|].
  apply N.eqb_eq in H. contradiction.
Qed.

Lemma is_alnum_not_hyphen c : is_alnum c = true -> c <> hyphen.
Proof. unfold is_alnum, hyphen. intros H ->. vm_compute in H. discriminate. Qed.

Lemma is_alnum_hyphen_not_dot c : is_alnum_hyphen c = true -> c <> dot.
Proof. unfold dot. intros H ->. vm_compute in H. discriminate. Qed.

Lemma is_alnum_is_alnum_hyphen c : is_alnum c = true -> is_alnum_hyphen c = true.
Proof. unfold is_alnum_hyphen. by intros ->. Qed.

Lemma matches_class_inv rs s :
  matches (Class rs) s -> exists c, s = [c] /\ in_class c rs = true.
Proof. intros H. inversion H; subst. eauto. Qed.

Lemma matches_repeat_class n rs s :
  matches (Repeat n (Class rs)) s <->
  (length s <= n)%nat /\ Forall (fun c => in_class c rs = true) s.
Proof.
  split.
  - intros H. remember (Repeat n (Class rs)) as r eqn:Hr. revert n Hr.
    induction H; intros m Hr; try discriminate.
    + split; [simpl; lia | constructor].
    + injection Hr as <- ->.
      apply matches_class_inv in H as (c & -> & Hc).
      destruct (IHmatches2 n eq_refl) as [Hlen Hall].
      split; [simpl; lia | by constructor].
  - revert n. induction s as [|c s IH]; intros n [Hlen Hall].
    + constructor.
    + destruct n as [|n]; [simpl in Hlen; lia|].
      apply Forall_cons in Hall as [Hc Hall].
      change (c :: s) with ([c] ++ s). constructor.
      * by constructor.
      * apply IH. split; [simpl in Hlen; lia | done].
Qed.

Lemma matches_label_re l : matches label_re l <-> label_ok l.
Proof.
  unfold label_re, Opt, label_ok. split.
  - intros H. inversion H as [| |q1 q2 s1 s2 H1 H2| | | | | |]; subst.
    apply matches_class_inv in H1 as (c & -> & Hc). rewrite in_class_alnum in Hc.
    inversion H2 as [| | |q1 q2 s H3|q1 q2 s H3| | | |]; subst.
    + inversion H3 as [| |q1 q2 mid t Hm Ht| | | | | |]; subst.
      apply matches_class_inv in Ht as (d & -> & Hd). rewrite in_class_alnum in Hd.
      apply matches_repeat_class in Hm as [Hlen Hall].
      split; [|split; [|split]].
      * simpl. rewrite length_app. simpl. lia.
      * constructor; [by apply is_alnum_is_alnum_hyphen|].
        apply Forall_app. split.
        -- eapply Forall_impl; [exact Hall|]. intros x Hx.
           cbv beta in Hx. by rewrite in_class_alnum_hyphen in Hx.
        -- constructor; [by apply is_alnum_is_alnum_hyphen | constructor].
      * simpl. intros [= ->]. by eapply is_alnum_not_hyphen.
      * rewrite app_assoc, last_snoc.
        intros [= ->]. by eapply is_alnum_not_hyphen.
    + inversion H3; subst. simpl. split; [lia|]. split; [|split].
      * constructor; [by apply is_alnum_is_alnum_hyphen | constructor].
      * intros [= ->]. by eapply is_alnum_not_hyphen.
      * intros [= ->]. by eapply is_alnum_not_hyphen.
  - intros ([Hlo Hhi] & Hall & Hhd & Hlast).
    destruct l as [|c rest]; [simpl in Hlo; lia|].
    apply Forall_cons in Hall as [Hc Hall].
    assert (Hca : is_alnum c = true).
    { apply is_alnum_hyphen_or; [done|]. intros ->. by apply Hhd. }
    change (c :: rest) with ([c] ++ rest). constructor.
    { constructor. by rewrite in_class_alnum. }
    destruct (decide (rest = [])) as [->|Hne].
    { apply m_alt_r. constructor. }
    destruct (exists_last Hne) as (mid & d & ->).
    apply Forall_app in Hall as [Hmid Hd]. apply Forall_cons in Hd as [Hd _].
    change (c :: mid ++ [d]) with ((c :: mid) ++ [d]) in Hlast, Hhi.
    rewrite last_snoc in Hlast. rewrite length_app in Hhi. simpl in Hhi.
    apply m_alt_l. constructor.
    + apply matches_repeat_class. split; [lia|].
      eapply Forall_impl; [exact Hmid|]. intros x Hx.
      cbv beta. by rewrite in_class_alnum_hyphen.
    + constructor. rewrite in_class_alnum. apply is_alnum_hyphen_or; [done|].
      intros ->. by apply Hlast.
Qed.

Lemma label_ok_no_dot l : label_ok l -> Forall (fun c => c <> dot) l.
Proof.
  intros (_ & Hall & _). eapply Forall_impl; [exact Hall|].
  intros c. apply is_alnum_hyphen_not_dot.
Qed.

Lemma split_on_no_sep sep l :
  Forall (fun c => c <> sep) l -> split_on sep l = [l].
Proof.
  induction 1 as [|c l Hc Hl IH]; [reflexivity|]. simpl.
  destruct (N.eqb_spec c sep); [contradiction|]. by rewrite IH.
Qed.

Lemma split_on_app sep l t :
  Forall (fun c => c <> sep) l ->
  split_on sep (l ++ sep :: t) = l :: split_on sep t.
Proof.
  induction 1 as [|c l Hc Hl IH]; simpl.
  - by rewrite N.eqb_refl.
  - destruct (N.eqb_spec c sep); [contradiction|]. by rewrite IH.
Qed.

Lemma split_on_inv sep t l ls :
  split_on sep t = l :: ls ->
  Forall (fun c => c <> sep) l
  /\ ((ls = [] /\ t = l) \/ exists t', t = l ++ sep :: t' /\ split_on sep t' = ls).
Proof.
  revert l ls. induction t as [|c t IH]; intros l ls; simpl.
  - intros [= <- <-]. split; [constructor | left; done].
  - destruct (N.eqb_spec c sep) as [->|Hne].
    + intros [= <- <-]. split; [constructor | right; by exists t].
    + destruct (split_on sep t) as [|l0 ls0] eqn:E.
      * intros [= <- <-]. split; [by repeat constructor|left; split; [done|]].
        destruct t; simpl in E; [discriminate|].
        destruct (_ =? _); [discriminate|]. destruct (split_on sep t); discriminate.
      * intros [= <- <-]. destruct (IH l0 ls0 eq_refl) as [Hl0 Hcase].
        split; [by constructor|].
        destruct Hcase as [[-> ->]|(t' & -> & Ht')]; [left; done|].
        right. by exists t'.
Qed.

Lemma matches_dot_labels t :
  matches (Star dot_label) t ->
  t = [] \/ exists t', t = dot :: t' /\ Forall label_ok (split_on dot t').
Proof.
  intros H. remember (Star dot_label) as r eqn:Hr.
  induction H; try discriminate; [by left|].
  injection Hr as ->. right.
  inversion H as [| |q1 q2 d l Hd Hl| | | | | |]; subst.
  apply matches_class_inv in Hd as (c & -> & Hc). apply in_class_dot in Hc as ->.
  apply matches_label_re in Hl.
  destruct (IHmatches2 eq_refl) as [->|(t' & -> & Ht')].
  - exists l. rewrite app_nil_r. split; [done|].
    rewrite split_on_no_sep by by apply label_ok_no_dot. by constructor.
  - exists (l ++ dot :: t'). split; [done|].
    rewrite split_on_app by by apply label_ok_no_dot. by constructor.
Qed.

Lemma labels_matches ls : forall t l,
  split_on dot t = l :: ls -> Forall label_ok (l :: ls) ->
  exists rest, t = l ++ rest /\ matches (Star dot_label) rest.
Proof.
  induction ls as [|l' ls IH]; intros t l Hsplit Hok.
  - apply split_on_inv in Hsplit as [_ [[_ ->]|(t' & -> & Ht')]].
    + exists []. rewrite app_nil_r. split; [done | constructor].
    + destruct t'; simpl in Ht'; [discriminate|].
      destruct (_ =? _); [discriminate|]. destruct (split_on dot t'); discriminate.
  - apply split_on_inv in Hsplit as [_ [[? _]|(t' & -> & Ht')]]; [discriminate|].
    apply Forall_cons in Hok as [Hl Hok].
    destruct (IH t' l' Ht' Hok) as (rest & -> & Hrest).
    exists ((dot :: l') ++ rest). split; [done|].
    constructor; [|done].
    change (dot :: l') with ([dot] ++ l'). constructor.
    + constructor. by apply in_class_dot.
    + apply matches_label_re. by apply Forall_cons in Hok as [? _].
Qed.

(** The pattern of [addDomain] accepts exactly the well-formed names. *)
Lemma test_domain_re s : test domain_re s = true <-> well_formed s.
Proof.
  rewrite test_matches. unfold well_formed. split.
  - intros H. inversion H as [| |q1 q2 l t Hl Ht| | | | | |]; subst.
    apply matches_label_re in Hl. fold dot_label in Ht.
    apply matches_dot_labels in Ht as [->|(t' & -> & Ht')].
    + rewrite app_nil_r, split_on_no_sep by by apply label_ok_no_dot.
      by constructor.
    + rewrite split_on_app by by apply label_ok_no_dot. by constructor.
  - intros Hok. destruct (split_on dot s) as [|l ls] eqn:E.
    { destruct s; simpl in E; [discriminate|].
      destruct (_ =? _); [discriminate|]. destruct (split_on dot s); discriminate. }
    destruct (labels_matches ls s l E Hok) as (rest & -> & Hrest).
    constructor; [|done]. apply matches_label_re. by apply Forall_cons in Hok as [? _].
Qed.

End DomainNameFacts.

Module EffectsFacts.
Import Effects.

(** Unfold the monad operations and compute the run of a handler. *)
Ltac norm :=
  simpl in *; unfold mbind, prog_bind, mret, prog_ret, trigger in *; simpl in *.

Lemma run_bind {A B} (w : env) (h : list obs) (p : prog A) (f : A -> prog B) :
  run w h (p ≫= f) =
  let r1 := run w h p in
  let r2 := run w (rev (fst r1) ++ h) (f (snd r1)) in
  (fst r1 ++ fst r2, snd r2).
Proof.
  unfold mbind, prog_bind. revert h.
  induction p as [a|X e k IH]; intros h; simpl.
  - by destruct (run w h (f a)).
  - rewrite IH. simpl. by rewrite <- app_assoc.
Qed.

Lemma run_bind_raw {A B} (w : env) (h : list obs) (p : prog A) (f : A -> prog B) :
  run w h (bind p f) =
  let r1 := run w h p in
  let r2 := run w (rev (fst r1) ++ h) (f (snd r1)) in
  (fst r1 ++ fst r2, snd r2).
Proof. apply (run_bind w h p f). Qed.

Lemma add_domain_calls_app t1 t2 :
  add_domain_calls (t1 ++ t2) = add_domain_calls t1 ++ add_domain_calls t2.
Proof. apply omap_app. Qed.

End EffectsFacts.

Module BlockedListFacts.
Import Effects EffectsFacts BlockedList.

Ltac crunch :=
  norm;
  repeat (match goal with
          | |- context [match ?w ?X ?h (@Invoke ?R ?c) with _ => _ end] =>
              destruct (w X h (@Invoke R c))
          end; norm).

Ltac forall_list :=
  repeat (apply List.Forall_cons; [by auto|]); apply List.Forall_nil.

Lemma well_formed_accepted d :
  DomainName.well_formed d <-> accepted d = true.
Proof.
  unfold accepted. rewrite <- DomainNameFacts.test_domain_re.
  rewrite andb_true_iff, negb_true_iff, bool_decide_eq_false.
  split; [|tauto]. intros H. split; [|done]. intros ->. discriminate.
Qed.

Lemma addDomain_calls w h st :
  add_domain_calls (fst (run w h (addDomain st))) =
  if accepted (trim (newDomain st)) then [(block_ip, trim (newDomain st))] else [].
Proof.
  unfold addDomain, accepted.
  destruct (bool_decide _); simpl; [done|].
  destruct (Regex.test _ _); simpl; [|done].
  crunch; reflexivity.
Qed.

Lemma loadBlockedDomains_calls w h st :
  add_domain_calls (fst (run w h (loadBlockedDomains st))) = [].
Proof. unfold loadBlockedDomains. crunch; reflexivity. Qed.

Lemma removeDomain_calls w h i n st :
  add_domain_calls (fst (run w h (removeDomain i n st))) = [].
Proof. unfold removeDomain. crunch; reflexivity. Qed.

Lemma saveChanges_calls w h st :
  add_domain_calls (fst (run w h (saveChanges st))) = [].
Proof. unfold saveChanges. crunch; reflexivity. Qed.

Lemma dispatch_calls w h disabled a st :
  Forall (fun c => fst c = block_ip)
         (add_domain_calls (fst (run w h (dispatch disabled a st)))).
Proof.
  assert (Hadd : forall h st,
    Forall (fun c => fst c = block_ip)
           (add_domain_calls (fst (run w h (addDomain st))))).
  { intros h' st'. rewrite addDomain_calls. destruct (accepted _); forall_list. }
  destruct a; simpl.
  - destruct (_ && _); simpl; forall_list.
  - destruct (negb _); [rewrite saveChanges_calls|simpl]; forall_list.
  - destruct (_ && _); simpl; forall_list.
  - destruct (_ && _); [|simpl; forall_list].
    unfold handleAddKeydown. destruct (String.eqb key "Enter"); [apply Hadd|].
    destruct (String.eqb key "Escape"); simpl; forall_list.
  - destruct (_ && _); [apply Hadd | simpl; forall_list].
  - destruct (showAddInput st); simpl; forall_list.
  - destruct (isLoading st); [simpl; forall_list|].
    destruct (blockedDomains st !! index); [|simpl; forall_list].
    destruct disabled; [simpl; forall_list|].
    cbv [DomainItem.handleRemove DomainItem.disabled DomainItem.ip
         DomainItem.hostname negb].
    rewrite removeDomain_calls. forall_list.
Qed.

Lemma session_calls w disabled actions : forall h st,
  Forall (fun c => fst c = block_ip)
         (add_domain_calls (fst (run w h (session disabled actions st)))).
Proof.
  induction actions as [|a rest IH]; intros h st; simpl.
  - forall_list.
  - rewrite run_bind. simpl. rewrite add_domain_calls_app.
    apply Forall_app. split; [apply dispatch_calls | apply IH].
Qed.

(** C5. A malformed domain name is rejected before any store mutation:
    when the trimmed input is empty or is not a sequence of dot-separated
    labels of 1 to 63 alphanumeric-or-hyphen characters that neither
    start nor end with a hyphen, [addDomain] invokes no remote operation
    (in particular not [add_domain]), raises exactly one error toast and
    leaves the component state as it was. *)
Theorem addDomain_rejects_malformed (w : env) (h : list obs) (st : state) :
  trim (newDomain st) = [] \/ ~ DomainName.well_formed (trim (newDomain st)) ->
  invocations (fst (run w h (addDomain st))) = []
  /\ toasts_error (fst (run w h (addDomain st))) =
     [if bool_decide (trim (newDomain st) = [])
      then "Please enter a domain name"
      else "Please enter a valid domain name"]
  /\ toasts_success (fst (run w h (addDomain st))) = []
  /\ snd (run w h (addDomain st)) = st.
Proof.
  intros Hbad. unfold addDomain.
  destruct (bool_decide (trim (newDomain st) = [])) eqn:Hempty; simpl; [done|].
  destruct (Regex.test DomainName.domain_re (trim (newDomain st))) eqn:Htest;
    simpl; [|done].
  exfalso. destruct Hbad as [Hnil|Hnot].
  - apply bool_decide_eq_false in Hempty. contradiction.
  - apply Hnot. by apply DomainNameFacts.test_domain_re.
Qed.

Definition malformed_input : state := set_newDomain (js "  -ads-.example.com ") init.

Lemma addDomain_rejects_malformed_witness :
  invocations (fst (run (env_of resolving true) [] (addDomain malformed_input))) = []
  /\ toasts_error (fst (run (env_of resolving true) [] (addDomain malformed_input)))
     = ["Please enter a valid domain name"].
Proof.
  destruct (addDomain_rejects_malformed (env_of resolving true) [] malformed_input)
    as (H1 & H2 & _).
  - right. intros Hwf. apply DomainNameFacts.test_domain_re in Hwf.
    vm_compute in Hwf. discriminate.
  - split; [exact H1 | exact H2].
Defined.

(** C8. Every domain added through the UI is mapped to the loopback
    address: for a validated (well-formed after trimming) input,
    [addDomain] invokes [add_domain] exactly once, with ip ["127.0.0.1"] and
    the trimmed input as hostname; and whatever the user does in the
    component, no [add_domain] call carries another ip. *)
Theorem addDomain_blocks_on_loopback (w : env) (h : list obs) (st : state) :
  (DomainName.well_formed (trim (newDomain st)) ->
   add_domain_calls (fst (run w h (addDomain st)))
   = [(js "127.0.0.1", trim (newDomain st))])
  /\ (forall disabled actions,
        Forall (fun c => fst c = js "127.0.0.1")
          (add_domain_calls (fst (run w h (session disabled actions st))))).
Proof.
  split.
  - intros Hwf. apply well_formed_accepted in Hwf.
    rewrite addDomain_calls, Hwf. reflexivity.
  - intros disabled actions. apply session_calls.
Qed.

Definition padded_input : state := set_newDomain (js " ads.example.com  ") init.

Lemma addDomain_blocks_on_loopback_witness :
  add_domain_calls (fst (run (env_of resolving true) [] (addDomain padded_input)))
  = [(js "127.0.0.1", js "ads.example.com")].
Proof.
  destruct (addDomain_blocks_on_loopback (env_of resolving true) [] padded_input)
    as [H _].
  rewrite H; [reflexivity|].
  apply DomainNameFacts.test_domain_re. vm_compute. reflexivity.
Defined.

(** *** Privileges *)

(** A backend on which [check_admin_privileges] answers [false]. *)
Definition no_privileges : backend :=
  fun R c =>
    match c in command R return R + string with
    | check_admin_privileges => inl false
    | c' => inl (default_result c')
    end.

(** The component with one blocked domain listed. *)
Definition listed : state :=
  set_blockedDomains
    [{| ip := js "127.0.0.1"; hostname := js "ads.example.com" |}] init.

Lemma dispatch_disabled w h a st :
  showAddInput st = false ->
  run w h (dispatch true a st) = ([], st).
Proof.
  intros Hclosed. destruct a; simpl; rewrite ?Hclosed; simpl; try reflexivity.
  - by rewrite orb_true_r.
  - destruct (isLoading st); [reflexivity|].
    by destruct (blockedDomains st !! index).
Qed.

(** C1, counterexample.  In a session in which [check_admin_privileges]
    answered [false], a click on Remove of a listed domain invokes nothing, and neither does
    the attempt to add a domain: the mutate-in-memory operations are not
    available. *)
Lemma privileges_absent_remove_unavailable :
  let w := env_of no_privileges true in
  let disabled := App.blockedListDisabled (snd (run w [] App.checkPrivileges)) in
  disabled = true
  /\ App.warningShown (snd (run w [] App.checkPrivileges)) true = true
  /\ run w [] (dispatch disabled (ClickRemove 0) listed) = ([], listed)
  /\ run w [] (session disabled
                 [ClickAddDomain; InputNewDomain (js "ads.example.org"); ClickAdd;
                  KeydownNewDomain "Enter"]
                 listed) = ([], listed).
Proof. vm_compute. repeat split. Qed.

(** Until the check has answered, nothing is disabled; with privileges,
    Remove reaches the backend. *)
Example privileges_present_remove_available :
  App.blockedListDisabled App.hasAdminPrivileges_init = false
  /\ invocations
       (fst (run (env_of resolving true) []
               (dispatch (App.blockedListDisabled (Some true)) (ClickRemove 0)
                         listed)))
     = ["remove_domain"; "get_blocked_domains"; "get_statistics"].
Proof. vm_compute. split; reflexivity. Qed.

(** C1 (amended). When [check_admin_privileges] answered [false] the
    blocked-domain view is read-only: loading still invokes
    [get_blocked_domains] and, once that resolved, [get_statistics]; but
    with the add input closed (its initial state) no sequence of user
    actions invokes any remote operation or changes the component: Add
    Domain, Add, Remove and Save Changes are all disabled. *)
Theorem privileges_absent_read_only (w : env) (h : list obs)
    (actions : list action) (st : state) :
  showAddInput st = false ->
  run w h (session (App.blockedListDisabled (Some false)) actions st) = ([], st)
  /\ invocations (fst (run w h mounted))
     = match w _ h (Invoke get_blocked_domains) with
       | inl _ => ["get_blocked_domains"; "get_statistics"]
       | inr _ => ["get_blocked_domains"]
       end.
Proof.
  intros Hclosed. split.
  - change (App.blockedListDisabled (Some false)) with true.
    revert h. induction actions as [|a rest IH]; intros h; [reflexivity|].
    simpl. rewrite run_bind, dispatch_disabled by done. simpl.
    by rewrite IH.
  - unfold mounted, loadBlockedDomains. norm.
    destruct (w _ h (Invoke get_blocked_domains)); norm; [|reflexivity].
    match goal with
    | |- context [match ?w ?X ?h (@Invoke ?R ?c) with _ => _ end] =>
        destruct (w X h (@Invoke R c))
    end; reflexivity.
Qed.

Lemma privileges_absent_read_only_witness :
  run (env_of resolving true) []
      (session (App.blockedListDisabled (Some false))
               [ClickRemove 0; ClickSaveChanges; ClickAddDomain] listed)
  = ([], listed).
Proof.
  apply (privileges_absent_read_only (env_of resolving true) []
           [ClickRemove 0; ClickSaveChanges; ClickAddDomain] listed).
  reflexivity.
Defined.

End BlockedListFacts.

Module HistoryFacts.
Import Effects EffectsFacts History HistoryInvariant.

Lemma elem_of_checked_keys (m : gmap string bool) k :
  k ∈ checked_keys m <-> m !! k = Some true.
Proof.
  unfold checked_keys. rewrite elem_of_dom. split.
  - intros [b Hb]. apply map_lookup_filter_Some in Hb as [Hb Ht]. simpl in Ht. by subst.
  - intros H. exists true. apply map_lookup_filter_Some. done.
Qed.

Lemma checked_keys_subseteq (m : gmap string bool) : checked_keys m ⊆ dom m.
Proof.
  intros k Hk. apply elem_of_checked_keys in Hk. apply elem_of_dom. eauto.
Qed.

Lemma size_checked_keys (m : gmap string bool) (fs : list string) :
  NoDup fs -> dom m = list_to_set fs ->
  size (checked_keys m) = length fs <-> (forall f, f ∈ fs -> m !! f = Some true).
Proof.
  intros Hnd Hdom.
  assert (Hsz : size (dom m) = length fs).
  { rewrite Hdom. by apply size_list_to_set. }
  split.
  - intros Heq f Hf.
    assert (Hsub : checked_keys m ≡ dom m).
    { apply set_subseteq_size_equiv; [apply checked_keys_subseteq|]. lia. }
    apply elem_of_checked_keys. apply Hsub. rewrite Hdom. by apply elem_of_list_to_set.
  - intros Hall. rewrite <- Hsz. f_equal. apply set_eq. intros k. split.
    + apply checked_keys_subseteq.
    + intros Hk. apply elem_of_checked_keys. apply Hall.
      rewrite Hdom in Hk. by apply elem_of_list_to_set in Hk.
Qed.

Lemma frame_refl st : frame st st.
Proof. by repeat split. Qed.

Lemma frame_trans st1 st2 st3 : frame st1 st2 -> frame st2 st3 -> frame st1 st3.
Proof. unfold frame. intros (?&?&?&?) (?&?&?&?). repeat split; congruence. Qed.

Lemma enqueue_idem j q : enqueue j (enqueue j q) = enqueue j q.
Proof.
  unfold enqueue. destruct (bool_decide (j ∈ q)) eqn:E.
  - by rewrite E.
  - rewrite bool_decide_eq_true_2; [done|]. apply elem_of_app. right. by apply list_elem_of_singleton.
Qed.

Lemma queued_refl j st : queued j st st.
Proof. by left. Qed.

Lemma queued_trans j st1 st2 st3 :
  queued j st1 st2 -> queued j st2 st3 -> queued j st1 st3.
Proof.
  unfold queued. intros [H1|H1] [H2|H2]; rewrite H2, H1, ?enqueue_idem; auto.
Qed.

Lemma not_proto_neq k : k ∉ object_prototype_keys -> String.eqb k "__proto__" = false.
Proof.
  intros Hk. apply String.eqb_neq. intros ->. apply Hk. unfold object_prototype_keys.
  repeat first [apply list_elem_of_here | apply list_elem_of_further].
Qed.

Lemma write_checked_spec k v st :
  k ∉ object_prototype_keys ->
  entryCheckedStates (write_checked k v st) = <[k:=v]> (entryCheckedStates st)
  /\ frame st (write_checked k v st)
  /\ queued JobStates st (write_checked k v st).
Proof.
  intros Hk. unfold write_checked. rewrite (not_proto_neq k Hk).
  case_bool_decide as Hv.
  - split; [by rewrite insert_id | split; [apply frame_refl | by left]].
  - split; [done | split; [by repeat split | by right]].
Qed.

Lemma delete_checked_spec k st :
  entryCheckedStates (delete_checked k st) = delete k (entryCheckedStates st)
  /\ frame st (delete_checked k st)
  /\ queued JobStates st (delete_checked k st).
Proof.
  unfold delete_checked. case_bool_decide as Hv.
  - split; [done | split; [by repeat split | by right]].
  - split; [|split; [apply frame_refl | by left]].
    symmetry. apply delete_id. by apply eq_None_not_Some.
Qed.

Lemma check_all_spec v es : forall st,
  Forall (fun f => f ∉ object_prototype_keys) (filenames es) ->
  let st' := foldl (fun st entry => write_checked (filename entry) v st) st es in
  (forall k, entryCheckedStates st' !! k =
             if bool_decide (k ∈ filenames es) then Some v
             else entryCheckedStates st !! k)
  /\ frame st st' /\ queued JobStates st st'.
Proof.
  induction es as [|e es IH]; intros st Hes; simpl.
  - split; [done | split; [apply frame_refl | apply queued_refl]].
  - apply Forall_cons in Hes as [He Hes].
    destruct (write_checked_spec (filename e) v st He) as (Hs & Hf & Hq).
    destruct (IH (write_checked (filename e) v st) Hes) as (Hs' & Hf' & Hq').
    split; [|split; [by eapply frame_trans | by eapply queued_trans]].
    intros k. rewrite Hs', Hs.
    destruct (decide (k = filename e)) as [->|Hne].
    + rewrite lookup_insert_eq.
      rewrite (bool_decide_eq_true_2 (filename e ∈ filename e :: filenames es))
        by apply list_elem_of_here.
      by case_bool_decide.
    + rewrite lookup_insert_ne by done.
      case_bool_decide as H1; case_bool_decide as H2; try done.
      * exfalso. apply H2. by apply list_elem_of_further.
      * exfalso. apply elem_of_cons in H2 as [?|?]; done.
Qed.

Lemma updateSelectedEntries_spec st :
  let st' := updateSelectedEntries st in
  historyEntries st' = historyEntries st
  /\ entryCheckedStates st' = entryCheckedStates st
  /\ seenSelectAll st' = seenSelectAll st
  /\ selectedEntries st' = checked_keys (entryCheckedStates st)
  /\ selectAllChecked st' = all_flag st
  /\ ((selectAllChecked st = all_flag st /\ pending st' = pending st)
      \/ (selectAllChecked st <> all_flag st
          /\ pending st' = enqueue JobSelectAll (pending st))).
Proof.
  unfold updateSelectedEntries, write_selectAllChecked, all_flag. simpl.
  case_bool_decide as Hv; simpl.
  - repeat split; auto.
  - repeat split; auto.
Qed.

Lemma elem_of_enqueue j' j q : j' ∈ enqueue j q <-> j' = j \/ j' ∈ q.
Proof.
  unfold enqueue. case_bool_decide as H.
  - split; [by right|]. intros [->|?]; done.
  - rewrite elem_of_app, list_elem_of_singleton. tauto.
Qed.

Lemma length_enqueue j q : (length (enqueue j q) <= length q + 1)%nat.
Proof.
  unfold enqueue. case_bool_decide; [lia|]. rewrite length_app. simpl. lia.
Qed.

Lemma queued_grows j st st' : j <> JobHistory -> queued j st st' -> grows 1 st st'.
Proof.
  intros Hj [H|H]; unfold grows; rewrite H.
  - split; [lia|]. split; auto.
  - split; [apply length_enqueue|]. split.
    + intros j' Hj'. apply elem_of_enqueue. by right.
    + intros Hh. apply elem_of_enqueue in Hh as [?|?]; [congruence|done].
Qed.

Lemma grows_trans n m st1 st2 st3 :
  grows n st1 st2 -> grows m st2 st3 -> grows (n + m) st1 st3.
Proof.
  intros (H1 & H2 & H3) (H1' & H2' & H3'). split; [lia|]. split; auto.
Qed.

Lemma all_flag_true st :
  keys_match st ->
  all_flag st = true <->
  historyEntries st <> []
  /\ forall f, f ∈ filenames (historyEntries st) ->
               entryCheckedStates st !! f = Some true.
Proof.
  intros [[Hnd _] Hdom]. unfold all_flag.
  rewrite andb_true_iff, Nat.ltb_lt, Nat.eqb_eq.
  rewrite <- (length_fmap filename (historyEntries st)) at 2.
  fold (filenames (historyEntries st)).
  rewrite (size_checked_keys _ _ Hnd Hdom).
  destruct (historyEntries st); simpl; split; intros [? ?]; split; auto; try lia; done.
Qed.

Lemma watch_selectAllChecked_spec v st :
  keys_match st ->
  let st' := watch_selectAllChecked v st in
  keys_match st' /\ derived st'
  /\ historyEntries st' = historyEntries st
  /\ seenSelectAll st' = seenSelectAll st
  /\ (forall k, entryCheckedStates st' !! k
                = (fun _ => v) <$> entryCheckedStates st !! k)
  /\ selectAllChecked st' = v && negb (bool_decide (historyEntries st = []))
  /\ grows 2 st st'
  /\ (selectAllChecked st' <> selectAllChecked st -> JobSelectAll ∈ pending st').
Proof.
  intros HK. destruct HK as [[Hnd Hproto] Hdom]. unfold watch_selectAllChecked.
  destruct (check_all_spec v (historyEntries st) st Hproto) as (Hs & Hf & Hq).
  set (st1 := foldl _ st (historyEntries st)) in *.
  destruct Hf as (He1 & Hsel1 & Hall1 & Hseen1).
  destruct (updateSelectedEntries_spec st1) as (He2 & Hs2 & Hseen2 & Hsel2 & Hall2 & Hp2).
  set (st2 := updateSelectedEntries st1) in *.
  assert (Hlook : forall k, entryCheckedStates st1 !! k
                            = (fun _ => v) <$> entryCheckedStates st !! k).
  { intros k. rewrite Hs. case_bool_decide as Hk.
    - assert (Hin : k ∈ dom (entryCheckedStates st)).
      { rewrite Hdom. by apply elem_of_list_to_set. }
      apply elem_of_dom in Hin as [b ->]. done.
    - assert (Hnin : k ∉ dom (entryCheckedStates st)).
      { rewrite Hdom. by rewrite elem_of_list_to_set. }
      apply not_elem_of_dom in Hnin. by rewrite Hnin. }
  assert (Hdom1 : dom (entryCheckedStates st1) = dom (entryCheckedStates st)).
  { apply set_eq. intros k. rewrite !elem_of_dom, Hlook.
    destruct (entryCheckedStates st !! k); simpl; split; intros [? ?]; eauto; done. }
  assert (HK1 : keys_match st1).
  { split; [by rewrite He1 | by rewrite Hdom1, He1]. }
  assert (Hflag : all_flag st1 = v && negb (bool_decide (historyEntries st = []))).
  { apply eq_true_iff_eq. rewrite (all_flag_true st1 HK1), He1.
    rewrite andb_true_iff, negb_true_iff, bool_decide_eq_false.
    split.
    - intros [Hne Hall]. split; [|done].
      destruct (historyEntries st) as [|e es] eqn:Ees; [done|].
      specialize (Hall (filename e) ltac:(apply list_elem_of_here)).
      rewrite Hlook in Hall. destruct (entryCheckedStates st !! filename e); simpl in Hall; congruence.
    - intros [-> Hne]. split; [done|]. intros f Hf.
      rewrite Hlook.
      assert (Hin : f ∈ dom (entryCheckedStates st)).
      { rewrite Hdom. by apply elem_of_list_to_set. }
      apply elem_of_dom in Hin as [b ->]. done. }
  split; [split; [by rewrite He2, He1 | by rewrite Hs2, He2, Hdom1, He1]|].
  split; [split; [by rewrite Hs2 | rewrite Hall2; unfold all_flag; by rewrite Hs2, He2]|].
  split; [by rewrite He2|]. split; [by rewrite Hseen2|].
  split; [intros k; by rewrite Hs2|].
  split; [by rewrite Hall2|].
  assert (Hg1 : grows 1 st st1) by by apply (queued_grows JobStates).
  assert (Hg2 : grows 1 st1 st2).
  { apply (queued_grows JobSelectAll); [done|].
    destruct Hp2 as [[_ Hp]|[_ Hp]]; [by left | by right]. }
  split; [apply (grows_trans 1 1 _ _ _ Hg1 Hg2)|].
  intros Hchg. destruct Hp2 as [[Heq _]|[_ Hp]].
  - exfalso. apply Hchg. rewrite Hall2. by rewrite <- Heq.
  - rewrite Hp. apply elem_of_enqueue. by left.
Qed.

Lemma flush_S n st :
  flush (S n) st =
  match pending st with
  | [] => st
  | j :: q => flush n (run_job j (set_pending q st))
  end.
Proof. reflexivity. Qed.

#[local] Arguments flush : simpl never.

Lemma keys_match_empty st k :
  keys_match st -> historyEntries st = [] -> entryCheckedStates st !! k = None.
Proof.
  intros [_ Hdom] He. rewrite He in Hdom. simpl in Hdom.
  apply not_elem_of_dom. rewrite Hdom. set_solver.
Qed.

Lemma flush_quiesces n : forall st,
  flushable st -> (measure st <= n)%nat ->
  let st' := flush n st in
  flushable st' /\ pending st' = []
  /\ historyEntries st' = historyEntries st
  /\ (forall k, entryCheckedStates st' !! k =
        if bool_decide (seenSelectAll st = selectAllChecked st)
        then entryCheckedStates st !! k
        else (fun _ => selectAllChecked st) <$> entryCheckedStates st !! k).
Proof.
  induction n as [|n IH]; intros st HG Hm; pose proof HG as (HK & HN & HJ & HQ).
  - change (flush 0 st) with st. cbv zeta. unfold measure in Hm.
    assert (Hp : pending st = []) by (destruct (pending st); [done | simpl in Hm; lia]).
    assert (Hf : fires st = 0%nat) by lia.
    unfold fires in Hf. case_bool_decide as Hs; [|by destruct (_ && _)].
    split; [exact HG|]. split; [done|]. split; [done|].
    done.
  - rewrite flush_S. cbv zeta. destruct (pending st) as [|j q] eqn:Hp.
    { destruct HJ as [HJ|HJ]; [|rewrite Hp in HJ; by apply elem_of_nil in HJ].
      split; [exact HG|].
      split; [done|]. split; [done|].
      intros k. by rewrite bool_decide_eq_true_2. }
    set (st0 := set_pending q st).
    assert (HK0 : keys_match st0) by exact HK.
    destruct j.
    + (* watch(selectAllChecked) *)
      simpl. case_bool_decide as Hv.
      * assert (flushable st0 /\ (measure st0 <= n)%nat) as [HG0 Hm0].
        { split; [split; [done|split; [done|split]]|].
          - by left.
          - intros H. apply HQ. by apply list_elem_of_further.
          - unfold measure, fires in *. rewrite Hp in Hm. simpl in *. lia. }
        destruct (IH st0 HG0 Hm0) as (HG' & Hp' & He' & Hs').
        split; [done|]. split; [done|]. split; [done|].
        intros k. rewrite Hs'. simpl.
        rewrite !(bool_decide_eq_true_2 (seenSelectAll st = selectAllChecked st)); done.
      * destruct (watch_selectAllChecked_spec (selectAllChecked st) st0 HK0)
          as (HK1 & HN1 & He1 & Hseen1 & Hs1 & Hall1 & Hg1 & HA1).
        set (st1 := watch_selectAllChecked (selectAllChecked st) st0) in *.
        set (st2 := set_seenSelectAll (selectAllChecked st) st1).
        assert (HG2 : flushable st2).
        { split; [exact HK1|]. split; [exact HN1|]. split.
          - unfold watcher_armed. simpl.
            destruct (decide (selectAllChecked st = selectAllChecked st1)) as [?|Hne];
              [by left|right]. apply HA1. simpl. congruence.
          - simpl. intros H. apply Hg1 in H. simpl in H.
            apply HQ. by apply list_elem_of_further. }
        assert (Hm2 : (measure st2 <= n)%nat).
        { destruct Hg1 as (Hlen & _). simpl in Hlen.
          unfold measure, fires in *. simpl. rewrite Hp in Hm. simpl in Hm.
          rewrite Hall1, He1. simpl.
          rewrite (bool_decide_eq_false_2 (seenSelectAll st = selectAllChecked st)) in Hm
            by congruence.
          destruct (selectAllChecked st), (bool_decide (historyEntries st = []));
            simpl in *; lia. }
        destruct (IH st2 HG2 Hm2) as (HG' & Hp' & He' & Hs').
        split; [done|]. split; [done|]. split; [by rewrite He'|].
        intros k. specialize (Hs' k). simpl in Hs'. rewrite Hs'.
        rewrite (bool_decide_eq_false_2 (seenSelectAll st = selectAllChecked st))
          by congruence.
        rewrite Hs1. simpl.
        destruct (decide (selectAllChecked st = selectAllChecked st1)) as [Hq|Hq].
        -- by rewrite bool_decide_eq_true_2.
        -- rewrite bool_decide_eq_false_2 by done.
           rewrite Hall1 in Hq. simpl in Hq.
           destruct (bool_decide (historyEntries st = [])) eqn:Ee.
           ++ apply bool_decide_eq_true in Ee.
              rewrite (keys_match_empty st k HK Ee). done.
           ++ exfalso. apply Hq. simpl. by rewrite andb_true_r.
    + (* watch(entryCheckedStates) *)
      simpl. unfold watch_entryCheckedStates.
      destruct (updateSelectedEntries_spec st0) as (He1 & Hs1 & Hseen1 & Hsel1 & Hall1 & Hp1).
      set (st1 := updateSelectedEntries st0) in *.
      destruct HN as [HNs HNa]. destruct HK as [Hwf Hdom].
      destruct Hp1 as [[_ Hp1]|[Hne _]]; [|by exfalso; apply Hne].
      assert (HG1 : flushable st1).
      { split; [split; [rewrite He1; exact Hwf | rewrite Hs1, He1; exact Hdom]|].
        split; [split; [by rewrite Hs1 | rewrite Hall1; unfold all_flag; by rewrite Hs1, He1]|].
        split.
        - unfold watcher_armed. rewrite Hseen1, Hall1, Hp1. simpl.
          destruct HJ as [HJ|HJ]; [left; by rewrite HJ|].
          rewrite Hp in HJ. apply elem_of_cons in HJ as [?|?]; [done|by right].
        - rewrite Hp1. simpl. intros H. apply HQ. by apply list_elem_of_further. }
      assert (Hm1 : (measure st1 <= n)%nat).
      { unfold measure, fires in *. rewrite Hseen1, Hall1, He1, Hp1. simpl.
        rewrite Hp in Hm. simpl in Hm.
        change (all_flag st0) with (all_flag st). rewrite <- HNa. lia. }
      destruct (IH st1 HG1 Hm1) as (HG' & Hp' & He' & Hs').
      split; [done|]. split; [done|]. split; [by rewrite He', He1|].
      intros k. rewrite Hs', Hseen1, Hall1, Hs1. simpl.
      change (all_flag st0) with (all_flag st). by rewrite <- HNa.
    + exfalso. apply HQ. apply list_elem_of_here.
Qed.

Lemma existsb_filename k es :
  existsb (fun e => String.eqb (filename e) k) es = bool_decide (k ∈ filenames es).
Proof.
  induction es as [|e es IH]; simpl; [done|].
  rewrite IH. destruct (String.eqb (filename e) k) eqn:E; simpl.
  - apply String.eqb_eq in E. subst k.
    symmetry. apply bool_decide_eq_true_2. apply list_elem_of_here.
  - apply String.eqb_neq in E.
    apply bool_decide_ext. rewrite elem_of_cons.
    split; [by right | by intros [?|?]].
Qed.

Lemma js_in_own k (obj : gmap string bool) :
  k ∉ object_prototype_keys -> js_in k obj = bool_decide (is_Some (obj !! k)).
Proof.
  intros Hk. unfold js_in. rewrite (bool_decide_eq_false_2 _ Hk). apply orb_false_r.
Qed.

Lemma init_new_spec es : forall st,
  Forall (fun f => f ∉ object_prototype_keys) (filenames es) ->
  let st' :=
    foldl (fun st entry =>
             if negb (js_in (filename entry) (entryCheckedStates st))
             then write_checked (filename entry) false st else st) st es in
  (forall k, entryCheckedStates st' !! k =
             match entryCheckedStates st !! k with
             | Some b => Some b
             | None => if bool_decide (k ∈ filenames es) then Some false else None
             end)
  /\ frame st st' /\ queued JobStates st st'.
Proof.
  induction es as [|e es IH]; intros st Hes; simpl.
  - split; [|split; [apply frame_refl | apply queued_refl]].
    intros k. by destruct (_ !! k).
  - apply Forall_cons in Hes as [He Hes].
    rewrite (js_in_own _ _ He).
    set (st1 := if negb _ then _ else _).
    assert (H1 : (forall k, entryCheckedStates st1 !! k =
               match entryCheckedStates st !! k with
               | Some b => Some b
               | None => if bool_decide (k = filename e) then Some false else None
               end) /\ frame st st1 /\ queued JobStates st st1).
    { subst st1. case_bool_decide as Hin; simpl.
      - split; [|split; [apply frame_refl | apply queued_refl]].
        intros k. destruct (entryCheckedStates st !! k) eqn:E; [done|].
        case_bool_decide as Hk; [|done]. subst k. rewrite E in Hin. by destruct Hin.
      - destruct (write_checked_spec (filename e) false st He) as (Hs & Hf & Hq).
        split; [|done]. intros k. rewrite Hs.
        destruct (decide (k = filename e)) as [->|Hne].
        + rewrite lookup_insert_eq. apply eq_None_not_Some in Hin. rewrite Hin.
          by rewrite bool_decide_eq_true_2.
        + rewrite lookup_insert_ne by done. rewrite (bool_decide_eq_false_2 _ Hne).
          by destruct (_ !! k). }
    destruct H1 as (Hs1 & Hf1 & Hq1).
    destruct (IH st1 Hes) as (Hs' & Hf' & Hq').
    split; [|split; [by eapply frame_trans | by eapply queued_trans]].
    intros k. rewrite Hs', Hs1.
    destruct (entryCheckedStates st !! k); [done|].
    destruct (decide (k = filename e)) as [->|Hne].
    + rewrite bool_decide_eq_true_2 by done.
      rewrite (bool_decide_eq_true_2 (filename e ∈ filename e :: filenames es)); [done|].
      apply list_elem_of_here.
    + rewrite (bool_decide_eq_false_2 _ Hne).
      apply (f_equal (fun b : bool => if b then Some false else None)).
      apply bool_decide_ext. rewrite elem_of_cons.
    split; [by right | by intros [?|?]].
Qed.

Lemma prune_spec es ks : forall st,
  let st' :=
    foldl (fun st k =>
             if negb (existsb (fun e => String.eqb (filename e) k) es)
             then delete_checked k st else st) st ks in
  (forall k, entryCheckedStates st' !! k =
             if bool_decide (k ∈ ks /\ k ∉ filenames es) then None
             else entryCheckedStates st !! k)
  /\ frame st st' /\ queued JobStates st st'.
Proof.
  induction ks as [|k0 ks IH]; intros st; cbn [foldl].
  - split; [|split; [apply frame_refl | apply queued_refl]].
    intros k. case_bool_decide as H; [|done]. destruct H as [H _].
    by apply elem_of_nil in H.
  - rewrite existsb_filename.
    set (st1 := if negb _ then _ else _).
    assert (H1 : (forall k, entryCheckedStates st1 !! k =
               if bool_decide (k = k0 /\ k ∉ filenames es) then None
               else entryCheckedStates st !! k) /\ frame st st1 /\ queued JobStates st st1).
    { subst st1. case_bool_decide as Hin; simpl.
      - split; [|split; [apply frame_refl | apply queued_refl]].
        intros k. rewrite bool_decide_eq_false_2; [done|]. intros [-> ?]. done.
      - destruct (delete_checked_spec k0 st) as (Hs & Hf & Hq).
        split; [|done]. intros k. rewrite Hs.
        destruct (decide (k = k0)) as [->|Hne].
        + rewrite lookup_delete_eq. by rewrite bool_decide_eq_true_2.
        + rewrite lookup_delete_ne by done.
          rewrite bool_decide_eq_false_2; [done|]. by intros [? _]. }
    destruct H1 as (Hs1 & Hf1 & Hq1).
    destruct (IH st1) as (Hs' & Hf' & Hq').
    split; [|split; [by eapply frame_trans | by eapply queued_trans]].
    intros k. rewrite Hs', Hs1.
    destruct (decide (k ∈ filenames es)) as [Hk|Hk].
    + rewrite !bool_decide_eq_false_2; [done| | |]; intros [_ ?]; done.
    + destruct (decide (k = k0)) as [->|Hne].
      * rewrite (bool_decide_eq_true_2 (k0 = k0 /\ _)) by done.
        rewrite (bool_decide_eq_true_2 (k0 ∈ k0 :: ks /\ _)).
        -- by case_bool_decide.
        -- split; [apply list_elem_of_here | done].
      * rewrite (bool_decide_eq_false_2 (k = k0 /\ _)) by by intros [? _].
        apply (f_equal (fun b : bool => if b then None else entryCheckedStates st !! k)).
        apply bool_decide_ext. rewrite elem_of_cons.
        split; intros [H1 H2]; (split; [|done]); [by right | by destruct H1].
Qed.

Lemma elem_of_object_keys (obj : gmap string bool) k :
  k ∈ object_keys obj <-> is_Some (obj !! k).
Proof.
  unfold object_keys. rewrite list_elem_of_fmap. split.
  - intros [[k' b] [-> H]]. apply elem_of_map_to_list in H. simpl. eauto.
  - intros [b Hb]. exists (k, b). split; [done|]. by apply elem_of_map_to_list.
Qed.

Lemma watch_historyEntries_spec st :
  wf_entries (historyEntries st) ->
  let es := historyEntries st in
  let st' := watch_historyEntries es st in
  keys_match st' /\ derived st'
  /\ historyEntries st' = es
  /\ seenSelectAll st' = seenSelectAll st
  /\ (forall k, entryCheckedStates st' !! k =
        if bool_decide (k ∈ filenames es)
        then Some (default false (entryCheckedStates st !! k)) else None)
  /\ grows 2 st st'
  /\ (selectAllChecked st' <> selectAllChecked st -> JobSelectAll ∈ pending st').
Proof.
  intros Hwf es. pose proof Hwf as [Hnd Hproto]. unfold watch_historyEntries.
  destruct (init_new_spec es st Hproto) as (Hs1 & Hf1 & Hq1).
  set (st1 := foldl _ st es) in *.
  destruct (prune_spec es (object_keys (entryCheckedStates st1)) st1) as (Hs2 & Hf2 & Hq2).
  set (st2 := foldl _ st1 _) in *.
  destruct (updateSelectedEntries_spec st2) as (He3 & Hs3 & Hseen3 & Hsel3 & Hall3 & Hp3).
  set (st3 := updateSelectedEntries st2) in *.
  pose proof (frame_trans _ _ _ Hf1 Hf2) as (He2 & Hsel2 & Hall2 & Hseen2).
  assert (Hlook : forall k, entryCheckedStates st2 !! k =
        if bool_decide (k ∈ filenames es)
        then Some (default false (entryCheckedStates st !! k)) else None).
  { intros k. rewrite Hs2, Hs1.
    destruct (decide (k ∈ filenames es)) as [Hk|Hk].
    - rewrite bool_decide_eq_false_2 by by intros [_ ?].
      rewrite (bool_decide_eq_true_2 _ Hk). by destruct (_ !! k).
    - rewrite (bool_decide_eq_false_2 _ Hk).
      case_bool_decide as Hc; [done|].
      destruct (entryCheckedStates st !! k) eqn:E; [|done].
      exfalso. apply Hc. split; [|done]. apply elem_of_object_keys.
      rewrite Hs1, E. eauto. }
  assert (HK2 : dom (entryCheckedStates st2) = list_to_set (filenames es)).
  { apply set_eq. intros k. rewrite elem_of_dom, Hlook, elem_of_list_to_set.
    case_bool_decide; split; intros H'; try done; eauto. }
  split; [split; [by rewrite He3, He2 | by rewrite Hs3, He3, He2]|].
  split; [split; [by rewrite Hs3 | rewrite Hall3; unfold all_flag; by rewrite Hs3, He3]|].
  split; [by rewrite He3, He2|]. split; [by rewrite Hseen3, Hseen2|].
  split; [intros k; by rewrite Hs3|].
  assert (Hg1 : grows 1 st st2).
  { apply (queued_grows JobStates); [done|]. by eapply queued_trans. }
  assert (Hg2 : grows 1 st2 st3).
  { apply (queued_grows JobSelectAll); [done|].
    destruct Hp3 as [[_ Hp]|[_ Hp]]; [by left | by right]. }
  split; [apply (grows_trans 1 1 _ _ _ Hg1 Hg2)|].
  intros Hchg. destruct Hp3 as [[Heq _]|[_ Hp]].
  - exfalso. apply Hchg. rewrite Hall3, <- Heq. done.
  - rewrite Hp. apply elem_of_enqueue. by left.
Qed.

Lemma fires_le st : (fires st <= 2)%nat.
Proof. unfold fires. case_bool_decide; [lia|]. destruct (_ && _); lia. Qed.

Lemma flush_settled n st :
  flushable st -> (length (pending st) + 6 <= n)%nat ->
  settled (flush n st)
  /\ historyEntries (flush n st) = historyEntries st
  /\ (forall k, entryCheckedStates (flush n st) !! k =
        if bool_decide (seenSelectAll st = selectAllChecked st)
        then entryCheckedStates st !! k
        else (fun _ => selectAllChecked st) <$> entryCheckedStates st !! k).
Proof.
  intros HG Hn.
  assert (Hm : (measure st <= n)%nat).
  { unfold measure. pose proof (fires_le st). lia. }
  destruct (flush_quiesces n st HG Hm) as ((HK & HN & HJ & _) & Hp & He & Hs).
  split; [|done]. split; [done|]. split; [done|]. split; [|done].
  destruct HJ as [HJ|HJ]; [done|]. rewrite Hp in HJ. by apply elem_of_nil in HJ.
Qed.

Lemma settled_flushable st : settled st -> flushable st.
Proof.
  intros (HK & HN & Hs & Hp). split; [done|]. split; [done|].
  split; [by left|]. rewrite Hp. apply not_elem_of_nil.
Qed.

Lemma setEntryChecked_settled st f c :
  settled st -> f ∈ filenames (historyEntries st) ->
  settled (settle (setEntryChecked f c st))
  /\ historyEntries (settle (setEntryChecked f c st)) = historyEntries st.
Proof.
  intros (HK & HN & Hseen & Hp) Hf. destruct HK as [Hwf Hdom].
  pose proof Hwf as [Hnd Hproto].
  assert (Hfp : f ∉ object_prototype_keys).
  { rewrite Forall_forall in Hproto. by apply Hproto. }
  unfold setEntryChecked.
  destruct (write_checked_spec f (is_true c) st Hfp) as (Hs1 & Hf1 & Hq1).
  set (st1 := write_checked f (is_true c) st) in *.
  destruct Hf1 as (He1 & Hsel1 & Hall1 & Hseen1).
  destruct (updateSelectedEntries_spec st1) as (He2 & Hs2 & Hseen2 & Hsel2 & Hall2 & Hp2).
  set (st2 := updateSelectedEntries st1) in *.
  assert (Hg1 : grows 1 st st1) by by apply (queued_grows JobStates).
  assert (Hg2 : grows 1 st1 st2).
  { apply (queued_grows JobSelectAll); [done|].
    destruct Hp2 as [[_ H]|[_ H]]; [by left | by right]. }
  destruct (grows_trans 1 1 _ _ _ Hg1 Hg2) as (Hlen & _ & Hhist).
  assert (HG : flushable st2).
  { split; [split|].
    - by rewrite He2, He1.
    - rewrite Hs2, He2, He1, Hs1, dom_insert_L, Hdom.
      apply set_eq. intros k. rewrite elem_of_union, elem_of_singleton.
      split; [|by right]. intros [->|?]; [|done]. by apply elem_of_list_to_set.
    - split; [split; [by rewrite Hs2 | rewrite Hall2; unfold all_flag; by rewrite Hs2, He2]|].
      split.
      + unfold watcher_armed. rewrite Hseen2, Hseen1, Hseen, <- Hall1.
        destruct Hp2 as [[Heq _]|[_ H]].
        * left. by rewrite Hall2.
        * right. rewrite H. apply elem_of_enqueue. by left.
      + intros H. apply Hhist in H. rewrite Hp in H. by apply elem_of_nil in H. }
  rewrite Hp in Hlen. simpl in Hlen.
  destruct (flush_settled RECURSION_LIMIT st2 HG) as (HI & He & _).
  { unfold RECURSION_LIMIT. lia. }
  split; [exact HI|]. unfold settle. by rewrite He, He2, He1.
Qed.

Lemma toggle_settled st :
  settled st ->
  let st' := settle (write_selectAllChecked (negb (selectAllChecked st)) st) in
  settled st' /\ historyEntries st' = historyEntries st.
Proof.
  intros (HK & HN & Hseen & Hp). simpl.
  unfold settle, RECURSION_LIMIT, write_selectAllChecked.
  rewrite bool_decide_eq_false_2 by by destruct (selectAllChecked st).
  rewrite flush_S. simpl. rewrite Hp. simpl.
  rewrite bool_decide_eq_false_2 by (rewrite Hseen; by destruct (selectAllChecked st)).
  set (v := negb (selectAllChecked st)).
  set (st0 := set_pending [] (set_pending _ (set_selectAllChecked v st))).
  assert (HK0 : keys_match st0) by exact HK.
  destruct (watch_selectAllChecked_spec v st0 HK0)
    as (HK1 & HN1 & He1 & Hseen1 & Hs1 & Hall1 & Hg1 & HA1).
  set (st1 := watch_selectAllChecked v st0) in *.
  assert (HG : flushable (set_seenSelectAll v st1)).
  { split; [exact HK1|]. split; [exact HN1|]. split.
    - unfold watcher_armed. simpl.
      destruct (decide (v = selectAllChecked st1)) as [?|Hne]; [by left|right].
      apply HA1. simpl. congruence.
    - simpl. intros H. apply Hg1 in H. simpl in H. by apply elem_of_nil in H. }
  destruct Hg1 as (Hlen & _). simpl in Hlen.
  destruct (flush_settled 99 _ HG) as (HI & He & _); [simpl; lia|].
  split; [exact HI|]. rewrite He. simpl. by rewrite He1.
Qed.

Lemma reload_settled st es :
  seenSelectAll st = selectAllChecked st -> pending st = [] ->
  wf_entries es ->
  let st' :=
    settle (set_isLoading false
              (set_selectedEntries ∅
                 (write_historyEntries es (set_isLoading true st)))) in
  settled st' /\ historyEntries st' = es
  /\ (forall f, f ∈ filenames es -> entryCheckedStates st !! f = None ->
                entryCheckedStates st' !! f = Some false).
Proof.
  intros Hseen Hp Hwf. simpl.
  unfold settle, RECURSION_LIMIT, write_historyEntries.
  rewrite flush_S. simpl. rewrite Hp. simpl.
  set (st0 := set_pending [] _).
  assert (Hwf0 : wf_entries (historyEntries st0)) by exact Hwf.
  destruct (watch_historyEntries_spec st0 Hwf0)
    as (HK1 & HN1 & He1 & Hseen1 & Hs1 & Hg1 & HA1).
  change (historyEntries st0) with es in *.
  set (st1 := watch_historyEntries es st0) in *.
  assert (HG : flushable st1).
  { split; [exact HK1|]. split; [exact HN1|]. split.
    - unfold watcher_armed. rewrite Hseen1. simpl. rewrite Hseen.
      destruct (decide (selectAllChecked st = selectAllChecked st1)) as [?|Hne];
        [by left|right]. apply HA1. simpl. congruence.
    - intros H. apply Hg1 in H. simpl in H. by apply elem_of_nil in H. }
  destruct Hg1 as (Hlen & _). simpl in Hlen.
  destruct (flush_settled 99 _ HG) as (HI & He & Hs); [lia|].
  split; [exact HI|]. split; [by rewrite He|].
  intros f Hf Hnone. rewrite Hs, Hs1. simpl. rewrite Hnone. simpl.
  rewrite (bool_decide_eq_true_2 _ Hf). simpl.
  case_bool_decide as Hq; [done|]. f_equal.
  destruct (selectAllChecked st1) eqn:Hall; [|done].
  exfalso. destruct HN1 as [_ HNa]. rewrite Hall in HNa. symmetry in HNa.
  apply (all_flag_true st1 HK1) in HNa as [_ Hchecked].
  rewrite He1 in Hchecked. specialize (Hchecked f Hf).
  rewrite Hs1 in Hchecked. simpl in Hchecked. rewrite Hnone in Hchecked.
  rewrite (bool_decide_eq_true_2 _ Hf) in Hchecked. done.
Qed.

#[local] Arguments settle : simpl never.
#[local] Arguments loadHistory : simpl never.

Lemma loadHistory_settled w h st :
  lists_distinct_names w -> settled st -> settled (snd (run w h (loadHistory st))).
Proof.
  intros Hw HI. unfold loadHistory. norm.
  destruct (w _ h (Invoke get_history_list)) as [es|err] eqn:E; norm.
  - destruct HI as (_ & _ & Hseen & Hp).
    by apply (reload_settled (set_isLoading true st) es Hseen Hp (Hw h es E)).
  - exact HI.
Qed.

Lemma deleteSelected_settled w h st :
  lists_distinct_names w -> settled st -> settled (snd (run w h (deleteSelected st))).
Proof.
  intros Hw HI. unfold deleteSelected.
  destruct (size (selectedEntries st) =? 0)%nat; norm; [exact HI|].
  destruct (w _ h (Confirm _)); norm; [|exact HI].
  match goal with
  | |- context [match ?w ?X ?h (@Invoke ?R ?c) with _ => _ end] =>
      destruct (w X h (@Invoke R c)) as [r|err]
  end; norm; [|exact HI].
  rewrite run_bind_raw. simpl.
  apply (loadHistory_settled w _ (set_isDeleting true st) Hw HI).
Qed.

Lemma rollbackTo_settled w h f st :
  lists_distinct_names w -> settled st -> settled (snd (run w h (rollbackTo f st))).
Proof.
  intros Hw HI. unfold rollbackTo. norm.
  destruct (w _ h (Confirm _)); norm; [|exact HI].
  match goal with
  | |- context [match ?w ?X ?h (@Invoke ?R ?c) with _ => _ end] =>
      destruct (w X h (@Invoke R c)) as [r|err]
  end; norm; [|exact HI].
  rewrite run_bind_raw. simpl.
  apply (loadHistory_settled w _ (set_isRollingBack true st) Hw HI).
Qed.

Lemma dispatch_settled w h a st :
  lists_distinct_names w -> settled st -> settled (snd (run w h (dispatch a st))).
Proof.
  intros Hw HI. destruct a; simpl.
  - destruct (isLoading st); [exact HI | by apply loadHistory_settled].
  - destruct (_ && _); [by apply deleteSelected_settled | exact HI].
  - destruct (list_rendered st); [|exact HI]. by apply toggle_settled.
  - destruct (list_rendered st); [|exact HI].
    destruct (historyEntries st !! index) as [e|] eqn:E; [|exact HI].
    apply setEntryChecked_settled; [done|].
    apply list_elem_of_fmap_2. by eapply list_elem_of_lookup_2.
  - destruct (_ && _); [|exact HI].
    destruct (historyEntries st !! index) as [e|]; [|exact HI].
    by apply rollbackTo_settled.
Qed.

Lemma session_settled w actions : forall h st,
  lists_distinct_names w -> settled st -> settled (snd (run w h (session actions st))).
Proof.
  induction actions as [|a rest IH]; intros h st Hw HI; [exact HI|].
  simpl. rewrite run_bind. simpl. apply IH; [done|]. by apply dispatch_settled.
Qed.

Lemma setup_init : setup = init.
Proof. vm_compute. reflexivity. Qed.

Lemma settled_init : settled init.
Proof.
  split; [split; [split; [constructor | constructor] | done]|].
  split; [split; [done | done]|]. done.
Qed.

Lemma settled_consistent st :
  settled st ->
  (forall f, f ∈ selectedEntries st <-> entryCheckedStates st !! f = Some true)
  /\ (selectAllChecked st = true <->
      historyEntries st <> []
      /\ forall e, e ∈ historyEntries st ->
                   entryCheckedStates st !! filename e = Some true)
  /\ (forall f, is_Some (entryCheckedStates st !! f)
                <-> f ∈ filenames (historyEntries st)).
Proof.
  intros (HK & [HNs HNa] & _ & _). split; [|split].
  - intros f. rewrite HNs. apply elem_of_checked_keys.
  - rewrite HNa, (all_flag_true st HK). split; intros [Hne Hall]; (split; [done|]).
    + intros e He. apply Hall. by apply list_elem_of_fmap_2.
    + intros f Hf. apply list_elem_of_fmap in Hf as (e & -> & He). by apply Hall.
  - intros f. destruct HK as [_ Hdom].
    rewrite <- elem_of_dom, Hdom. apply elem_of_list_to_set.
Qed.

(** C9. Selection state of the history view.  In every session (the
    component is mounted, then the user performs any sequence of
    actions), provided the backend lists snapshots under distinct
    filenames (none of them a property name that every JS object
    inherits, such as ["constructor"]), after every action, once the
    watchers have run: [selectedEntries] is exactly the set of
    filenames whose checked state is [true]; [selectAllChecked] is [true]
    if and only if the list is non-empty and every listed entry is
    checked; the keys of the checked-state map are exactly the filenames
    of the current entries; and a reload leaves every entry that is new to
    the map unchecked. *)
Theorem selection_state_consistent (w : env) (actions : list action) :
  lists_distinct_names w ->
  let st := snd (run w [] (mounted ≫= session actions)) in
  (forall f, f ∈ selectedEntries st <-> entryCheckedStates st !! f = Some true)
  /\ (selectAllChecked st = true <->
      historyEntries st <> []
      /\ forall e, e ∈ historyEntries st ->
                   entryCheckedStates st !! filename e = Some true)
  /\ (forall f, is_Some (entryCheckedStates st !! f)
                <-> f ∈ filenames (historyEntries st))
  /\ (forall h es f,
        w _ h (Invoke get_history_list) = inl es ->
        f ∈ filenames es -> entryCheckedStates st !! f = None ->
        entryCheckedStates (snd (run w h (loadHistory st))) !! f = Some false).
Proof.
  intros Hw st.
  assert (HI : settled st).
  { subst st. rewrite run_bind. simpl. apply session_settled; [done|].
    unfold mounted. rewrite setup_init. apply loadHistory_settled; [done|].
    apply settled_init. }
  destruct (settled_consistent st HI) as (H1 & H2 & H3).
  split; [exact H1|]. split; [exact H2|]. split; [exact H3|].
  intros h es f Hes Hf Hnone. unfold loadHistory. norm. rewrite Hes. norm.
  destruct HI as (_ & _ & Hseen & Hp).
  by apply (reload_settled (set_isLoading true st) es Hseen Hp (Hw h es Hes)).
Qed.

(** A backend with two snapshots on record. *)
Definition snapshot (name : string) (t : Z) : HistoryEntry :=
  {| filename := name; path := "history/" +:+ name; entry_count := 3;
     file_size := 120; timestamp := t |}.

Definition two_snapshots : backend :=
  fun R c =>
    match c in command R return R + string with
    | get_history_list =>
        inl [snapshot "hosts_20240102.bak" 1704153600;
             snapshot "hosts_20240101.bak" 1704067200]
    | c' => inl (default_result c')
    end.

Lemma two_snapshots_distinct : lists_distinct_names (env_of two_snapshots true).
Proof.
  intros h es [= <-]. split.
  - apply (bool_decide_unpack _). vm_compute. reflexivity.
  - apply (bool_decide_unpack _). vm_compute. reflexivity.
Defined.

Lemma selection_state_consistent_witness :
  let st := snd (run (env_of two_snapshots true) []
                   (mounted ≫= session [CheckEntry 0 (Checked true);
                                        CheckEntry 1 (Checked true)])) in
  selectAllChecked st = true <->
  historyEntries st <> []
  /\ forall e, e ∈ historyEntries st ->
               entryCheckedStates st !! filename e = Some true.
Proof.
  exact (proj1 (proj2 (selection_state_consistent
                         (env_of two_snapshots true)
                         [CheckEntry 0 (Checked true); CheckEntry 1 (Checked true)]
                         two_snapshots_distinct))).
Defined.

Definition after (actions : list action) : state :=
  snd (run (env_of two_snapshots true) [] (mounted ≫= session actions)).

(** Checking every entry checks select-all. *)
Example check_both_selects_all :
  let st := after [CheckEntry 0 (Checked true); CheckEntry 1 (Checked true)] in
  selectAllChecked st = true
  /\ elements (selectedEntries st) = ["hosts_20240101.bak"; "hosts_20240102.bak"].
Proof. vm_compute. split; reflexivity. Qed.

(** Unchecking one entry while all are selected makes the select-all
    watcher fire with [false], which unchecks every entry. *)
Example uncheck_one_unchecks_all :
  let st := after [ToggleSelectAll; CheckEntry 0 (Checked false)] in
  selectAllChecked st = false
  /\ map_to_list (entryCheckedStates st)
     = [("hosts_20240101.bak", false); ("hosts_20240102.bak", false)].
Proof. vm_compute. split; reflexivity. Qed.

Lemma delete_rows fs : forall s, (fst (Core.delete_history_files fs s)).*1 = fs.
Proof.
  induction fs as [|f fs IH]; intros s; simpl; [done|]. by rewrite IH.
Qed.

Lemma delete_one_snapshots f s :
  Core.snapshots (snd (Core.delete_one f s)) = Core.snapshots s ∖ {[f]}.
Proof.
  unfold Core.delete_one. case_bool_decide as Hf; simpl; [done|].
  apply set_eq. intros k. rewrite elem_of_difference, elem_of_singleton.
  split; [|by intros [? _]]. intros Hk. split; [done|]. by intros ->.
Qed.

Lemma delete_snapshots fs : forall s f,
  f ∈ Core.snapshots (snd (Core.delete_history_files fs s))
  <-> f ∈ Core.snapshots s /\ f ∉ fs.
Proof.
  induction fs as [|f0 fs IH]; intros s f; simpl.
  - split; [|by intros [? _]]. intros H. split; [done|]. apply not_elem_of_nil.
  - rewrite IH, delete_one_snapshots, elem_of_difference, elem_of_singleton,
      not_elem_of_cons. tauto.
Qed.

Lemma delete_report fs : forall s f,
  NoDup fs -> f ∈ fs ->
  (f, if bool_decide (f ∈ Core.snapshots s) then Deleted
      else DeleteFailed NotFoundError)
  ∈ fst (Core.delete_history_files fs s).
Proof.
  induction fs as [|f0 fs IH]; intros s f Hnd Hf; simpl.
  - by apply elem_of_nil in Hf.
  - apply NoDup_cons in Hnd as [Hf0 Hnd].
    apply elem_of_cons in Hf as [->|Hf].
    + unfold Core.delete_one at 1. case_bool_decide; apply list_elem_of_here.
    + apply list_elem_of_further.
      assert (Hne : f <> f0) by (intros ->; done).
      specialize (IH (snd (Core.delete_one f0 s)) f Hnd Hf).
      assert (Heq : bool_decide (f ∈ Core.snapshots (snd (Core.delete_one f0 s)))
                    = bool_decide (f ∈ Core.snapshots s)).
      { apply bool_decide_ext. rewrite delete_one_snapshots, elem_of_difference,
          elem_of_singleton. tauto. }
      by rewrite Heq in IH.
Qed.

Lemma loadHistory_toasts w h st :
  toasts_success (fst (run w h (loadHistory st))) = []
  /\ "Failed to delete history files" ∉ toasts_error (fst (run w h (loadHistory st))).
Proof.
  unfold loadHistory. norm.
  destruct (w _ h (Invoke get_history_list)); norm.
  - split; [done | apply not_elem_of_nil].
  - split; [done|]. intros H. apply list_elem_of_singleton in H. discriminate.
Qed.

Lemma guarded_cons prev o t :
  guarded prev (o :: t) <-> confirmed_by prev o /\ guarded (Some o) t.
Proof. reflexivity. Qed.

Lemma guarded_nil prev : guarded prev [].
Proof. exact I. Qed.

Lemma guarded_app prev t1 t2 :
  guarded prev t1 -> (forall p, guarded p t2) -> guarded prev (t1 ++ t2).
Proof.
  revert prev. induction t1 as [|o t1 IH]; intros prev H1 H2; simpl; [apply H2|].
  destruct H1 as [Ho H1]. split; [done|]. by apply IH.
Qed.

#[local] Arguments guarded : simpl never.

Ltac guard_step :=
  rewrite guarded_cons; split; [first [exact I | reflexivity | done]|].

Lemma loadHistory_guarded w h st prev :
  guarded prev (fst (run w h (loadHistory st))).
Proof.
  unfold loadHistory. norm.
  destruct (w _ h (Invoke get_history_list)); norm;
    repeat guard_step; apply guarded_nil.
Qed.

Opaque loadHistory.

Lemma deleteSelected_reports_batch (w : env) h st :
  size (selectedEntries st) <> 0%nat ->
  w _ h (Confirm (delete_message (size (selectedEntries st)))) = true ->
  let t := fst (run w h (deleteSelected st)) in
  match w _ (Obs (Confirm (delete_message (size (selectedEntries st)))) true :: h)
          (Invoke (delete_history_files (elements (selectedEntries st)))) with
  | inl report =>
      toasts_success t = [deleted_message (size (selectedEntries st))]
      /\ "Failed to delete history files" ∉ toasts_error t
  | inr error =>
      toasts_success t = []
      /\ toasts_error t = ["Failed to delete history files"]
  end.
Proof.
  intros Hsz Hyes. unfold deleteSelected.
  apply Nat.eqb_neq in Hsz. rewrite Hsz. norm. rewrite Hyes. norm.
  destruct (w _ _ (Invoke (delete_history_files _))) as [report|error]; norm;
    [|done].
  rewrite run_bind_raw. cbv zeta. cbn [fst].
  match goal with
  | |- context [run w ?h' (loadHistory ?s)] =>
      destruct (loadHistory_toasts w h' s) as [H1 H2]
  end.
  unfold toasts_success, toasts_error in *.
  rewrite !omap_app, H1. simpl. rewrite app_nil_r. split; [done|]. exact H2.
Qed.

Lemma rollbackTo_guarded w h f st prev :
  guarded prev (fst (run w h (rollbackTo f st))).
Proof.
  unfold rollbackTo. norm.
  destruct (w _ h (Confirm _)) eqn:Hc; norm;
    [|guard_step; apply guarded_nil].
  guard_step.
  match goal with
  | |- context [match ?w ?X ?h (@Invoke ?R ?c) with _ => _ end] =>
      destruct (w X h (@Invoke R c)) as [r|err]
  end; norm.
  - do 2 guard_step.
    rewrite run_bind_raw. cbv zeta. cbn [fst]. apply guarded_app; [|done].
    apply loadHistory_guarded.
  - repeat guard_step. apply guarded_nil.
Qed.

Lemma size_elements (X : gset string) : size X = length (elements X).
Proof. reflexivity. Qed.

Lemma deleteSelected_guarded w h st prev :
  guarded prev (fst (run w h (deleteSelected st))).
Proof.
  unfold deleteSelected.
  destruct (size (selectedEntries st) =? 0)%nat eqn:Hsz; norm;
    [guard_step; apply guarded_nil|].
  apply Nat.eqb_neq in Hsz.
  destruct (w _ h (Confirm _)) eqn:Hc; norm;
    [|guard_step; apply guarded_nil].
  guard_step.
  assert (Hne : elements (selectedEntries st) <> []).
  { intros Hnil. apply Hsz. by rewrite size_elements, Hnil. }
  match goal with
  | |- context [match ?w ?X ?h (@Invoke ?R ?c) with _ => _ end] =>
      destruct (w X h (@Invoke R c)) as [r|err]
  end; norm.
  - rewrite guarded_cons.
    split; [split; [done|by rewrite <- size_elements]|]. guard_step.
    rewrite run_bind_raw. cbv zeta. cbn [fst]. apply guarded_app; [|done].
    apply loadHistory_guarded.
  - rewrite guarded_cons.
    split; [split; [done|by rewrite <- size_elements]|].
    repeat guard_step. apply guarded_nil.
Qed.

Lemma dispatch_guarded w h a st prev :
  guarded prev (fst (run w h (dispatch a st))).
Proof.
  destruct a; simpl.
  - destruct (isLoading st); [apply guarded_nil | apply loadHistory_guarded].
  - destruct (_ && _); [apply deleteSelected_guarded | apply guarded_nil].
  - destruct (list_rendered st); apply guarded_nil.
  - destruct (list_rendered st); [|apply guarded_nil].
    destruct (historyEntries st !! index); apply guarded_nil.
  - destruct (_ && _); [|apply guarded_nil].
    destruct (historyEntries st !! index);
      [apply rollbackTo_guarded | apply guarded_nil].
Qed.

Lemma session_guarded w actions : forall h st prev,
  guarded prev (fst (run w h (session actions st))).
Proof.
  induction actions as [|a rest IH]; intros h st prev; [apply guarded_nil|].
  simpl. rewrite run_bind. cbv zeta. cbn [fst].
  apply guarded_app; [apply dispatch_guarded|].
  intros p. apply IH.
Qed.

Transparent loadHistory.

(** C10. The destructive history operations are never invoked without
    explicit confirmation.  In every trace of the component, an
    invocation of [rollback_to f] comes right after the confirmation
    dialog that names [f] was answered [true], and an invocation of
    [delete_history_files fs] has a non-empty [fs] and comes right after
    its confirmation dialog was answered [true]; when the user declines,
    no remote operation is invoked and the component state is unchanged. *)
Theorem destructive_operations_confirmed (w : env) (h : list obs) (st : state) :
  (forall actions prev, guarded prev (fst (run w h (session actions st))))
  /\ (forall f, w _ h (Confirm (rollback_message f)) = false ->
                run w h (rollbackTo f st)
                = ([Obs (Confirm (rollback_message f)) false], st))
  /\ (w _ h (Confirm (delete_message (size (selectedEntries st)))) = false ->
      invocations (fst (run w h (deleteSelected st))) = []
      /\ snd (run w h (deleteSelected st)) = st).
Proof.
  split; [intros actions prev; apply session_guarded|]. split.
  - intros f Hno. unfold rollbackTo. norm. by rewrite Hno.
  - intros Hno. unfold deleteSelected.
    destruct (size (selectedEntries st) =? 0)%nat; norm; [done|].
    by rewrite Hno.
Qed.

Lemma destructive_operations_confirmed_witness :
  run (env_of resolving false) [] (rollbackTo "hosts_20240101.bak" setup)
  = ([Obs (Confirm (rollback_message "hosts_20240101.bak")) false], setup).
Proof.
  apply (destructive_operations_confirmed (env_of resolving false) [] setup).
  reflexivity.
Defined.

(** C2 (amended). The core's batch delete reports one outcome per
    requested file and does not stop at a failure: every requested file
    that exists is deleted and reported as deleted, every missing one is
    reported as not found.  The caller, [deleteSelected], does not look at
    that report: when the call resolves it announces success for the
    whole selection, and it reports a failure only when the call as a
    whole rejects. *)
Theorem delete_outcome_reported_per_batch
    (fs : list string) (s : Core.HistoryStore)
    (w : env) (h : list obs) (st : state) :
  NoDup fs ->
  size (selectedEntries st) <> 0%nat ->
  w _ h (Confirm (delete_message (size (selectedEntries st)))) = true ->
  ((fst (Core.delete_history_files fs s)).*1 = fs
   /\ (forall f, f ∈ fs -> f ∈ Core.snapshots s ->
         (f, Deleted) ∈ fst (Core.delete_history_files fs s)
         /\ f ∉ Core.snapshots (snd (Core.delete_history_files fs s)))
   /\ (forall f, f ∈ fs -> f ∉ Core.snapshots s ->
         (f, DeleteFailed NotFoundError) ∈ fst (Core.delete_history_files fs s)))
  /\ match w _ (Obs (Confirm (delete_message (size (selectedEntries st)))) true :: h)
             (Invoke (delete_history_files (elements (selectedEntries st)))) with
     | inl report =>
         toasts_success (fst (run w h (deleteSelected st)))
         = [deleted_message (size (selectedEntries st))]
         /\ "Failed to delete history files"
            ∉ toasts_error (fst (run w h (deleteSelected st)))
     | inr error =>
         toasts_success (fst (run w h (deleteSelected st))) = []
         /\ toasts_error (fst (run w h (deleteSelected st)))
            = ["Failed to delete history files"]
     end.
Proof.
  intros Hnd Hsz Hyes. split; [split; [|split]|].
  - apply delete_rows.
  - intros f Hf Hs. split.
    + pose proof (delete_report fs s f Hnd Hf) as H.
      by rewrite bool_decide_eq_true_2 in H.
    + rewrite delete_snapshots. by intros [_ ?].
  - intros f Hf Hs. pose proof (delete_report fs s f Hnd Hf) as H.
    by rewrite bool_decide_eq_false_2 in H.
  - by apply deleteSelected_reports_batch.
Qed.

(** A history directory from which the older snapshot file has gone
    missing, behind a backend that still lists both. *)
Definition one_missing_store : Core.HistoryStore :=
  {| Core.index := [snapshot "hosts_20240102.bak" 1704153600;
                    snapshot "hosts_20240101.bak" 1704067200];
     Core.snapshots := {["hosts_20240102.bak"]} |}.

Definition one_missing : backend :=
  fun R c =>
    match c in command R return R + string with
    | get_history_list => inl (Core.index one_missing_store)
    | delete_history_files fs =>
        inl (fst (Core.delete_history_files fs one_missing_store))
    | c' => inl (default_result c')
    end.

Definition both_selected : state :=
  snd (run (env_of one_missing true) []
         (mounted ≫= session [CheckEntry 0 (Checked true);
                              CheckEntry 1 (Checked true)])).

(** C2, counterexample.  With one snapshot file missing, the core reports
    that deletion as failed, and the UI announces that both entries were
    deleted. *)
Lemma delete_failure_reported_as_success :
  let t := fst (run (env_of one_missing true) [] (deleteSelected both_selected)) in
  omap delete_answer t
  = [inl [("hosts_20240101.bak", DeleteFailed NotFoundError);
          ("hosts_20240102.bak", Deleted)]]
  /\ toasts_success t = ["Successfully deleted 2 entries"]
  /\ toasts_error t = [].
Proof. vm_compute. repeat split. Qed.

Lemma delete_outcome_reported_per_batch_witness :
  ("hosts_20240101.bak", DeleteFailed NotFoundError)
  ∈ fst (Core.delete_history_files
           ["hosts_20240101.bak"; "hosts_20240102.bak"] one_missing_store)
  /\ toasts_success
       (fst (run (env_of one_missing true) [] (deleteSelected both_selected)))
     = [deleted_message (size (selectedEntries both_selected))].
Proof.
  destruct (delete_outcome_reported_per_batch
              ["hosts_20240101.bak"; "hosts_20240102.bak"] one_missing_store
              (env_of one_missing true) [] both_selected)
    as [(_ & _ & Hmissing) Hui].
  - apply (bool_decide_unpack _). vm_compute. reflexivity.
  - vm_compute. discriminate.
  - reflexivity.
  - split.
    + apply Hmissing.
      * apply list_elem_of_here.
      * apply (bool_decide_unpack _). vm_compute. reflexivity.
    + exact (proj1 Hui).
Defined.

(** *** Dates *)

(** C7. A history entry is the record of the five fields filename, path,
    entry_count, file_size and timestamp, and is determined by them.  Its
    timestamp is a unix time in seconds: for the entry the core records
    at a save, [formatDate] renders, in whatever way the host renders
    dates, the date of the instant of the save cut to the whole second,
    so that its day, hour, minute and second are those of the save.  The
    unit matters: had the entry carried the instant in milliseconds,
    the date built from it would be off by more than a second. *)
Theorem formatDate_unix_seconds
    (toLocaleString : option Z -> string)
    (name file : string) (entries size now : Z) :
  (Z.abs now <= 8640000000000000)%Z ->
  let e := Core.snapshot_entry name file entries size now in
  (forall e1 e2 : HistoryEntry,
     filename e1 = filename e2 -> path e1 = path e2 ->
     entry_count e1 = entry_count e2 -> file_size e1 = file_size e2 ->
     timestamp e1 = timestamp e2 -> e1 = e2)
  /\ (exists d,
        Date (timestamp e * 1000) = Some d
        /\ formatDate toLocaleString (timestamp e) = toLocaleString (Some d)
        /\ (d <= now < d + 1000)%Z
        /\ Day d = Day now
        /\ HourFromTime d = HourFromTime now
        /\ MinFromTime d = MinFromTime now
        /\ SecFromTime d = SecFromTime now
        /\ msFromTime d = 0%Z)
  /\ (forall d', (2 <= now)%Z -> Date (now * 1000) = Some d' ->
                 (now + 1000 <= d')%Z).
Proof.
  intros Hrange e. split; [|split].
  - intros [] []. simpl. congruence.
  - exists (now / 1000 * 1000)%Z.
    pose proof (Z.div_mod now 1000 ltac:(lia)) as Hdm.
    pose proof (Z.mod_pos_bound now 1000 ltac:(lia)) as Hmod.
    assert (Hlo : (-8640000000000 <= now / 1000)%Z)
      by (apply Z.div_le_lower_bound; lia).
    assert (Hdate : Date (now / 1000 * 1000) = Some (now / 1000 * 1000)%Z).
    { unfold Date.
      destruct (Z.leb_spec (Z.abs (now / 1000 * 1000)) 8640000000000000);
        [done|lia]. }
    split; [exact Hdate|]. split.
    { unfold formatDate. simpl. unfold Core.unix_seconds. by rewrite Hdate. }
    split; [lia|].
    unfold Day, HourFromTime, MinFromTime, SecFromTime, msFromTime.
    change 86400000%Z with (86400 * 1000)%Z.
    change 3600000%Z with (3600 * 1000)%Z.
    change 60000%Z with (60 * 1000)%Z.
    rewrite !Z.div_mul_cancel_r by lia.
    rewrite Z.div_mul by lia. rewrite Z.mod_mul by lia.
    rewrite !(Z.mul_comm _ 1000), <- !Z.div_div by lia. done.
  - intros d' Hnow. unfold Date.
    destruct (Z.abs (now * 1000) <=? 8640000000000000)%Z; [|done].
    intros [= <-]. lia.
Qed.

(** A rendering to run the handlers with: the time value in decimal. *)
Definition time_value (date : option Z) : string :=
  match date with Some t => pretty t | None => "Invalid Date" end.

Lemma formatDate_unix_seconds_witness :
  formatDate time_value
    (timestamp (Core.snapshot_entry "hosts_20240101.bak"
                  "history/hosts_20240101.bak" 3 120 1704067200123))
  = "1704067200000".
Proof.
  destruct (formatDate_unix_seconds time_value "hosts_20240101.bak"
              "history/hosts_20240101.bak" 3 120 1704067200123)
    as (_ & (d & Hd & Hf & _) & _).
  - simpl. lia.
  - rewrite Hf. vm_compute in Hd. injection Hd as <-. reflexivity.
Defined.

(** Read as milliseconds, the same number is a moment in January 1970. *)
Example seconds_not_milliseconds :
  Date 1704067200 = Some 1704067200%Z /\ Day 1704067200 = 19%Z.
Proof. split; reflexivity. Qed.

End HistoryFacts.

Module ConfigFacts.
Import Effects.

Lemma persisted_snoc cfg t o :
  Core.persisted cfg (t ++ [o]) =
  match update_applied o with
  | Some patch => Core.update_config patch (Core.persisted cfg t)
  | None => Core.persisted cfg t
  end.
Proof. unfold Core.persisted. by rewrite foldl_app. Qed.

(** C4. After every configuration update the persisted
    [max_history_entries] lies in [1, 1000]: whatever value an update
    submits is clamped to that interval, and in particular the value the
    settings form submits, which is the raw content of its input. *)
Theorem update_config_clamps_history_limit
    (cfg : Configuration) (patch : ConfigJson) (t : list obs)
    (theme : Theme) (st : Settings.state) (w : env) (h : list obs) :
  (1 <= max_history_entries
          (Core.persisted cfg (t ++ [Obs (Invoke (update_config patch)) (inl tt)]))
     <= 1000)%Z
  /\ (forall n hp hd th,
        max_history_entries
          (Core.update_config
             {| cj_host_file_path := hp; cj_history_dir := hd;
                cj_max_history_entries := Some n; cj_theme := th |} cfg)
        = (if (n <? 1)%Z then 1 else if (1000 <? n)%Z then 1000 else n)%Z)
  /\ cj_max_history_entries (Settings.settingsJson theme st)
     = Some (Settings.maxHistoryEntries st)
  /\ match w _ h (Invoke (update_config
                            (Settings.settingsJson theme
                               (Settings.set_isSaving true st)))) with
     | inl _ =>
         max_history_entries
           (Core.persisted cfg (fst (run w h (Settings.saveSettings theme st))))
         = Z.max 1 (Z.min 1000 (Settings.maxHistoryEntries st))
     | inr _ =>
         Core.persisted cfg (fst (run w h (Settings.saveSettings theme st))) = cfg
     end.
Proof.
  split; [|split; [|split]].
  - rewrite persisted_snoc. simpl.
    unfold Core.update_config, Core.clamp_history. simpl. lia.
  - intros n hp hd th. unfold Core.update_config, Core.clamp_history. simpl.
    destruct (Z.ltb_spec n 1); [lia|]. destruct (Z.ltb_spec 1000 n); lia.
  - reflexivity.
  - unfold Settings.saveSettings. EffectsFacts.norm.
    destruct (w _ h (Invoke (update_config _))) as [[]|error];
      EffectsFacts.norm; reflexivity.
Qed.

(** An update that only sets the theme keeps a limit that was in range. *)
Lemma update_theme_keeps_history_limit (cfg : Configuration) (t : Theme) :
  (1 <= max_history_entries cfg <= 1000)%Z ->
  max_history_entries
    (Core.update_config
       {| cj_host_file_path := None; cj_history_dir := None;
          cj_max_history_entries := None; cj_theme := Some t |} cfg)
  = max_history_entries cfg.
Proof. intros H. unfold Core.update_config, Core.clamp_history. simpl. lia. Qed.

End ConfigFacts.

Module ErrorSurfacing.
Import Effects.

(** C6, at the failing input.  When the backend rejects, the load of the
    blocked domains and the change of theme log the error to the console
    and show nothing to the user, whereas their sibling handlers (the load
    of the history, the save of the settings) raise an error toast. *)
Theorem load_failure_only_logged
    (error : string) (st : BlockedList.state) (t : Theme)
    (hst : History.state) (sst : Settings.state) :
  let w := env_of (rejecting error) true in
  fst (run w [] (BlockedList.loadBlockedDomains st))
  = [Obs (Invoke get_blocked_domains) (inr error);
     Obs (ConsoleError "Failed to load blocked domains:" error) tt]
  /\ toasts_error (fst (run w [] (BlockedList.loadBlockedDomains st))) = []
  /\ toasts_error (fst (run w [] (UseTheme.setTheme light t))) = []
  /\ invocations (fst (run w [] (UseTheme.setTheme light t))) = ["update_config"]
  /\ toasts_error (fst (run w [] (History.loadHistory hst))) = ["Failed to load history"]
  /\ toasts_error (fst (run w [] (Settings.saveSettings t sst)))
     = ["Failed to save settings"].
Proof. repeat split. Qed.

End ErrorSurfacing.

Module ParserFacts.
Import Effects Core.

Lemma cut_comment_spec l :
  fst (cut_comment l)
  ++ match snd (cut_comment l) with Some c => hash :: c | None => [] end = l.
Proof.
  induction l as [|c l IH]; simpl; [done|].
  destruct (N.eqb_spec c hash) as [->|Hne]; simpl; [done|]. by rewrite IH.
Qed.

Lemma flat_cons f fs : flat (f :: fs) = fst f ++ snd f ++ flat fs.
Proof. unfold flat. simpl. by rewrite <- app_assoc. Qed.

Lemma flat_fields l : flat (fields l) = l.
Proof.
  induction l as [|c l IH]; simpl; [done|].
  destruct (is_blank c).
  - destruct (fields l) as [|[ws tok] fs]; [by rewrite <- IH|].
    rewrite flat_cons in *. simpl in *. by rewrite IH.
  - destruct (fields l) as [|[[|w ws] tok] fs].
    + by rewrite <- IH.
    + rewrite flat_cons in *. simpl in *. by rewrite IH.
    + rewrite !flat_cons in *. simpl in *. by rewrite IH.
Qed.

Lemma split_trailing_cons f f' fs :
  split_trailing (f :: f' :: fs)
  = (f :: fst (split_trailing (f' :: fs)), snd (split_trailing (f' :: fs))).
Proof. reflexivity. Qed.

Lemma split_trailing_spec fs :
  flat (fst (split_trailing fs)) ++ snd (split_trailing fs) = flat fs.
Proof.
  induction fs as [|[ws tok] fs IH]; [done|].
  destruct fs as [|f fs].
  - destruct tok; simpl; rewrite ?flat_cons; simpl; by rewrite ?app_nil_r.
  - rewrite split_trailing_cons. cbn [fst snd].
    rewrite flat_cons, <- !app_assoc, IH. by rewrite (flat_cons (ws, tok)).
Qed.

Lemma serialize_parse_line n l r :
  parse_line n l = inl r -> serialize_line r = l.
Proof.
  unfold parse_line. intros H.
  pose proof (cut_comment_spec l) as Hcut.
  pose proof (flat_fields (fst (cut_comment l))) as Hflat.
  destruct (fields (fst (cut_comment l))) as [|[indent ip] rest].
  - injection H as <-. unfold flat in Hflat. simpl in Hflat.
    rewrite <- Hflat in Hcut. by destruct (snd (cut_comment l)).
  - assert (Hmap :
      (if is_ip ip && negb (bool_decide (fst (split_trailing rest) = []))
       then inl (MappingLine indent ip (fst (split_trailing rest))
                   (snd (split_trailing rest)) (snd (cut_comment l)))
       else inr (ParseError n l)) = inl r -> serialize_line r = l).
    { destruct (_ && _); [|done]. intros [= <-]. simpl.
      rewrite (app_assoc (flat _)), split_trailing_spec.
      rewrite flat_cons in Hflat. simpl in Hflat.
      rewrite !app_assoc. rewrite <- (app_assoc indent), Hflat. exact Hcut. }
    destruct ip as [|c ip]; [|exact (Hmap H)].
    destruct rest as [|f rest]; [|exact (Hmap H)].
    injection H as <-. rewrite flat_cons in Hflat. simpl in Hflat.
    rewrite !app_nil_r in Hflat. rewrite <- Hflat in Hcut. clear Hmap.
    destruct (snd (cut_comment l)); simpl; [done|]. by rewrite app_nil_r in Hcut.
Qed.

Lemma split_on_not_nil sep s : split_on sep s <> [].
Proof.
  destruct s as [|c s]; simpl; [done|].
  destruct (c =? sep); [done|]. by destruct (split_on sep s).
Qed.

Lemma join_cons sep l ls :
  ls <> [] -> join sep (l :: ls) = l ++ sep :: join sep ls.
Proof. by destruct ls. Qed.

Lemma join_split sep s : join sep (split_on sep s) = s.
Proof.
  induction s as [|c s IH]; simpl; [done|].
  pose proof (split_on_not_nil sep s) as Hne.
  destruct (N.eqb_spec c sep) as [->|Hc].
  - rewrite join_cons by done. simpl. by rewrite IH.
  - destruct (split_on sep s) as [|l ls]; [done|].
    destruct ls as [|l' ls].
    + simpl in *. by rewrite IH.
    + rewrite join_cons in IH by done. rewrite join_cons by done.
      by rewrite <- app_comm_cons, IH.
Qed.

Lemma serialize_parse_lines ls : forall n rs,
  parse_lines n ls = inl rs -> serialize_line <$> rs = ls.
Proof.
  induction ls as [|l ls IH]; intros n rs; simpl.
  - by intros [= <-].
  - destruct (parse_line n l) as [r|e] eqn:Hl; [|done].
    destruct (parse_lines (S n) ls) as [rs'|e] eqn:Hls; [|done].
    intros [= <-]. rewrite fmap_cons.
    by rewrite (serialize_parse_line _ _ _ Hl), (IH _ _ Hls).
Qed.

(** C3. Round trip: on every hosts-file text that [parse] accepts,
    [serialize] gives the text back. *)
Theorem serialize_parse (t : list N) (rs : list LineRecord) :
  parse t = inl rs -> serialize rs = t.
Proof.
  unfold parse, serialize. intros H.
  rewrite (serialize_parse_lines _ _ _ H). apply join_split.
Qed.

(** A hosts file with CRLF and LF line ends, indentation, comments and a
    trailing comment. *)
Definition sample_hosts : list N :=
  js "# Copyright (c) 1993-2009 Microsoft Corp." ++ [13; 10]
  ++ js "#" ++ [13; 10]
  ++ [13; 10]
  ++ js "127.0.0.1       localhost" ++ [13; 10]
  ++ [9] ++ js "::1  localhost ip6-localhost  # loopback" ++ [10]
  ++ js "127.0.0.1 ads.example.com" ++ [10].

Definition sample_records : list LineRecord :=
  match parse sample_hosts with inl rs => rs | inr _ => [] end.

Lemma serialize_parse_witness :
  parse sample_hosts = inl sample_records
  /\ serialize sample_records = sample_hosts.
Proof.
  assert (H : parse sample_hosts = inl sample_records) by (vm_compute; reflexivity).
  split; [exact H | exact (serialize_parse sample_hosts sample_records H)].
Defined.

Example sample_mappings :
  concat (mappings <$> sample_records)
  = [(js "127.0.0.1", js "localhost"); (js "::1", js "localhost");
     (js "::1", js "ip6-localhost"); (js "127.0.0.1", js "ads.example.com")].
Proof. vm_compute. reflexivity. Qed.

Example parse_rejects_hostname_first :
  parse (js "127.0.0.1 localhost" ++ [10] ++ js "localhost 127.0.0.1")
  = inr (ParseError 2 (js "localhost 127.0.0.1")).
Proof. vm_compute. reflexivity. Qed.

Example parse_rejects_lone_token :
  parse (js "127.0.0.1") = inr (ParseError 1 (js "127.0.0.1")).
Proof. vm_compute. reflexivity. Qed.

End ParserFacts.

Module BlockedListTraceFacts.
Import Effects EffectsFacts BlockedList BlockedListFacts BlockedListTrace.

Lemma listed_after_app d t1 t2 :
  listed_after d (t1 ++ t2) = listed_after (listed_after d t1) t2.
Proof. apply foldl_app. Qed.

Lemma removes_listed_app t1 : forall d t2,
  removes_listed d (t1 ++ t2)
  <-> removes_listed d t1 /\ removes_listed (listed_after d t1) t2.
Proof.
  induction t1 as [|o t1 IH]; intros d t2; simpl; [tauto|].
  rewrite IH. tauto.
Qed.

Lemma loadBlockedDomains_faithful w h st :
  faithful st (run w h (loadBlockedDomains st)).
Proof. unfold faithful, loadBlockedDomains. crunch; by repeat split. Qed.

Lemma addDomain_faithful w h st : faithful st (run w h (addDomain st)).
Proof.
  unfold faithful, addDomain.
  destruct (bool_decide _); [by repeat split|].
  destruct (negb _); [by repeat split|].
  unfold loadBlockedDomains. crunch; by repeat split.
Qed.

Lemma saveChanges_faithful w h st : faithful st (run w h (saveChanges st)).
Proof. unfold faithful, saveChanges, loadBlockedDomains. crunch; by repeat split. Qed.

Lemma removeDomain_faithful w h d st :
  d ∈ blockedDomains st ->
  faithful st (run w h (removeDomain (ip d) (hostname d) st)).
Proof.
  intros Hd. assert (Hd' : {| ip := ip d; hostname := hostname d |} ∈ blockedDomains st)
    by by destruct d.
  unfold faithful, removeDomain, loadBlockedDomains. crunch; by repeat split.
Qed.

Lemma dispatch_faithful w h disabled a st :
  faithful st (run w h (dispatch disabled a st)).
Proof.
  destruct a; simpl.
  - destruct (_ && _); by repeat split.
  - destruct (negb _); [apply saveChanges_faithful | by repeat split].
  - destruct (_ && _); by repeat split.
  - destruct (_ && _); [|by repeat split]. unfold handleAddKeydown.
    destruct (String.eqb key "Enter"); [apply addDomain_faithful|].
    destruct (String.eqb key "Escape"); by repeat split.
  - destruct (_ && _); [apply addDomain_faithful | by repeat split].
  - destruct (showAddInput st); by repeat split.
  - destruct (isLoading st); [by repeat split|].
    destruct (blockedDomains st !! index) as [d|] eqn:E; [|by repeat split].
    destruct disabled; [by repeat split|].
    cbv [DomainItem.handleRemove DomainItem.disabled DomainItem.ip
         DomainItem.hostname negb].
    apply removeDomain_faithful. by eapply list_elem_of_lookup_2.
Qed.

Lemma session_faithful w disabled actions : forall h st,
  faithful st (run w h (session disabled actions st)).
Proof.
  induction actions as [|a rest IH]; intros h st; [by repeat split|].
  simpl. rewrite run_bind. cbv zeta.
  destruct (dispatch_faithful w h disabled a st) as [H1 H2].
  destruct (IH (rev (fst (run w h (dispatch disabled a st))) ++ h)
               (snd (run w h (dispatch disabled a st)))) as [H3 H4].
  unfold faithful. cbn [fst snd]. split.
  - by rewrite listed_after_app, <- H1.
  - apply removes_listed_app. split; [done|]. by rewrite <- H1.
Qed.

(** The list on display is never edited locally: after any sequence of
    user actions it is the last list the backend answered with (or the
    list as it was, when no load resolved). *)
Theorem displayed_list_is_backend_answer
    (w : env) (h : list obs) (disabled : bool) (actions : list action)
    (st : state) :
  blockedDomains (snd (run w h (session disabled actions st)))
  = listed_after (blockedDomains st) (fst (run w h (session disabled actions st))).
Proof. apply session_faithful. Qed.

(** Every [remove_domain] the component invokes names, with its ip and
    hostname, a domain that was on display when it was invoked. *)
Theorem removes_only_listed_domains
    (w : env) (h : list obs) (disabled : bool) (actions : list action)
    (st : state) :
  removes_listed (blockedDomains st)
    (fst (run w h (session disabled actions st))).
Proof. apply session_faithful. Qed.

Ltac idle_solve := split; [done|split; done].

Lemma dispatch_idle w h disabled a st :
  idle st -> idle (snd (run w h (dispatch disabled a st))).
Proof.
  intros (H1 & H2 & H3). destruct a; simpl.
  - destruct (_ && _); idle_solve.
  - destruct (negb _); [|idle_solve].
    unfold idle, saveChanges, loadBlockedDomains. crunch. all: idle_solve.
  - destruct (_ && _); idle_solve.
  - destruct (_ && _); [|idle_solve]. unfold handleAddKeydown.
    destruct (String.eqb key "Enter").
    + unfold idle, addDomain.
      destruct (bool_decide _); [idle_solve|].
      destruct (negb _); [idle_solve|].
      unfold loadBlockedDomains. crunch. all: idle_solve.
    + destruct (String.eqb key "Escape"); idle_solve.
  - destruct (_ && _); [|idle_solve].
    unfold idle, addDomain.
    destruct (bool_decide _); [idle_solve|].
    destruct (negb _); [idle_solve|].
    unfold loadBlockedDomains. crunch. all: idle_solve.
  - destruct (showAddInput st) eqn:E; idle_solve.
  - destruct (isLoading st) eqn:E; [discriminate|].
    destruct (blockedDomains st !! index) as [d|]; [|idle_solve].
    destruct disabled; [idle_solve|].
    cbv [DomainItem.handleRemove DomainItem.disabled DomainItem.ip
         DomainItem.hostname negb].
    unfold idle, removeDomain, loadBlockedDomains. crunch. all: idle_solve.
Qed.

(** The busy flags are always reset: when no request is in flight before
    a sequence of user actions, none is after it, whether the backend
    resolved or rejected. *)
Theorem busy_flags_reset
    (w : env) (h : list obs) (disabled : bool) (actions : list action)
    (st : state) :
  idle st -> idle (snd (run w h (session disabled actions st))).
Proof.
  revert h st. induction actions as [|a rest IH]; intros h st Hidle; [done|].
  simpl. rewrite run_bind. cbv zeta. cbn [snd].
  apply IH. by apply dispatch_idle.
Qed.

Lemma busy_flags_reset_witness :
  idle (snd (run (env_of (rejecting "denied") true) []
               (session false [ClickSaveChanges; ClickRemove 0] listed))).
Proof.
  apply (busy_flags_reset (env_of (rejecting "denied") true) [] false
           [ClickSaveChanges; ClickRemove 0] listed).
  repeat split.
Defined.

Lemma saves_app t1 t2 : saves (t1 ++ t2) = (saves t1 + saves t2)%nat.
Proof. unfold saves. by rewrite omap_app, length_app. Qed.

Lemma dispatch_saves w h disabled a st :
  saves (fst (run w h (dispatch disabled a st)))
  = if is_save a && negb (isSaving st || disabled) then 1%nat else 0%nat.
Proof.
  destruct a; simpl.
  - by destruct (_ && _).
  - destruct (negb _); [|done]. unfold saveChanges, loadBlockedDomains.
    crunch; reflexivity.
  - by destruct (_ && _).
  - destruct (_ && _); [|done]. unfold handleAddKeydown.
    destruct (String.eqb key "Enter").
    + unfold addDomain.
      destruct (bool_decide _); [done|]. destruct (negb _); [done|].
      unfold loadBlockedDomains. crunch; reflexivity.
    + by destruct (String.eqb key "Escape").
  - destruct (_ && _); [|done]. unfold addDomain.
    destruct (bool_decide _); [done|]. destruct (negb _); [done|].
    unfold loadBlockedDomains. crunch; reflexivity.
  - by destruct (showAddInput st).
  - destruct (isLoading st); [done|].
    destruct (blockedDomains st !! index) as [d|]; [|done].
    destruct disabled; [done|].
    cbv [DomainItem.handleRemove DomainItem.disabled DomainItem.ip
         DomainItem.hostname negb].
    unfold removeDomain, loadBlockedDomains. crunch; reflexivity.
Qed.

(** Nothing is committed behind the user's back: a session invokes
    [save_changes] at most once per click on Save Changes (adding and
    removing never save), and not at all while the component is
    disabled. *)
Theorem saves_only_on_request
    (w : env) (h : list obs) (disabled : bool) (actions : list action)
    (st : state) :
  (saves (fst (run w h (session disabled actions st)))
   <= length (List.filter is_save actions))%nat
  /\ (saves (fst (run w h (session true actions st))) = 0)%nat.
Proof.
  split.
  - revert h st. induction actions as [|a rest IH]; intros h st; [done|].
    simpl. rewrite run_bind. cbv zeta. cbn [fst]. rewrite saves_app.
    rewrite dispatch_saves.
    specialize (IH (rev (fst (run w h (dispatch disabled a st))) ++ h)
                   (snd (run w h (dispatch disabled a st)))).
    destruct (is_save a); simpl; [destruct (negb _)|]; lia.
  - revert h st. induction actions as [|a rest IH]; intros h st; [done|].
    simpl. rewrite run_bind. cbv zeta. cbn [fst]. rewrite saves_app.
    rewrite dispatch_saves, IH. rewrite orb_true_r. simpl.
    by rewrite andb_false_r.
Qed.


(** *** Whitespace around the input *)

Lemma trim_start_app s p :
  trim_start (s ++ p) = if bool_decide (trim_start s = []) then trim_start p
                        else trim_start s ++ p.
Proof.
  induction s as [|c s IH]; simpl; [done|].
  destruct (is_js_space c); [exact IH|]. done.
Qed.

Lemma trim_start_spaces p :
  Forall (fun c => is_js_space c = true) p -> trim_start p = [].
Proof. induction 1 as [|c p Hc Hp IH]; simpl; [done|]. by rewrite Hc. Qed.

Lemma trim_start_pad p s :
  Forall (fun c => is_js_space c = true) p -> trim_start (p ++ s) = trim_start s.
Proof. induction 1 as [|c p Hc Hp IH]; simpl; [done|]. by rewrite Hc. Qed.

Lemma trim_end_pad s p :
  Forall (fun c => is_js_space c = true) p -> trim_end (s ++ p) = trim_end s.
Proof.
  intros Hp. unfold trim_end. rewrite rev_app_distr.
  rewrite trim_start_pad; [done|]. by apply Forall_rev.
Qed.

Lemma trim_pad p1 s p2 :
  Forall (fun c => is_js_space c = true) p1 ->
  Forall (fun c => is_js_space c = true) p2 ->
  trim (p1 ++ s ++ p2) = trim s.
Proof.
  intros H1 H2. unfold trim. rewrite trim_start_pad by done.
  rewrite trim_start_app. case_bool_decide as He.
  - by rewrite He, trim_start_spaces.
  - by apply trim_end_pad.
Qed.

(** Whitespace typed around a name makes no difference: [addDomain]
    interacts with the user and the backend in the same way, whatever
    whitespace pads the input. *)
Theorem addDomain_ignores_padding
    (w : env) (h : list obs) (st : state) (p1 s p2 : jsstring) :
  Forall (fun c => is_js_space c = true) p1 ->
  Forall (fun c => is_js_space c = true) p2 ->
  fst (run w h (addDomain (set_newDomain (p1 ++ s ++ p2) st)))
  = fst (run w h (addDomain (set_newDomain s st))).
Proof.
  intros H1 H2. unfold addDomain. simpl. rewrite (trim_pad p1 s p2 H1 H2).
  destruct (bool_decide _); [done|]. destruct (negb _); [done|].
  unfold loadBlockedDomains. crunch; reflexivity.
Qed.

Lemma addDomain_ignores_padding_witness :
  fst (run (env_of resolving true) []
         (addDomain (set_newDomain (js "  " ++ js "ads.example.com" ++ [9; 160]) init)))
  = fst (run (env_of resolving true) []
           (addDomain (set_newDomain (js "ads.example.com") init))).
Proof.
  apply (addDomain_ignores_padding (env_of resolving true) [] init
           (js "  ") (js "ads.example.com") [9; 160]).
  - vm_compute. repeat constructor.
  - vm_compute. repeat constructor.
Defined.

(** *** What an add leaves behind *)

(** The outcome of an accepted add: when [add_domain] resolves the list
    is reloaded, the input is cleared and closed and a success toast is
    shown; when it rejects nothing is reloaded, the input stays as the
    user left it (open, with its text) and the error is shown. *)
Theorem addDomain_outcome (w : env) (h : list obs) (st : state) :
  accepted (trim (newDomain st)) = true ->
  match w _ h (Invoke (add_domain block_ip (trim (newDomain st)))) with
  | inl _ =>
      newDomain (snd (run w h (addDomain st))) = []
      /\ showAddInput (snd (run w h (addDomain st))) = false
      /\ List.nth 1 (invocations (fst (run w h (addDomain st)))) ""
         = "get_blocked_domains"
      /\ toasts_success (fst (run w h (addDomain st)))
         = ["Domain added successfully"]
      /\ toasts_error (fst (run w h (addDomain st))) = []
  | inr error =>
      newDomain (snd (run w h (addDomain st))) = newDomain st
      /\ showAddInput (snd (run w h (addDomain st))) = showAddInput st
      /\ blockedDomains (snd (run w h (addDomain st))) = blockedDomains st
      /\ invocations (fst (run w h (addDomain st))) = ["add_domain"]
      /\ toasts_success (fst (run w h (addDomain st))) = []
      /\ toasts_error (fst (run w h (addDomain st))) = ["Failed to add domain"]
  end.
Proof.
  intros Hacc. unfold accepted in Hacc.
  apply andb_prop in Hacc as [Hne Htest]. apply negb_true_iff in Hne.
  unfold addDomain. rewrite Hne, Htest. norm.
  destruct (w _ h (Invoke (add_domain _ _))) as [u|error]; norm; [|done].
  unfold loadBlockedDomains. crunch; by repeat split.
Qed.

Lemma addDomain_outcome_witness :
  newDomain (snd (run (env_of (rejecting "denied") true) [] (addDomain padded_input)))
  = newDomain padded_input
  /\ toasts_error (fst (run (env_of (rejecting "denied") true) []
                          (addDomain padded_input)))
     = ["Failed to add domain"].
Proof.
  pose proof (addDomain_outcome (env_of (rejecting "denied") true) [] padded_input)
    as H.
  simpl in H. destruct H as (H1 & _ & _ & _ & _ & H6).
  - vm_compute. reflexivity.
  - split; [exact H1 | exact H6].
Defined.

(** *** What reaches the backend as a hostname *)

Ltac bools :=
  repeat match goal with
  | H : _ || _ = true |- _ => apply orb_prop in H as [H|H]
  | H : _ && _ = true |- _ => apply andb_prop in H as [? ?]
  | H : (_ =? _) = true |- _ => apply N.eqb_eq in H
  | H : (_ <=? _) = true |- _ => apply N.leb_le in H
  end.

Lemma is_alnum_not_space c :
  DomainName.is_alnum c = true -> is_js_space c = false.
Proof.
  intros H. destruct (is_js_space c) eqn:E; [exfalso|done].
  unfold DomainName.is_alnum in H. unfold is_js_space in E. bools; lia.
Qed.

Lemma split_on_chars (P : N -> Prop) sep s :
  P sep -> Forall (Forall P) (split_on sep s) -> Forall P s.
Proof.
  intros Hsep. induction s as [|c s IH]; simpl; [done|].
  destruct (N.eqb_spec c sep) as [->|Hne].
  - intros H. apply Forall_cons in H as [_ H]. constructor; auto.
  - destruct (split_on sep s) as [|l ls].
    + intros H. apply Forall_cons in H as [H _]. apply Forall_cons in H as [Hc _].
      constructor; [done|]. apply IH. constructor.
    + intros H. apply Forall_cons in H as [H Hls].
      apply Forall_cons in H as [Hc Hl]. constructor; [done|].
      apply IH. by constructor.
Qed.

Lemma split_on_head sep s l ls :
  split_on sep s = l :: ls -> l <> [] -> head s = head l.
Proof.
  destruct s as [|c s]; simpl.
  - by intros [= <- <-].
  - destruct (c =? sep); [by intros [= <- <-]|].
    destruct (split_on sep s); by intros [= <- <-].
Qed.

Lemma split_on_last sep s : forall l,
  last (split_on sep s) = Some l -> l <> [] -> last s = last l.
Proof.
  induction s as [|c s IH]; intros l; simpl.
  - by intros [= <-].
  - pose proof (DomainNameFacts.split_on_inv sep s) as Hinv.
    destruct (split_on sep s) as [|l0 ls] eqn:E.
    { destruct s; simpl in E; [done|]. destruct (_ =? _); [done|].
      by destruct (split_on sep s). }
    destruct (c =? sep).
    + intros Hl Hne. change (last ([] :: l0 :: ls)) with (last (l0 :: ls)) in Hl.
      rewrite <- (IH l Hl Hne). destruct s; [|done].
      simpl in E. injection E as <- <-. simpl in Hl. by injection Hl as <-.
    + destruct ls as [|l1 ls].
      * intros [= <-] _. destruct (Hinv l0 [] eq_refl) as [_ [[_ ->]|(t & _ & Ht)]].
        -- done.
        -- destruct t; simpl in Ht; [done|]. destruct (_ =? _); [done|].
           by destruct (split_on sep t).
      * intros Hl Hne.
        change (last ((c :: l0) :: l1 :: ls)) with (last (l0 :: l1 :: ls)) in Hl.
        rewrite <- (IH l Hl Hne). destruct s; [|done]. simpl in E. done.
Qed.

Lemma label_ok_head l :
  DomainName.label_ok l ->
  l <> []
  /\ (exists a, head l = Some a /\ DomainName.is_alnum a = true)
  /\ (exists z, last l = Some z /\ DomainName.is_alnum z = true).
Proof.
  intros ([Hlo _] & Hall & Hhd & Hlast).
  destruct l as [|a l]; [simpl in Hlo; lia|]. split; [done|]. split.
  - exists a. split; [done|]. apply Forall_cons in Hall as [Ha _].
    apply DomainNameFacts.is_alnum_hyphen_or; [done|]. intros ->. by apply Hhd.
  - destruct (last (a :: l)) as [z|] eqn:E.
    + exists z. split; [done|].
      apply DomainNameFacts.is_alnum_hyphen_or.
      * rewrite Forall_forall in Hall. apply Hall. by apply last_Some_elem_of.
      * intros ->. by apply Hlast.
    + by apply last_None in E.
Qed.

Lemma trim_start_head s a :
  head s = Some a -> is_js_space a = false -> trim_start s = s.
Proof. destruct s as [|c s]; [done|]. simpl. intros [= ->] ->. done. Qed.

Lemma well_formed_clean d : DomainName.well_formed d -> clean d.
Proof.
  intros Hwf. unfold DomainName.well_formed in Hwf.
  assert (Hchars : Forall (fun c => is_host_char c = true) d).
  { apply (split_on_chars _ DomainName.dot).
    - unfold is_host_char. by rewrite N.eqb_refl, orb_true_r.
    - eapply Forall_impl; [exact Hwf|]. intros l (_ & Hall & _).
      eapply Forall_impl; [exact Hall|]. intros c Hc. unfold is_host_char.
      cbv beta in Hc. by rewrite Hc. }
  destruct (split_on DomainName.dot d) as [|l ls] eqn:E.
  { destruct d; simpl in E; [done|]. destruct (_ =? _); [done|].
    by destruct (split_on DomainName.dot d). }
  assert (Hhead : exists a, head d = Some a /\ DomainName.is_alnum a = true).
  { apply Forall_cons in Hwf as [Hl _].
    destruct (label_ok_head l Hl) as (Hne & Ha & _).
    by rewrite (split_on_head _ _ _ _ E Hne). }
  assert (Hlast : exists z, last d = Some z /\ DomainName.is_alnum z = true).
  { destruct (last (l :: ls)) as [l'|] eqn:El; [|by apply last_None in El].
    assert (Hl' : DomainName.label_ok l').
    { rewrite Forall_forall in Hwf. apply Hwf. by apply last_Some_elem_of. }
    destruct (label_ok_head l' Hl') as (Hne & _ & Hz).
    rewrite <- E in El. by rewrite (split_on_last _ _ _ El Hne). }
  split; [done|]. split; [done|]. split; [done|].
  destruct Hhead as (a & Ha & Haa). destruct Hlast as (z & Hz & Hzz).
  unfold trim. rewrite (trim_start_head d a Ha (is_alnum_not_space a Haa)).
  unfold trim_end. rewrite (trim_start_head (rev d) z).
  - apply rev_involutive.
  - rewrite <- Hz. destruct d as [|c d] using rev_ind; [done|].
    rewrite rev_app_distr. simpl. by rewrite last_snoc.
  - by apply is_alnum_not_space.
Qed.

Lemma dispatch_calls_clean w h disabled a st :
  Forall (fun c => clean (snd c))
         (add_domain_calls (fst (run w h (dispatch disabled a st)))).
Proof.
  assert (Hadd : forall h st,
    Forall (fun c => clean (snd c))
           (add_domain_calls (fst (run w h (addDomain st))))).
  { intros h' st'. rewrite addDomain_calls.
    destruct (accepted _) eqn:Hacc; [|constructor].
    constructor; [|constructor]. simpl. apply well_formed_clean.
    by apply well_formed_accepted. }
  destruct a; simpl.
  - destruct (_ && _); constructor.
  - destruct (negb _); [rewrite saveChanges_calls|simpl]; constructor.
  - destruct (_ && _); constructor.
  - destruct (_ && _); [|constructor].
    unfold handleAddKeydown. destruct (String.eqb key "Enter"); [apply Hadd|].
    destruct (String.eqb key "Escape"); constructor.
  - destruct (_ && _); [apply Hadd | constructor].
  - destruct (showAddInput st); constructor.
  - destruct (isLoading st); [constructor|].
    destruct (blockedDomains st !! index); [|constructor].
    destruct disabled; [constructor|].
    cbv [DomainItem.handleRemove DomainItem.disabled DomainItem.ip
         DomainItem.hostname negb].
    rewrite removeDomain_calls. constructor.
Qed.

(** Whatever is typed, a hostname reaches [add_domain] only if it is made
    of ASCII letters, digits, hyphens and dots, starts and ends with a
    letter or digit, and carries no whitespace: a name that could break
    out of its line in the hosts file is never sent. *)
Theorem hostnames_sent_are_clean
    (w : env) (h : list obs) (disabled : bool) (actions : list action)
    (st : state) :
  Forall (fun c => clean (snd c))
         (add_domain_calls (fst (run w h (session disabled actions st)))).
Proof.
  revert h st. induction actions as [|a rest IH]; intros h st; [constructor|].
  simpl. rewrite run_bind. cbv zeta. cbn [fst]. rewrite add_domain_calls_app.
  apply Forall_app. split; [apply dispatch_calls_clean | apply IH].
Qed.

End BlockedListTraceFacts.

Module HistoryTraceFacts.
Import Effects EffectsFacts History HistoryInvariant HistoryFacts HistoryTrace.

#[local] Arguments flush : simpl never.
#[local] Arguments settle : simpl never.

(** *** What a click on a checkbox does to the other entries *)

Lemma setEntryChecked_states st f c :
  settled st -> f ∈ filenames (historyEntries st) ->
  let m' := <[f := is_true c]> (entryCheckedStates st) in
  let flag := (0 <? length (historyEntries st))%nat
              && (size (checked_keys m') =? length (historyEntries st))%nat in
  let st' := settle (setEntryChecked f c st) in
  settled st'
  /\ historyEntries st' = historyEntries st
  /\ (forall k, entryCheckedStates st' !! k =
        if bool_decide (selectAllChecked st = flag) then m' !! k
        else (fun _ => flag) <$> m' !! k).
Proof.
  intros (HK & HN & Hseen & Hp) Hf. destruct HK as [Hwf Hdom].
  pose proof Hwf as [Hnd Hproto].
  assert (Hfp : f ∉ object_prototype_keys).
  { rewrite Forall_forall in Hproto. by apply Hproto. }
  cbv zeta. unfold setEntryChecked.
  destruct (write_checked_spec f (is_true c) st Hfp) as (Hs1 & Hf1 & Hq1).
  set (st1 := write_checked f (is_true c) st) in *.
  destruct Hf1 as (He1 & Hsel1 & Hall1 & Hseen1).
  destruct (updateSelectedEntries_spec st1) as (He2 & Hs2 & Hseen2 & Hsel2 & Hall2 & Hp2).
  set (st2 := updateSelectedEntries st1) in *.
  assert (Hg1 : grows 1 st st1) by by apply (queued_grows JobStates).
  assert (Hg2 : grows 1 st1 st2).
  { apply (queued_grows JobSelectAll); [done|].
    destruct Hp2 as [[_ H]|[_ H]]; [by left | by right]. }
  destruct (grows_trans 1 1 _ _ _ Hg1 Hg2) as (Hlen & _ & Hhist).
  assert (HG : flushable st2).
  { split; [split|].
    - by rewrite He2, He1.
    - rewrite Hs2, He2, He1, Hs1, dom_insert_L, Hdom.
      apply set_eq. intros k. rewrite elem_of_union, elem_of_singleton.
      split; [|by right]. intros [->|?]; [|done]. by apply elem_of_list_to_set.
    - split; [split; [by rewrite Hs2 | rewrite Hall2; unfold all_flag; by rewrite Hs2, He2]|].
      split.
      + unfold watcher_armed. rewrite Hseen2, Hseen1, Hseen, <- Hall1.
        destruct Hp2 as [[Heq _]|[_ H]].
        * left. by rewrite Hall2.
        * right. rewrite H. apply elem_of_enqueue. by left.
      + intros H. apply Hhist in H. rewrite Hp in H. by apply elem_of_nil in H. }
  rewrite Hp in Hlen. simpl in Hlen.
  destruct (flush_settled RECURSION_LIMIT st2 HG) as (HI & He & Hs).
  { unfold RECURSION_LIMIT. lia. }
  fold (settle st2) in HI, He, Hs.
  split; [exact HI|]. split; [by rewrite He, He2, He1|].
  intros k. rewrite Hs, Hseen2, Hseen1, Hseen, Hall2, Hs2, Hs1.
  unfold all_flag. by rewrite Hs1, He1.
Qed.

Lemma listed_lookup st i e :
  historyEntries st !! i = Some e -> filename e ∈ filenames (historyEntries st).
Proof. intros H. apply list_elem_of_fmap_2. by eapply list_elem_of_lookup_2. Qed.

Lemma all_checked_flag (es : list HistoryEntry) (m : gmap string bool) :
  NoDup (filenames es) -> dom m = list_to_set (filenames es) ->
  (0 <? length es)%nat && (size (checked_keys m) =? length es)%nat = true ->
  forall k b, m !! k = Some b -> b = true.
Proof.
  intros Hnd Hdom Hflag k b Hk.
  apply andb_prop in Hflag as [_ Hsz]. apply Nat.eqb_eq in Hsz.
  assert (Hlen : length es = length (filenames es)).
  { unfold filenames. by rewrite length_fmap. }
  rewrite Hlen in Hsz.
  pose proof (proj1 (size_checked_keys m (filenames es) Hnd Hdom) Hsz k) as H.
  assert (Hin : k ∈ filenames es).
  { apply (elem_of_list_to_set (C := gset string)). rewrite <- Hdom.
    apply elem_of_dom. by exists b. }
  specialize (H Hin). congruence.
Qed.

(** While select-all is off, a click on the checkbox of one entry changes
    the checked state of that entry and of no other, also when it is the
    click that completes the selection. *)
Theorem check_entry_changes_only_that_entry
    (w : env) (h : list obs) (st : state) (i : nat) (e : HistoryEntry)
    (c : CheckedState) :
  settled st -> list_rendered st = true ->
  historyEntries st !! i = Some e ->
  selectAllChecked st = false ->
  entryCheckedStates (snd (run w h (dispatch (CheckEntry i c) st)))
  = <[filename e := is_true c]> (entryCheckedStates st).
Proof.
  intros HI Hr He Hall. simpl. rewrite Hr, He. simpl.
  destruct (setEntryChecked_states st (filename e) c HI (listed_lookup st i e He))
    as (_ & _ & Hs).
  apply map_eq. intros k. rewrite Hs, Hall. clear Hs.
  case_bool_decide as Hflag; [done|].
  destruct (_ && _) eqn:Hf; [|done].
  destruct (<[filename e:=is_true c]> (entryCheckedStates st) !! k) as [b|] eqn:Hk;
    [|done].
  simpl. f_equal. symmetry.
  destruct HI as ([[Hnd _] Hdom] & _).
  eapply (all_checked_flag (historyEntries st)); [exact Hnd| |exact Hf|exact Hk].
  rewrite dom_insert_L, Hdom. apply set_eq. intros x.
  rewrite elem_of_union, elem_of_singleton. split; [|by right].
  intros [->|?]; [|done]. apply elem_of_list_to_set. by eapply listed_lookup.
Qed.

(** While select-all is on, unchecking one entry unchecks every entry:
    the select-all flag drops, and its watcher then writes the dropped
    flag to all of them. *)
Theorem uncheck_one_clears_all
    (w : env) (h : list obs) (st : state) (i : nat) (e : HistoryEntry)
    (c : CheckedState) :
  settled st -> list_rendered st = true ->
  historyEntries st !! i = Some e ->
  selectAllChecked st = true -> is_true c = false ->
  let st' := snd (run w h (dispatch (CheckEntry i c) st)) in
  selectAllChecked st' = false
  /\ selectedEntries st' = ∅
  /\ forall e', e' ∈ historyEntries st ->
                entryCheckedStates st' !! filename e' = Some false.
Proof.
  intros HI Hr He Hall Hc. simpl. rewrite Hr, He. simpl.
  pose proof (listed_lookup st i e He) as Hin.
  destruct (setEntryChecked_states st (filename e) c HI Hin) as (HI' & He' & Hs).
  set (st' := settle _) in *. rewrite Hc, Hall in Hs.
  pose proof HI as ([[Hnd _] Hdom] & _).
  assert (Hflag : (0 <? length (historyEntries st))%nat
                  && (size (checked_keys (<[filename e:=false]> (entryCheckedStates st)))
                      =? length (historyEntries st))%nat = false).
  { destruct (_ && _) eqn:Hf; [|done]. exfalso.
    assert (false = true); [|done].
    eapply (all_checked_flag (historyEntries st)); [exact Hnd| |exact Hf|].
    - rewrite dom_insert_L, Hdom. apply set_eq. intros x.
      rewrite elem_of_union, elem_of_singleton. split; [|by right].
      intros [->|?]; [|done]. by apply elem_of_list_to_set.
    - apply lookup_insert_eq. }
  rewrite Hflag in Hs. rewrite bool_decide_eq_false_2 in Hs by done.
  assert (Hall' : forall e', e' ∈ historyEntries st ->
                    entryCheckedStates st' !! filename e' = Some false).
  { intros e' He'in. rewrite Hs.
    destruct (decide (filename e' = filename e)) as [->|Hne].
    - by rewrite lookup_insert_eq.
    - rewrite lookup_insert_ne by done.
      assert (Hd : filename e' ∈ dom (entryCheckedStates st)).
      { rewrite Hdom. apply elem_of_list_to_set. by apply list_elem_of_fmap_2. }
      apply elem_of_dom in Hd as [b ->]. done. }
  destruct (settled_consistent st' HI') as (Hsel & Hflag' & _).
  split; [|split; [|exact Hall']].
  - apply not_true_is_false. intros E.
    apply Hflag' in E as [_ E]. rewrite He' in E.
    apply list_elem_of_lookup_2 in He.
    specialize (E e He). rewrite (Hall' e He) in E. done.
  - apply set_eq. intros f. rewrite Hsel, Hs. split; [|by intros ?%elem_of_empty].
    intros Hf. destruct (<[_:=_]> _ !! f); done.
Qed.

(** *** Select all *)

(** A click on select-all flips the flag and gives every listed entry
    the new value; the selection is then the whole list or empty. *)
Theorem select_all_sets_every_entry
    (w : env) (h : list obs) (st : state) :
  settled st -> list_rendered st = true ->
  let st' := snd (run w h (dispatch ToggleSelectAll st)) in
  selectAllChecked st' = negb (selectAllChecked st)
  /\ (forall e, e ∈ historyEntries st ->
        entryCheckedStates st' !! filename e = Some (negb (selectAllChecked st)))
  /\ selectedEntries st'
     = if selectAllChecked st then ∅
       else list_to_set (filenames (historyEntries st)).
Proof.
  intros HI Hr. simpl. rewrite Hr. simpl.
  pose proof HI as (HK & HN & Hseen & Hp).
  assert (Hne : historyEntries st <> []).
  { unfold list_rendered in Hr. apply andb_prop in Hr as [_ Hr].
    apply negb_true_iff in Hr. by apply bool_decide_eq_false in Hr. }
  unfold settle, RECURSION_LIMIT, write_selectAllChecked.
  rewrite bool_decide_eq_false_2 by by destruct (selectAllChecked st).
  rewrite flush_S. simpl. rewrite Hp. simpl.
  rewrite bool_decide_eq_false_2 by (rewrite Hseen; by destruct (selectAllChecked st)).
  set (v := negb (selectAllChecked st)).
  set (st0 := set_pending [] (set_pending _ (set_selectAllChecked v st))).
  assert (HK0 : keys_match st0) by exact HK.
  destruct (watch_selectAllChecked_spec v st0 HK0)
    as (HK1 & HN1 & He1 & Hseen1 & Hs1 & Hall1 & Hg1 & HA1).
  set (st1 := watch_selectAllChecked v st0) in *.
  change (historyEntries st0) with (historyEntries st) in *.
  change (entryCheckedStates st0) with (entryCheckedStates st) in *.
  rewrite (bool_decide_eq_false_2 _ Hne), andb_true_r in Hall1.
  assert (HG : flushable (set_seenSelectAll v st1)).
  { split; [exact HK1|]. split; [exact HN1|]. split.
    - left. simpl. by rewrite Hall1.
    - simpl. intros H. apply Hg1 in H. simpl in H. by apply elem_of_nil in H. }
  destruct Hg1 as (Hlen & _). simpl in Hlen.
  destruct (flush_settled 99 _ HG) as (HI' & He & Hs); [simpl; lia|].
  set (st' := flush 99 _) in *. simpl in Hs. rewrite Hall1 in Hs.
  rewrite bool_decide_eq_true_2 in Hs by done.
  destruct HK as [_ Hdom].
  assert (Hall' : forall e, e ∈ historyEntries st ->
                    entryCheckedStates st' !! filename e = Some v).
  { intros e Hin. rewrite Hs, Hs1.
    assert (Hd : filename e ∈ dom (entryCheckedStates st)).
    { rewrite Hdom. apply elem_of_list_to_set. by apply list_elem_of_fmap_2. }
    apply elem_of_dom in Hd as [b ->]. done. }
  destruct (settled_consistent st' HI') as (Hsel & Hflag & Hkeys).
  simpl in He. rewrite He1 in He.
  assert (Hflag' : selectAllChecked st' = v).
  { destruct v eqn:Ev.
    - apply Hflag. rewrite He. split; [done|]. exact Hall'.
    - apply not_true_is_false. intros E.
      apply Hflag in E as [_ E]. rewrite He in E.
      destruct (historyEntries st) as [|e es]; [done|].
      specialize (E e (list_elem_of_here _ _)).
      rewrite (Hall' e (list_elem_of_here _ _)) in E. done. }
  split; [exact Hflag'|]. split; [exact Hall'|].
  apply set_eq. intros f. rewrite Hsel.
  destruct (selectAllChecked st) eqn:Eall; subst v; simpl in *.
  - split; [|by intros ?%elem_of_empty]. intros Hf.
    assert (Hd : is_Some (entryCheckedStates st' !! f)) by by eexists.
    apply Hkeys in Hd. rewrite He in Hd.
    apply list_elem_of_fmap in Hd as (e & -> & Hin).
    rewrite (Hall' e Hin) in Hf. done.
  - rewrite elem_of_list_to_set. split.
    + intros Hf. rewrite <- He. apply Hkeys. by eexists.
    + intros (e & -> & Hin)%list_elem_of_fmap. by apply Hall'.
Qed.

(** *** Reloading *)

Lemma reload_selection st es :
  settled st -> wf_entries es ->
  let st' :=
    settle (set_isLoading false
              (set_selectedEntries ∅
                 (write_historyEntries es (set_isLoading true st)))) in
  selectedEntries st' = selection_after_reload st es.
Proof.
  intros HI Hwf. pose proof HI as (HK & HN & Hseen & Hp). simpl.
  unfold settle, RECURSION_LIMIT, write_historyEntries.
  rewrite flush_S. simpl. rewrite Hp. simpl.
  set (st0 := set_pending [] _).
  assert (Hwf0 : wf_entries (historyEntries st0)) by exact Hwf.
  destruct (watch_historyEntries_spec st0 Hwf0)
    as (HK1 & HN1 & He1 & Hseen1 & Hs1 & Hg1 & HA1).
  change (historyEntries st0) with es in *.
  change (entryCheckedStates st0) with (entryCheckedStates st) in *.
  change (seenSelectAll st0) with (seenSelectAll st) in *.
  change (selectAllChecked st0) with (selectAllChecked st) in *.
  set (st1 := watch_historyEntries es st0) in *.
  assert (HG : flushable st1).
  { split; [exact HK1|]. split; [exact HN1|]. split.
    - unfold watcher_armed. rewrite Hseen1, Hseen.
      destruct (decide (selectAllChecked st = selectAllChecked st1)) as [?|Hne];
        [by left|right]. apply HA1. congruence.
    - intros H. apply Hg1 in H. simpl in H. by apply elem_of_nil in H. }
  destruct Hg1 as (Hlen & _). simpl in Hlen.
  destruct (flush_settled 99 _ HG) as (HI' & He & Hs); [lia|].
  set (st' := flush 99 st1) in *. rewrite Hseen1, Hseen in Hs.
  destruct (settled_consistent st HI) as (Hsel & Hflag & Hkeys).
  destruct (settled_consistent st' HI') as (Hsel' & _ & _).
  pose proof (all_flag_true st1 HK1) as Hflag1.
  destruct HN1 as [_ HN1]. rewrite <- HN1, He1 in Hflag1.
  unfold selection_after_reload.
  apply set_eq. intros f. rewrite Hsel', Hs. clear Hsel' Hs.
  destruct (selectAllChecked st) eqn:EA; simpl.
  - (* select-all was on: every entry listed before is checked *)
    destruct (proj1 Hflag eq_refl) as [Hne Hall].
    assert (Hold : forall k, k ∈ filenames (historyEntries st) ->
                     entryCheckedStates st !! k = Some true).
    { intros k (e & -> & Hin)%list_elem_of_fmap. by apply Hall. }
    destruct (decide (filenames es ⊆ filenames (historyEntries st))) as [Hsub|Hsub];
      [rewrite (bool_decide_eq_true_2 _ Hsub)
      |rewrite (bool_decide_eq_false_2 _ Hsub)]; simpl.
    + assert (Hnew : forall k, k ∈ filenames es ->
                       entryCheckedStates st1 !! k = Some true).
      { intros k Hk. rewrite Hs1, (bool_decide_eq_true_2 _ Hk).
        by rewrite (Hold k (Hsub k Hk)). }
      rewrite elem_of_intersection, elem_of_list_to_set, Hsel.
      destruct (selectAllChecked st1) eqn:EB.
      * rewrite bool_decide_eq_true_2 by done. rewrite Hs1.
        case_bool_decide as Hf.
        -- rewrite (Hold f (Hsub f Hf)). simpl. by split; [intros _; split|intros _].
        -- split; [done | by intros [_ ?]].
      * rewrite bool_decide_eq_false_2 by done.
        split; [intros H; by destruct (entryCheckedStates st1 !! f)|].
        intros [_ Hf]. exfalso.
        assert (false = true); [|done]. apply Hflag1.
        split; [|exact Hnew]. intros ->. by apply elem_of_nil in Hf.
    + assert (EB : selectAllChecked st1 = false).
      { apply not_true_is_false. intros EB. apply Hflag1 in EB as [_ EB].
        apply Hsub. intros k Hk. specialize (EB k Hk).
        rewrite Hs1, (bool_decide_eq_true_2 _ Hk) in EB.
        apply Hkeys. destruct (entryCheckedStates st !! k); [by eexists|done]. }
      rewrite EB. rewrite bool_decide_eq_false_2 by done.
      split; [intros H; by destruct (entryCheckedStates st1 !! f)|].
      by intros ?%elem_of_empty.
  - rewrite elem_of_intersection, elem_of_list_to_set, Hsel.
    destruct (selectAllChecked st1) eqn:EB.
    + rewrite bool_decide_eq_false_2 by done.
      destruct (proj1 Hflag1 eq_refl) as [_ Hall1]. split.
      * intros Hf.
        assert (Hin : f ∈ filenames es).
        { destruct (entryCheckedStates st1 !! f) eqn:E; [|done].
          rewrite Hs1 in E. by case_bool_decide. }
        split; [|done]. specialize (Hall1 f Hin).
        rewrite Hs1, (bool_decide_eq_true_2 _ Hin) in Hall1.
        destruct (entryCheckedStates st !! f) as [[]|]; done.
      * intros [_ Hin]. by rewrite (Hall1 f Hin).
    + rewrite bool_decide_eq_true_2 by done. rewrite Hs1.
      case_bool_decide as Hf.
      * destruct (entryCheckedStates st !! f) as [[]|]; simpl;
          (split; [intros ?; by split | by intros [? _]]).
      * split; [done | by intros [_ ?]].
Qed.

#[local] Arguments loadHistory : simpl never.

Lemma mounted_settled (w : env) actions :
  lists_distinct_names w ->
  settled (snd (run w [] (mounted ≫= session actions))).
Proof.
  intros Hw. rewrite run_bind. cbv zeta. cbn [snd].
  apply session_settled; [done|].
  unfold mounted. rewrite setup_init. apply loadHistory_settled; [done|].
  apply settled_init.
Qed.

(** Refresh does not clear the selection, whatever the comment in
    [loadHistory] says: the set it empties is rebuilt from the checked
    states by the watcher of the list.  The entries still listed stay
    selected; only when select-all was on and the new list has an entry
    that was not listed before does the selection become empty. *)
Theorem reload_keeps_selection
    (w : env) (actions : list action) (h : list obs) (es : list HistoryEntry) :
  lists_distinct_names w ->
  w _ h (Invoke get_history_list) = inl es ->
  let st := snd (run w [] (mounted ≫= session actions)) in
  let st' := snd (run w h (loadHistory st)) in
  historyEntries st' = es
  /\ selectedEntries st' = selection_after_reload st es.
Proof.
  intros Hw Hes st st'.
  pose proof (mounted_settled w actions Hw) as HI. fold st in HI.
  subst st'. unfold loadHistory. norm. rewrite Hes. norm. split.
  - destruct HI as (_ & _ & Hseen & Hp).
    by apply (reload_settled (set_isLoading true st) es Hseen Hp (Hw h es Hes)).
  - exact (reload_selection st es HI (Hw h es Hes)).
Qed.

(** *** The list on screen and the targets of destructive calls *)

Lemma entries_after_app es t1 t2 :
  entries_after es (t1 ++ t2) = entries_after (entries_after es t1) t2.
Proof. apply foldl_app. Qed.

Lemma targets_listed_app t1 : forall es t2,
  targets_listed es t1 -> targets_listed (entries_after es t1) t2 ->
  targets_listed es (t1 ++ t2).
Proof.
  induction t1 as [|o t1 IH]; intros es t2; [done|].
  simpl. intros [Ho H1] H2. split; [done|]. by apply IH.
Qed.

Lemma loadHistory_in_step (w : env) h st :
  lists_distinct_names w -> settled st -> in_step st (run w h (loadHistory st)).
Proof.
  intros Hw HI. unfold in_step, loadHistory. norm.
  destruct (w _ h (Invoke get_history_list)) as [es|err] eqn:E; norm.
  - destruct HI as (_ & _ & Hseen & Hp).
    destruct (reload_settled (set_isLoading true st) es Hseen Hp (Hw h es E))
      as (HI' & He & _).
    split; [exact HI'|]. split; [exact He|]. by repeat split.
  - split; [exact HI|]. by repeat split.
Qed.

Lemma selected_listed st :
  settled st ->
  NoDup (elements (selectedEntries st))
  /\ Forall (fun f => f ∈ filenames (historyEntries st))
            (elements (selectedEntries st)).
Proof.
  intros HI. split; [apply NoDup_elements|].
  destruct (settled_consistent st HI) as (Hsel & _ & Hkeys).
  apply Forall_forall. intros f Hf. apply elem_of_elements in Hf.
  apply Hkeys. apply Hsel in Hf. by eexists.
Qed.

Opaque loadHistory.

Lemma deleteSelected_in_step (w : env) h st :
  lists_distinct_names w -> settled st -> in_step st (run w h (deleteSelected st)).
Proof.
  intros Hw HI. unfold deleteSelected.
  destruct (size (selectedEntries st) =? 0)%nat; norm;
    [split; [exact HI|by repeat split]|].
  destruct (w _ h (Confirm _)); norm; [|split; [exact HI|by repeat split]].
  pose proof (selected_listed st HI) as Hsel.
  match goal with
  | |- context [match ?w ?X ?h (@Invoke ?R ?c) with _ => _ end] =>
      destruct (w X h (@Invoke R c)) as [r|err]
  end; norm.
  - rewrite run_bind_raw. cbv zeta. cbn [fst snd].
    match goal with
    | |- context [run w ?h' (loadHistory ?s)] =>
        destruct (loadHistory_in_step w h' s Hw HI) as (HI' & He & Ht);
        set (rl := run w h' (loadHistory s)) in *
    end.
    unfold in_step. simpl. rewrite app_nil_r.
    split; [exact HI'|]. split; [exact He|]. split; [exact I|]. split; [exact Hsel|]. split; [exact I|]. exact Ht.
  - split; [exact HI|]. split; [done|]. simpl.
    split; [exact I|]. split; [exact Hsel|]. done.
Qed.

Lemma rollbackTo_in_step (w : env) h f st :
  lists_distinct_names w -> settled st ->
  f ∈ filenames (historyEntries st) ->
  in_step st (run w h (rollbackTo f st)).
Proof.
  intros Hw HI Hf. unfold rollbackTo. norm.
  destruct (w _ h (Confirm _)); norm; [|split; [exact HI|by repeat split]].
  match goal with
  | |- context [match ?w ?X ?h (@Invoke ?R ?c) with _ => _ end] =>
      destruct (w X h (@Invoke R c)) as [r|err]
  end; norm.
  - rewrite run_bind_raw. cbv zeta. cbn [fst snd].
    match goal with
    | |- context [run w ?h' (loadHistory ?s)] =>
        destruct (loadHistory_in_step w h' s Hw HI) as (HI' & He & Ht);
        set (rl := run w h' (loadHistory s)) in *
    end.
    unfold in_step. simpl. rewrite app_nil_r.
    split; [exact HI'|]. split; [exact He|].
    split; [exact I|]. split; [exact Hf|]. split; [exact I|]. exact Ht.
  - split; [exact HI|]. split; [done|]. simpl.
    split; [exact I|]. split; [exact Hf|]. done.
Qed.

Lemma dispatch_in_step (w : env) h a st :
  lists_distinct_names w -> settled st -> in_step st (run w h (dispatch a st)).
Proof.
  intros Hw HI.
  assert (Hstay : in_step st ([], st)) by (split; [exact HI|by repeat split]).
  destruct a; simpl.
  - destruct (isLoading st); [exact Hstay | by apply loadHistory_in_step].
  - destruct (_ && _); [by apply deleteSelected_in_step | exact Hstay].
  - destruct (list_rendered st); [|exact Hstay].
    destruct (toggle_settled st HI) as (HI' & He).
    split; [exact HI'|]. split; [exact He|done].
  - destruct (list_rendered st); [|exact Hstay].
    destruct (historyEntries st !! index) as [e|] eqn:E; [|exact Hstay].
    destruct (setEntryChecked_settled st (filename e) checked HI
                (listed_lookup st index e E)) as (HI' & He).
    split; [exact HI'|]. split; [exact He|done].
  - destruct (_ && _); [|exact Hstay].
    destruct (historyEntries st !! index) as [e|] eqn:E; [|exact Hstay].
    apply rollbackTo_in_step; [done|done|]. by eapply listed_lookup.
Qed.

Lemma session_in_step (w : env) actions : forall h st,
  lists_distinct_names w -> settled st -> in_step st (run w h (session actions st)).
Proof.
  induction actions as [|a rest IH]; intros h st Hw HI.
  { split; [exact HI|by repeat split]. }
  simpl. rewrite run_bind. cbv zeta.
  destruct (dispatch_in_step w h a st Hw HI) as (HI1 & He1 & Ht1).
  set (r1 := run w h (dispatch a st)) in *.
  destruct (IH (rev r1.1 ++ h) r1.2 Hw HI1) as (HI2 & He2 & Ht2).
  set (r2 := run w _ (session rest r1.2)) in *.
  split; [exact HI2|]. cbn [fst snd]. split.
  - by rewrite entries_after_app, <- He1.
  - apply targets_listed_app; [done|]. by rewrite <- He1.
Qed.

Transparent loadHistory.

Lemma mounted_in_step (w : env) actions :
  lists_distinct_names w ->
  in_step init (run w [] (mounted ≫= session actions)).
Proof.
  intros Hw. rewrite run_bind. cbv zeta.
  unfold mounted. rewrite setup_init.
  destruct (loadHistory_in_step w [] init Hw settled_init) as (HI1 & He1 & Ht1).
  set (r1 := run w [] (loadHistory init)) in *.
  destruct (session_in_step w actions (rev r1.1 ++ []) r1.2 Hw HI1)
    as (HI2 & He2 & Ht2).
  set (r2 := run w _ (session actions r1.2)) in *.
  split; [exact HI2|]. cbn [fst snd]. split.
  - by rewrite entries_after_app, <- He1.
  - apply targets_listed_app; [done|]. by rewrite <- He1.
Qed.

(** The list on screen is always the last list the backend answered
    with: a failed reload, a declined confirmation and the checkboxes
    leave it as it is, and nothing but an answer of [get_history_list]
    changes it. *)
Theorem history_list_is_backend_answer (w : env) (actions : list action) :
  lists_distinct_names w ->
  let r := run w [] (mounted ≫= session actions) in
  historyEntries r.2 = entries_after [] r.1.
Proof. intros Hw. by destruct (mounted_in_step w actions Hw) as (_ & He & _). Qed.

(** Whatever the user does, [rollback_to] and [delete_history_files] are
    invoked only on filenames of the list as the backend last answered
    it, and a deletion names no file twice. *)
Theorem destructive_targets_listed (w : env) (actions : list action) :
  lists_distinct_names w ->
  targets_listed [] (run w [] (mounted ≫= session actions)).1.
Proof. intros Hw. by destruct (mounted_in_step w actions Hw) as (_ & _ & Ht). Qed.

Definition all_selected : state := after [ToggleSelectAll].

Lemma settled_after actions : settled (after actions).
Proof. apply mounted_settled. exact two_snapshots_distinct. Qed.

Lemma check_entry_changes_only_that_entry_witness :
  entryCheckedStates
    (snd (run (env_of two_snapshots true) []
            (dispatch (CheckEntry 1 (Checked true)) (after []))))
  = <["hosts_20240101.bak" := true]> (entryCheckedStates (after [])).
Proof.
  apply (check_entry_changes_only_that_entry
           (env_of two_snapshots true) [] (after []) 1
           (snapshot "hosts_20240101.bak" 1704067200) (Checked true)).
  - apply settled_after.
  - vm_compute. reflexivity.
  - vm_compute. reflexivity.
  - vm_compute. reflexivity.
Defined.

Lemma uncheck_one_clears_all_witness :
  let st' := snd (run (env_of two_snapshots true) []
                    (dispatch (CheckEntry 0 (Checked false)) all_selected)) in
  selectAllChecked st' = false
  /\ selectedEntries st' = ∅
  /\ forall e', e' ∈ historyEntries all_selected ->
                entryCheckedStates st' !! filename e' = Some false.
Proof.
  apply (uncheck_one_clears_all
           (env_of two_snapshots true) [] all_selected 0
           (snapshot "hosts_20240102.bak" 1704153600) (Checked false)).
  - apply settled_after.
  - vm_compute. reflexivity.
  - vm_compute. reflexivity.
  - vm_compute. reflexivity.
  - reflexivity.
Defined.

Lemma select_all_sets_every_entry_witness :
  let st' := snd (run (env_of two_snapshots true) []
                    (dispatch ToggleSelectAll (after []))) in
  selectAllChecked st' = negb (selectAllChecked (after []))
  /\ (forall e, e ∈ historyEntries (after []) ->
        entryCheckedStates st' !! filename e
        = Some (negb (selectAllChecked (after []))))
  /\ selectedEntries st'
     = if selectAllChecked (after []) then ∅
       else list_to_set (filenames (historyEntries (after []))).
Proof.
  apply (select_all_sets_every_entry (env_of two_snapshots true) [] (after [])).
  - apply settled_after.
  - vm_compute. reflexivity.
Defined.

Lemma reload_keeps_selection_witness :
  let st := after [CheckEntry 0 (Checked true)] in
  let st' := snd (run (env_of two_snapshots true) [] (loadHistory st)) in
  historyEntries st' = [snapshot "hosts_20240102.bak" 1704153600;
                        snapshot "hosts_20240101.bak" 1704067200]
  /\ selectedEntries st'
     = selection_after_reload st
         [snapshot "hosts_20240102.bak" 1704153600;
          snapshot "hosts_20240101.bak" 1704067200].
Proof.
  apply (reload_keeps_selection (env_of two_snapshots true)
           [CheckEntry 0 (Checked true)] []).
  - exact two_snapshots_distinct.
  - reflexivity.
Defined.

(** After a reload, the entry checked before it is still selected. *)
Example reload_keeps_checked_entry :
  let st := after [CheckEntry 0 (Checked true); ClickRefresh] in
  elements (selectedEntries st) = ["hosts_20240102.bak"].
Proof. vm_compute. reflexivity. Qed.

Lemma history_list_is_backend_answer_witness :
  let r := run (env_of two_snapshots true) []
             (mounted ≫= session [ToggleSelectAll; ClickDelete; ClickRestore 0]) in
  historyEntries r.2 = entries_after [] r.1.
Proof.
  apply (history_list_is_backend_answer (env_of two_snapshots true)).
  exact two_snapshots_distinct.
Defined.

Lemma destructive_targets_listed_witness :
  targets_listed []
    (run (env_of two_snapshots true) []
       (mounted ≫= session [ToggleSelectAll; ClickDelete; ClickRestore 0])).1.
Proof.
  apply (destructive_targets_listed (env_of two_snapshots true)).
  exact two_snapshots_distinct.
Defined.

End HistoryTraceFacts.

Module FileSizeFacts.
Import FileSize.

Lemma tenths_bounds (num den : Z) :
  (0 < den)%Z ->
  (2 * den * tenths num den <= 20 * num + den < 2 * den * tenths num den + 2 * den)%Z.
Proof.
  intros Hden. unfold tenths.
  pose proof (Z.mul_div_le (20 * num + den) (2 * den) ltac:(lia)).
  pose proof (Z.mul_succ_div_gt (20 * num + den) (2 * den) ltac:(lia)).
  lia.
Qed.

Lemma toFixed1_fixed ToString (num den : Z) :
  (num < 10 ^ 21 * den)%Z ->
  toFixed1 ToString num den
  = pretty (tenths num den / 10)%Z +:+ "." +:+ pretty (tenths num den mod 10)%Z.
Proof.
  intros H. unfold toFixed1.
  destruct (Z.ltb_spec num (10 ^ 21 * den)); [done|lia].
Qed.

Lemma formatFileSize_unit ToString (bytes : Z) :
  (1024 <= bytes)%Z ->
  formatFileSize ToString bytes
  = toFixed1 ToString bytes (unit_of bytes).1 +:+ (unit_of bytes).2.
Proof.
  intros H. unfold formatFileSize, unit_of.
  destruct (Z.ltb_spec bytes 1024); [lia|].
  by destruct (bytes <? 1024 * 1024)%Z.
Qed.

(** From a kilobyte on, and below the sizes that [toFixed] writes in
    exponent notation (10^21 megabytes), the figure shown is the size in
    the unit shown, rounded to the nearest tenth: no other tenth is
    nearer to the size, and the figure is off by at most a twentieth of
    the unit. *)
Theorem formatFileSize_nearest_tenth
    (ToString : Z -> Z -> string) (bytes : Z) :
  (1024 <= bytes < 10 ^ 21 * (1024 * 1024))%Z ->
  let u := (unit_of bytes).1 in
  let n := tenths bytes u in
  formatFileSize ToString bytes
  = (pretty (n / 10)%Z +:+ "." +:+ pretty (n mod 10)%Z) +:+ (unit_of bytes).2
  /\ (0 <= n)%Z
  /\ (2 * Z.abs (10 * bytes - n * u) <= u)%Z
  /\ forall m : Z, (Z.abs (10 * bytes - n * u) <= Z.abs (10 * bytes - m * u))%Z.
Proof.
  intros [H Hup] u n.
  assert (Hu : (0 < u)%Z /\ (bytes < 10 ^ 21 * u)%Z).
  { subst u. unfold unit_of. destruct (Z.ltb_spec bytes 1024); [lia|].
    destruct (Z.ltb_spec bytes (1024 * 1024)); simpl; lia. }
  destruct Hu as [Hu Hx]. split.
  { rewrite (formatFileSize_unit ToString bytes H).
    rewrite toFixed1_fixed by exact Hx. done. }
  pose proof (tenths_bounds bytes u Hu) as Hb. fold n in Hb.
  split; [apply Z.div_pos; lia|]. split; [lia|]. intros m.
  destruct (Z.lt_trichotomy m n) as [Hm|[->|Hm]]; [|lia|].
  - assert (u <= (n - m) * u)%Z by nia. lia.
  - assert (u <= (m - n) * u)%Z by nia. lia.
Qed.

(** A stand-in for the host's exponent notation, to run the function
    with. *)
Definition no_exponent : Z -> Z -> string := fun _ _ => "".

Lemma formatFileSize_nearest_tenth_witness :
  formatFileSize no_exponent 1280 = "1.3 KB"
  /\ formatFileSize no_exponent 123456789 = "117.7 MB".
Proof.
  split.
  - exact (proj1 (formatFileSize_nearest_tenth no_exponent 1280 ltac:(lia))).
  - exact (proj1 (formatFileSize_nearest_tenth no_exponent 123456789 ltac:(lia))).
Defined.

(** From 10^21 megabytes on the figure is the one of the host's exponent
    notation. *)
Example formatFileSize_exponent_notation (ToString : Z -> Z -> string) :
  formatFileSize ToString (2 ^ 90)
  = ToString (2 ^ 90)%Z (1024 * 1024)%Z +:+ " MB".
Proof. reflexivity. Qed.

(** The last 51 byte counts below a megabyte are shown as [1024.0 KB]:
    the unit is picked before the figure is rounded. *)
Theorem formatFileSize_kilobyte_ceiling
    (ToString : Z -> Z -> string) (bytes : Z) :
  (1048525 <= bytes < 1048576)%Z ->
  formatFileSize ToString bytes = "1024.0 KB".
Proof.
  intros H. unfold formatFileSize.
  destruct (Z.ltb_spec bytes 1024); [lia|].
  destruct (Z.ltb_spec bytes (1024 * 1024)); [|lia].
  rewrite toFixed1_fixed by lia.
  assert (Hn : tenths bytes 1024 = 10240%Z).
  { pose proof (tenths_bounds bytes 1024 ltac:(lia)). lia. }
  rewrite Hn. vm_compute. reflexivity.
Qed.

Lemma formatFileSize_kilobyte_ceiling_witness :
  formatFileSize no_exponent 1048575 = "1024.0 KB".
Proof. apply formatFileSize_kilobyte_ceiling. lia. Defined.

End FileSizeFacts.

Module ThemeSessionFacts.
Import Effects EffectsFacts UseTheme ThemeSession.

Lemma theme_after_app c t1 t2 :
  theme_after c (t1 ++ t2) = theme_after (theme_after c t1) t2.
Proof. apply foldl_app. Qed.

Lemma data_theme_app a t1 t2 :
  data_theme a (t1 ++ t2) = data_theme (data_theme a t1) t2.
Proof. apply foldl_app. Qed.

Lemma perform_confirmed (w : env) h c theme :
  snd (run w h (perform c theme)) = theme_after theme (fst (run w h (perform c theme))).
Proof.
  destruct c; simpl; unfold toggleTheme, setTheme, loadTheme; norm;
    match goal with
    | |- context [match ?w ?X ?h (@Invoke ?R ?c) with _ => _ end] =>
        destruct (w X h (@Invoke R c))
    end; norm; reflexivity.
Qed.

(** The theme the composable holds is always the one the backend
    confirmed last, by storing it or by reporting it: a rejected update
    or load leaves it as it was, and nothing else changes it. *)
Theorem theme_is_last_confirmed
    (w : env) (calls : list call) (h : list obs) (currentTheme : Theme) :
  snd (run w h (session calls currentTheme))
  = theme_after currentTheme (fst (run w h (session calls currentTheme))).
Proof.
  revert h currentTheme. induction calls as [|c rest IH]; intros h theme; [done|].
  simpl. rewrite run_bind. cbv zeta. cbn [fst snd].
  by rewrite theme_after_app, <- perform_confirmed, <- IH.
Qed.

Lemma existsb_app_false {A} (f : A -> bool) l1 l2 :
  existsb f (l1 ++ l2) = false -> existsb f l1 = false /\ existsb f l2 = false.
Proof. rewrite existsb_app. apply orb_false_elim. Qed.

Lemma perform_in_sync (w : env) h c theme :
  existsb load_failed (fst (run w h (perform c theme))) = false ->
  data_theme (Some (theme_name theme)) (fst (run w h (perform c theme)))
  = Some (theme_name (snd (run w h (perform c theme)))).
Proof.
  destruct c; simpl; unfold toggleTheme, setTheme, loadTheme; norm;
    match goal with
    | |- context [match ?w ?X ?h (@Invoke ?R ?c) with _ => _ end] =>
        destruct (w X h (@Invoke R c))
    end; norm; done.
Qed.

(** The [data-theme] attribute of the document names the theme the
    composable holds, as long as no [get_config] was rejected: a rejected
    load sets the attribute to dark and leaves the theme as it is, after
    which a light theme is shown as dark. *)
Theorem data_theme_in_sync
    (w : env) (calls : list call) (h : list obs) (currentTheme : Theme) :
  existsb load_failed (fst (run w h (session calls currentTheme))) = false ->
  data_theme (Some (theme_name currentTheme))
             (fst (run w h (session calls currentTheme)))
  = Some (theme_name (snd (run w h (session calls currentTheme)))).
Proof.
  revert h currentTheme. induction calls as [|c rest IH]; intros h theme; [done|].
  simpl. rewrite run_bind. cbv zeta. cbn [fst snd].
  intros [H1 H2]%existsb_app_false.
  rewrite data_theme_app, (perform_in_sync w h c theme H1). by apply IH.
Qed.

Lemma data_theme_in_sync_witness :
  let r := run (env_of resolving true) []
             (session [CallLoadTheme; CallSetTheme light; CallToggleTheme;
                       CallToggleTheme] dark) in
  data_theme (Some "dark") r.1 = Some (theme_name r.2).
Proof.
  apply (data_theme_in_sync (env_of resolving true)
           [CallLoadTheme; CallSetTheme light; CallToggleTheme; CallToggleTheme]
           [] dark).
  vm_compute. reflexivity.
Defined.

(** A backend that stores the theme but cannot report the configuration. *)
Definition config_unreadable : backend :=
  fun R c =>
    match c in command R return R + string with
    | get_config => inr "config unreadable"
    | c' => inl (default_result c')
    end.

(** After a rejected load the page is dark while the theme is light. *)
Example failed_load_shows_dark :
  let r := run (env_of config_unreadable true) []
             (session [CallSetTheme light; CallLoadTheme] dark) in
  r.2 = light /\ data_theme None r.1 = Some "dark".
Proof. split; reflexivity. Qed.

End ThemeSessionFacts.

Module SettingsViewFacts.
Import Effects EffectsFacts UseTheme Settings SettingsView.

(** Saving right after the view was mounted writes back what was loaded,
    with three changes: a host path that was not set comes back as the
    platform default, now an explicit override; an empty history
    directory comes back as null; and a limit of 0 comes back as 5. *)
Theorem save_after_mount_writes_back
    (b : backend) (confirm : bool) (theme0 : Theme) (config : Configuration)
    (h : list obs) :
  b _ get_config = inl config ->
  let w := env_of b confirm in
  let v := snd (run w [] (mounted theme0)) in
  updates_sent (fst (run w h (clickSave v)))
  = [{| cj_host_file_path :=
          Some (or_null
                  (if String.eqb (default "" (host_file_path config)) ""
                   then default_path b
                   else default "" (host_file_path config)));
        cj_history_dir := Some (or_null (default "" (history_dir config)));
        cj_max_history_entries :=
          Some (if (max_history_entries config =? 0)%Z then 5
                else max_history_entries config)%Z;
        cj_theme := Some (theme config) |}].
Proof.
  intros Hc w v. subst v w.
  unfold mounted, onMounted, loadTheme, loadSettings, getDefaultHostPath,
    clickSave, saveSettings, default_path.
  norm. rewrite Hc. norm. rewrite Hc. norm.
  destruct (String.eqb (default "" (host_file_path config)) "") eqn:E; norm.
  - destruct (b _ get_host_file_path); norm;
      destruct (b _ (update_config _)); reflexivity.
  - destruct (b _ (update_config _)); reflexivity.
Qed.

(** A configuration without paths, on a platform whose hosts file is at
    [/etc/hosts]. *)
Definition fresh_install : backend :=
  fun R c =>
    match c in command R return R + string with
    | get_host_file_path => inl "/etc/hosts"
    | c' => inl (default_result c')
    end.

Lemma save_after_mount_writes_back_witness :
  updates_sent
    (fst (run (env_of fresh_install true) []
            (clickSave (snd (run (env_of fresh_install true) [] (mounted dark))))))
  = [{| cj_host_file_path := Some (Some "/etc/hosts");
        cj_history_dir := Some None;
        cj_max_history_entries := Some 50%Z;
        cj_theme := Some dark |}].
Proof.
  exact (save_after_mount_writes_back fresh_install true dark
           (default_result get_config) [] eq_refl).
Defined.

(** When the configuration cannot be loaded, the view shows one error
    and keeps its initial fields, and Save then submits them: the stored
    history directory and limit are overwritten with null and 50, and
    the theme with the one the composable held. *)
Theorem save_after_failed_load_submits_initial_fields
    (b : backend) (confirm : bool) (theme0 : Theme) (error : string)
    (h : list obs) :
  b _ get_config = inr error ->
  let w := env_of b confirm in
  let v := snd (run w [] (mounted theme0)) in
  toasts_error (fst (run w [] (mounted theme0))) = ["Failed to load settings"]
  /\ updates_sent (fst (run w h (clickSave v)))
     = [{| cj_host_file_path := Some (or_null (default_path b));
           cj_history_dir := Some None;
           cj_max_history_entries := Some 50%Z;
           cj_theme := Some theme0 |}].
Proof.
  intros Hc w v. subst v w.
  unfold mounted, onMounted, loadTheme, loadSettings, getDefaultHostPath,
    clickSave, saveSettings, default_path.
  norm. rewrite Hc. norm. rewrite Hc. norm.
  destruct (b _ get_host_file_path); norm;
    destruct (b _ (update_config _)); split; reflexivity.
Qed.

Lemma save_after_failed_load_submits_initial_fields_witness :
  updates_sent
    (fst (run (env_of (rejecting "offline") true) []
            (clickSave (snd (run (env_of (rejecting "offline") true) []
                               (mounted light))))))
  = [{| cj_host_file_path := Some None;
        cj_history_dir := Some None;
        cj_max_history_entries := Some 50%Z;
        cj_theme := Some light |}].
Proof.
  exact (proj2 (save_after_failed_load_submits_initial_fields
                  (rejecting "offline") true light "offline" [] eq_refl)).
Defined.

End SettingsViewFacts.

Module AppFacts.
Import Effects EffectsFacts App BlockedList BlockedListFacts AppSession.

Lemma session_disabled (w : env) actions : forall h st,
  showAddInput st = false ->
  run w h (session true actions st) = ([], st).
Proof.
  induction actions as [|a rest IH]; intros h st Hs; [done|].
  simpl. rewrite run_bind. rewrite (dispatch_disabled w h a st Hs). simpl.
  by rewrite IH.
Qed.

Lemma invocations_app t1 t2 :
  invocations (t1 ++ t2) = invocations t1 ++ invocations t2.
Proof. apply omap_app. Qed.

Lemma adds_resolved_app t1 t2 :
  adds_resolved (t1 ++ t2) = adds_resolved t1 ++ adds_resolved t2.
Proof. apply omap_app. Qed.

Ltac reach_list :=
  repeat (apply List.Forall_cons; [unfold within_reach; by auto|]);
  apply List.Forall_nil.

(** What Enter in the add input does while the view is disabled: it is
    the one handler that [disabled] does not gate. *)
Lemma addDomain_within_reach (w : env) h st :
  let r := run w h (addDomain st) in
  Forall within_reach (invocations r.1)
  /\ (adds_resolved r.1 = []
      \/ (length (adds_resolved r.1) = 1%nat /\ showAddInput r.2 = false)).
Proof.
  unfold addDomain.
  destruct (bool_decide _); [split; [reach_list | by left]|].
  destruct (negb _); [split; [reach_list | by left]|].
  unfold loadBlockedDomains. crunch.
  all: split; [reach_list | first [by left | by right]].
Qed.

Lemma dispatch_within_reach (w : env) h a st :
  let r := run w h (dispatch true a st) in
  Forall within_reach (invocations r.1)
  /\ (adds_resolved r.1 = []
      \/ (length (adds_resolved r.1) = 1%nat /\ showAddInput r.2 = false)).
Proof.
  destruct a; simpl.
  - rewrite andb_false_r. split; [reach_list | by left].
  - rewrite orb_true_r. split; [reach_list | by left].
  - destruct (_ && _); (split; [reach_list | by left]).
  - destruct (_ && _); [|split; [reach_list | by left]].
    unfold handleAddKeydown.
    destruct (String.eqb key "Enter"); [apply addDomain_within_reach|].
    destruct (String.eqb key "Escape"); (split; [reach_list | by left]).
  - rewrite !orb_true_r, andb_false_r. split; [reach_list | by left].
  - destruct (showAddInput st); (split; [reach_list | by left]).
  - destruct (isLoading st); [split; [reach_list | by left]|].
    destruct (blockedDomains st !! index); (split; [reach_list | by left]).
Qed.

Lemma session_within_reach (w : env) actions : forall h st,
  let r := run w h (session true actions st) in
  Forall within_reach (invocations r.1)
  /\ (length (adds_resolved r.1) <= 1)%nat.
Proof.
  induction actions as [|a rest IH]; intros h st.
  { split; [constructor | simpl; lia]. }
  simpl. rewrite run_bind. cbv zeta. cbn [fst snd].
  destruct (dispatch_within_reach w h a st) as [H1 H2].
  set (r1 := run w h (dispatch true a st)) in *.
  rewrite invocations_app, adds_resolved_app, length_app.
  destruct H2 as [H2|[H2 Hclosed]].
  - destruct (IH (rev r1.1 ++ h) r1.2) as [H3 H4].
    split; [by apply Forall_app|]. rewrite H2. simpl. lia.
  - rewrite (session_disabled w rest _ _ Hclosed). simpl.
    rewrite app_nil_r. split; [done | lia].
Qed.

(** What the privilege check gates, and what it does not.  Once
    [check_admin_privileges] has answered anything but true, be it false
    or a rejection, [hasAdminPrivileges] is false and the warning is
    shown.  The view was mounted before that, enabled, and whatever the
    user did in it then and does in it now, what is done now never
    invokes [remove_domain] or [save_changes]; [add_domain] stays within
    reach of an add input that was left open, whose Enter key is not
    gated, until one add resolves and closes the input.  With the input
    closed when the check answers, nothing is invoked at all. *)
Theorem privilege_check_gates_remove_and_save
    (w : env) (h h0 h1 : list obs) (before after : list action) :
  w _ h (Invoke check_admin_privileges) <> inl true ->
  let p := snd (run w h checkPrivileges) in
  let st := snd (run w h0 (before_check before)) in
  let r := run w h1 (session (blockedListDisabled p) after st) in
  p = Some false
  /\ warningShown p true = true
  /\ Forall within_reach (invocations r.1)
  /\ (length (adds_resolved r.1) <= 1)%nat
  /\ (showAddInput st = false -> r = ([], st)).
Proof.
  intros Hw p st.
  assert (Hp : p = Some false).
  { subst p. unfold checkPrivileges. norm.
    destruct (w _ h (Invoke check_admin_privileges)) as [[]|err]; norm; done. }
  rewrite Hp. change (blockedListDisabled (Some false)) with true. intros r.
  split; [done|]. split; [done|].
  destruct (session_within_reach w after h1 st) as [H1 H2].
  split; [exact H1|]. split; [exact H2|].
  intros Hclosed. by apply session_disabled.
Qed.

(** Two users of a machine without privileges whose check is slow: one
    opens the add input and types a name before the check answers, the
    other does not. *)
Definition typed_early : list action :=
  [ClickAddDomain; InputNewDomain (js "ads.example.com")].

Lemma privilege_check_gates_remove_and_save_witness :
  let w := env_of no_privileges true in
  let p := snd (run w [] checkPrivileges) in
  let st := snd (run w [] (before_check typed_early)) in
  let r := run w [] (session (blockedListDisabled p)
                       [ClickRemove 0; ClickSaveChanges;
                        KeydownNewDomain "Enter"; KeydownNewDomain "Enter"]
                       st) in
  p = Some false
  /\ warningShown p true = true
  /\ Forall within_reach (invocations r.1)
  /\ (length (adds_resolved r.1) <= 1)%nat
  /\ (showAddInput st = false -> r = ([], st)).
Proof.
  apply (privilege_check_gates_remove_and_save
           (env_of no_privileges true) [] [] [] typed_early
           [ClickRemove 0; ClickSaveChanges;
            KeydownNewDomain "Enter"; KeydownNewDomain "Enter"]).
  discriminate.
Defined.

(** The input opened before the check answered still adds a domain after
    it: Enter invokes [add_domain] in the disabled view, once. *)
Example enter_adds_while_disabled :
  let w := env_of no_privileges true in
  let st := snd (run w [] (before_check typed_early)) in
  invocations
    (fst (run w [] (session true
                      [ClickRemove 0; ClickSaveChanges;
                       KeydownNewDomain "Enter"; KeydownNewDomain "Enter"]
                      st)))
  = ["add_domain"; "get_blocked_domains"; "get_statistics"].
Proof. vm_compute. reflexivity. Qed.

(** With the input closed when the check answers, the same keys do
    nothing. *)
Example closed_input_stays_closed :
  let w := env_of no_privileges true in
  let st := snd (run w [] (before_check [])) in
  run w [] (session true
              [ClickAddDomain; ClickRemove 0; ClickSaveChanges;
               KeydownNewDomain "Enter"] st)
  = ([], st).
Proof. vm_compute. reflexivity. Qed.

End AppFacts.

Module ErrorTraceFacts.
Import Effects EffectsFacts ErrorTrace.

Lemma all_shown_app t1 t2 : all_shown t1 -> all_shown t2 -> all_shown (t1 ++ t2).
Proof.
  intros (H1 & H2 & H3) (H4 & H5 & H6). unfold all_shown, toasts_error in *.
  rewrite !omap_app, !length_app. by rewrite H1, H2, H3, H4, H5, H6.
Qed.

Lemma writes_shown_app t1 t2 :
  writes_shown t1 -> writes_shown t2 -> writes_shown (t1 ++ t2).
Proof.
  intros (H1 & H2) (H4 & H5). unfold writes_shown in *.
  rewrite !omap_app. by rewrite H1, H2, H4, H5.
Qed.

End ErrorTraceFacts.

Module HistoryErrorFacts.
Import Effects EffectsFacts ErrorTrace ErrorTraceFacts History.

#[local] Arguments flush : simpl never.
#[local] Arguments settle : simpl never.

Lemma loadHistory_all_shown (w : env) h st :
  all_shown (fst (run w h (loadHistory st))).
Proof.
  unfold loadHistory. norm.
  destruct (w _ h (Invoke get_history_list)); norm; by repeat split.
Qed.

Opaque loadHistory.

Lemma deleteSelected_all_shown (w : env) h st :
  size (selectedEntries st) <> 0%nat ->
  all_shown (fst (run w h (deleteSelected st))).
Proof.
  intros Hsz. unfold deleteSelected.
  apply Nat.eqb_neq in Hsz. rewrite Hsz. norm.
  destruct (w _ h (Confirm _)); norm; [|by repeat split].
  match goal with
  | |- context [match ?w ?X ?h (@Invoke ?R ?c) with _ => _ end] =>
      destruct (w X h (@Invoke R c)) as [r|err]
  end; norm; [|by repeat split].
  rewrite run_bind_raw. cbv zeta. cbn [fst]. rewrite app_nil_r.
  match goal with
  | |- all_shown (?a :: ?b :: ?c :: ?t) =>
      change (all_shown ([a; b; c] ++ t))
  end.
  apply all_shown_app; [by repeat split | apply loadHistory_all_shown].
Qed.

Lemma rollbackTo_all_shown (w : env) h f st :
  all_shown (fst (run w h (rollbackTo f st))).
Proof.
  unfold rollbackTo. norm.
  destruct (w _ h (Confirm _)); norm; [|by repeat split].
  match goal with
  | |- context [match ?w ?X ?h (@Invoke ?R ?c) with _ => _ end] =>
      destruct (w X h (@Invoke R c)) as [r|err]
  end; norm; [|by repeat split].
  rewrite run_bind_raw. cbv zeta. cbn [fst]. rewrite app_nil_r.
  match goal with
  | |- all_shown (?a :: ?b :: ?c :: ?t) =>
      change (all_shown ([a; b; c] ++ t))
  end.
  apply all_shown_app; [by repeat split | apply loadHistory_all_shown].
Qed.

Lemma history_dispatch_all_shown (w : env) h a st :
  all_shown (fst (run w h (dispatch a st))).
Proof.
  destruct a; simpl.
  - destruct (isLoading st); [by repeat split | apply loadHistory_all_shown].
  - destruct (0 <? size (selectedEntries st))%nat eqn:Hsz; simpl;
      [|by repeat split].
    destruct (negb _); [|by repeat split].
    apply deleteSelected_all_shown. apply Nat.ltb_lt in Hsz. lia.
  - destruct (list_rendered st); by repeat split.
  - destruct (list_rendered st); [|by repeat split].
    destruct (historyEntries st !! index); by repeat split.
  - destruct (_ && _); [|by repeat split].
    destruct (historyEntries st !! index);
      [apply rollbackTo_all_shown | by repeat split].
Qed.

Transparent loadHistory.

(** In the history view no error is swallowed: in every session, each
    rejected remote operation is logged and raises one error toast that
    carries the text of the error, in the order of the rejections, and
    no other error toast is raised. *)
Theorem history_rejections_all_shown
    (w : env) (actions : list action) (h : list obs) (st : state) :
  all_shown (fst (run w h (session actions st)))
  /\ all_shown (fst (run w h (mounted ≫= session actions))).
Proof.
  assert (Hs : forall h st, all_shown (fst (run w h (session actions st)))).
  { clear h st. induction actions as [|a rest IH]; intros h st; [by repeat split|].
    simpl. rewrite run_bind. cbv zeta. cbn [fst].
    apply all_shown_app; [apply history_dispatch_all_shown | apply IH]. }
  split; [apply Hs|].
  rewrite run_bind. cbv zeta. cbn [fst].
  apply all_shown_app; [apply loadHistory_all_shown | apply Hs].
Qed.

End HistoryErrorFacts.

Module BlockedListErrorFacts.
Import Effects EffectsFacts ErrorTrace ErrorTraceFacts BlockedList BlockedListFacts.

Lemma loadBlockedDomains_writes_shown (w : env) h st :
  writes_shown (fst (run w h (loadBlockedDomains st))).
Proof. unfold loadBlockedDomains. crunch; by repeat split. Qed.

Lemma addDomain_writes_shown (w : env) h st :
  writes_shown (fst (run w h (addDomain st))).
Proof.
  unfold addDomain.
  destruct (bool_decide _); [by repeat split|].
  destruct (negb _); [by repeat split|].
  unfold loadBlockedDomains. crunch; by repeat split.
Qed.

Lemma blocked_dispatch_writes_shown (w : env) h disabled a st :
  writes_shown (fst (run w h (dispatch disabled a st))).
Proof.
  destruct a; simpl.
  - destruct (_ && _); by repeat split.
  - destruct (negb _); [|by repeat split].
    unfold saveChanges, loadBlockedDomains. crunch; by repeat split.
  - destruct (_ && _); by repeat split.
  - destruct (_ && _); [|by repeat split]. unfold handleAddKeydown.
    destruct (String.eqb key "Enter"); [apply addDomain_writes_shown|].
    destruct (String.eqb key "Escape"); by repeat split.
  - destruct (_ && _); [apply addDomain_writes_shown | by repeat split].
  - destruct (showAddInput st); by repeat split.
  - destruct (isLoading st); [by repeat split|].
    destruct (blockedDomains st !! index) as [d|]; [|by repeat split].
    destruct disabled; [by repeat split|].
    cbv [DomainItem.handleRemove DomainItem.disabled DomainItem.ip
         DomainItem.hostname negb].
    unfold removeDomain, loadBlockedDomains. crunch; by repeat split.
Qed.

(** In the blocked-domain view every rejected remote operation is
    logged, and every rejected [add_domain], [remove_domain] and
    [save_changes] raises an error toast with the text of the error;
    the rejections of the two reads of the reload are the only ones that
    raise none. *)
Theorem blocked_list_write_rejections_shown
    (w : env) (disabled : bool) (actions : list action) (h : list obs)
    (st : state) :
  writes_shown (fst (run w h (session disabled actions st)))
  /\ writes_shown (fst (run w h (mounted ≫= session disabled actions))).
Proof.
  assert (Hs : forall h st,
            writes_shown (fst (run w h (session disabled actions st)))).
  { clear h st. induction actions as [|a rest IH]; intros h st; [by repeat split|].
    simpl. rewrite run_bind. cbv zeta. cbn [fst].
    apply writes_shown_app; [apply blocked_dispatch_writes_shown | apply IH]. }
  split; [apply Hs|].
  rewrite run_bind. cbv zeta. cbn [fst].
  apply writes_shown_app; [apply loadBlockedDomains_writes_shown | apply Hs].
Qed.

End BlockedListErrorFacts.
